(** * ViralForge backend: the auto-settlement service

    A shallow embedding of [server/services/settlementService.js]
    (class [AutoSettlementService]), of the schemas of
    [server/models/Settlement.js], and of the routes of
    [server/server.js] that reach the service, the two collections, the
    [vote] method of the contract and the faucet.

    - JavaScript [Number]s are IEEE-754 binary64 values, taken from the
      Standard Library's [SpecFloat] (precision 53, emax 1024);
      [BigInt]s are [Z].
    - [async] methods are computations in a state-and-exception monad over
      the state of the external collaborators (the contract behind the RPC
      node, the wall clock, the database server) and the documents of the
      [SettlementRecord] collection; every call to a collaborator and every
      console line is emitted, in order, as an event.
    - The cron callback of [start] is a transition system over ticks and
      scan exits.
    - A route handler is a computation in a monad of the same kind over
      the whole process: the service, and the [UserVote] collection;
      requests are served one after the other. *)

From Stdlib Require Import ZArith List Bool Lia String.
From Stdlib Require Import Floats.SpecFloat.
From Stdlib Require Import Ascii Sorted.
Import ListNotations.
Local Open Scope Z_scope.

(** ** JavaScript numbers *)

Module JS.

Definition prec : Z := 53.
Definition emax : Z := 1024.

Definition number := spec_float.

Definition zero : number := S754_zero false.

(** [Number(b)] for a BigInt [b]: the nearest double, ties to even. *)
Definition Number (b : Z) : number := binary_normalize prec emax b 0 false.

Definition add : number -> number -> number := SFadd prec emax.
Definition sub : number -> number -> number := SFsub prec emax.
Definition mul : number -> number -> number := SFmul prec emax.
Definition div : number -> number -> number := SFdiv prec emax.

(** [a <= b] and [a > b] of the language: false on NaN. *)
Definition le (a b : number) : bool := SFleb a b.
Definition gt (a b : number) : bool := SFltb b a.

(** [Math.floor]. *)
Definition floor (x : number) : number :=
  match x with
  | S754_finite s m e =>
      if 0 <=? e then x
      else binary_normalize prec emax
             (Z.shiftr (cond_Zopp s (Zpos m)) (- e)) 0 s
  | _ => x
  end.

(** The literal [0.05]: 0x1.999999999999ap-5. *)
Definition lit_0_05 : number := S754_finite false 7205759403792794 (-57).

(** The literal [1000]. *)
Definition lit_1000 : number := Number 1000.

(** The integer a number denotes, when it denotes one. *)
Definition toInteger (x : number) : option Z :=
  match x with
  | S754_zero _ => Some 0
  | S754_finite s m e =>
      if 0 <=? e then Some (cond_Zopp s (Zpos m * 2 ^ e))
      else if (Zpos m mod 2 ^ (- e)) =? 0
           then Some (cond_Zopp s (Zpos m / 2 ^ (- e)))
           else None
  | _ => None
  end.

(** [2^53]: below it every non-negative integer is a double. *)
Definition two53 : Z := 9007199254740992.

(** [p * 2^k], for [k] not negative. *)
Definition scale (p : positive) (k : Z) : positive :=
  match k with
  | Zpos n => Pos.iter xO p n
  | _ => p
  end.

(** The double of sign [s] and magnitude [p], a positive integer below
    [2^53]: the integer shifted to 53 digits. *)
Definition canon (s : bool) (p : positive) : number :=
  let k := (53 - Zpos (Pos.size p))%Z in
  S754_finite s (scale p k) (- k).

End JS.

(** ** Data model *)

(** A thrown [Error]; only its [message] is inspected by the service. *)
Record Error := { message : string }.

(** The tuple [contract.getMarket(i)] resolves to:
    [[creator, endTime, yesVotes, noVotes, totalStaked, isActive, metadata,
    memes]]; the [uint256] components are BigInts. *)
Record Market := {
  creator : string;
  endTime : Z;
  yesVotes : Z;
  noVotes : Z;
  totalStaked : Z;
  isActive : bool;
  metadata : string;
  memes : list Z
}.

(** A sent transaction ([tx.hash]) and its receipt. *)
Record Tx := { hash : string }.
Record Receipt := { blockNumber : Z; gasUsed : Z }.

(** The schema's [enum: ['funny', 'lame']]. *)
Inductive Side := funny | lame.

(** An element of the schema's [participants] array. *)
Record Participant := {
  address : string;
  vote : Side;
  staked : string;
  payout : string;
  won : bool
}.

(** A document of the [SettlementRecord] collection, with the fields the
    schema declares.  [String] fields holding the decimal text of a BigInt
    ([totalStaked], [gasUsed]) carry the integer; those holding the text of
    a [Number] ([creatorReward], [voterRewards]) carry the number; a [Date]
    carries its time value in milliseconds. *)
Record SettlementRecord := {
  marketId : Z;
  templateCreator : string;
  rec_endTime : JS.number;
  totalVotes : JS.number;
  rec_yesVotes : JS.number;
  rec_noVotes : JS.number;
  rec_totalStaked : Z;
  winnerSide : Side;
  creatorReward : JS.number;
  voterRewards : JS.number;
  settlementTx : string;
  rec_blockNumber : Z;
  rec_gasUsed : Z;
  settledAt : JS.number;
  participants : list Participant
}.

(** What [getSettlementStatus] resolves to ([formatEther]'s text carried
    as the amount in wei). *)
Record Status := {
  st_marketId : Z;
  st_isActive : bool;
  timeLeft : JS.number;
  readyForSettlement : bool;
  st_yesVotes : JS.number;
  st_noVotes : JS.number;
  st_totalStaked : Z
}.

(** ** Events: calls to the collaborators and console lines *)

Inductive Call :=
| CMarketCount
| CGetMarket (i : Z)
| CEstimateGas (i : Z)
| CReleaseRewards (i : Z) (gasLimit : Z)
| CWait (h : string)
| CSave (i : Z).

Inductive Line :=
| LStarting
| LStarted
| LSkipping
| EAutoSettlement (e : Error)
| LChecking
| LTotalMarkets (n : Z)
| LNoMarkets
| LSettling (i : Z) (tl : JS.number)
| LRemaining (i : Z) (tl : JS.number)
| EProcessing (i : Z) (msg : string)
| LSettledCount (n : Z)
| LNoneReady
| EFailedCheck (e : Error)
| LStats (i : Z) (yes no : JS.number) (stakedWei : Z) (creatorPrefix : string)
| LEstimatedGas (g : Z)
| LTxSent (h : string)
| LSettled (i : Z) (block : Z)
| EFailedSettle (i : Z) (msg : string)
| LNotReady (i : Z)
| LAlreadySettled (i : Z)
| EInsufficientFunds
| LSaved (i : Z)
| EFailedStore (i : Z) (e : Error)
| LManual (i : Z)
| EManualFailed (i : Z) (e : Error)
| EStatusFailed (i : Z) (e : Error).

Inductive Event :=
| Called (c : Call)
| Console (l : Line).

(** The finalize action on market [k]: its cost estimate or its submission. *)
Definition finalizes (k : Z) (ev : Event) : bool :=
  match ev with
  | Called (CEstimateGas i) | Called (CReleaseRewards i _) => i =? k
  | _ => false
  end.

Definition fetched (ev : Event) : option Z :=
  match ev with
  | Called (CGetMarket i) => Some i
  | _ => None
  end.

Fixpoint fetches (t : list Event) : list Z :=
  match t with
  | [] => []
  | ev :: t' =>
      match fetched ev with
      | Some i => i :: fetches t'
      | None => fetches t'
      end
  end.

Definition calls (t : list Event) : list Call :=
  flat_map (fun ev => match ev with Called c => [c] | Console _ => [] end) t.

(** ** The monad of [async] methods *)

Inductive outcome (A : Type) :=
| Returned (a : A)
| Thrown (e : Error).
Arguments Returned {A} a.
Arguments Thrown {A} e.

(** The external collaborators, over their joint state [L]: the contract
    reached through [ethers], the clock and the database server. *)
Class Collaborators (L : Type) := {
  contract_marketCount : L -> outcome Z * L;
  contract_getMarket : Z -> L -> outcome Market * L;
  contract_estimateGas : Z -> L -> outcome Z * L;
  contract_releaseRewards : Z -> Z -> L -> outcome Tx * L;
  tx_wait : Tx -> L -> outcome Receipt * L;
  Date_now : L -> Z * L;
  (** a failure of [save()] other than the unique index: validation, the
      connection *)
  db_fault : SettlementRecord -> L -> option Error * L
}.

Record State (L : Type) := {
  chain : L;
  docs : list SettlementRecord
}.
Arguments chain {L} s.
Arguments docs {L} s.

Record Run (L A : Type) := {
  result : outcome A;
  post : State L;
  trace : list Event
}.
Arguments result {L A} r.
Arguments post {L A} r.
Arguments trace {L A} r.

Definition M (L A : Type) : Type := State L -> Run L A.

Definition ret {L A} (a : A) : M L A :=
  fun s => {| result := Returned a; post := s; trace := [] |}.

Definition throw {L A} (e : Error) : M L A :=
  fun s => {| result := Thrown e; post := s; trace := [] |}.

Definition bind {L A B} (m : M L A) (k : A -> M L B) : M L B :=
  fun s =>
    let r := m s in
    match result r with
    | Returned a =>
        let r' := k a (post r) in
        {| result := result r'; post := post r'; trace := trace r ++ trace r' |}
    | Thrown e => {| result := Thrown e; post := post r; trace := trace r |}
    end.

(** [try { m } catch (error) { h error }] *)
Definition try_catch {L A} (m : M L A) (h : Error -> M L A) : M L A :=
  fun s =>
    let r := m s in
    match result r with
    | Returned a => r
    | Thrown e =>
        let r' := h e (post r) in
        {| result := result r'; post := post r'; trace := trace r ++ trace r' |}
    end.

Definition console {L} (l : Line) : M L unit :=
  fun s => {| result := Returned tt; post := s; trace := [Console l] |}.

(** A call to a collaborator: the call is emitted, the collaborator's
    state advances, the promise resolves or rejects. *)
Definition call {L A} (c : Call) (f : L -> outcome A * L) : M L A :=
  fun s =>
    {| result := fst (f (chain s));
       post := {| chain := snd (f (chain s)); docs := docs s |};
       trace := [Called c] |}.

Declare Scope js_scope.
Delimit Scope js_scope with js.
Notation "x <- m ;; k" := (bind m (fun x => k))
  (at level 61, m at next level, right associativity) : js_scope.
Notation "m ;; k" := (bind m (fun _ => k))
  (at level 61, right associativity) : js_scope.
Local Open Scope js_scope.

(** ** Strings *)

(** [hay.includes(needle)] *)
Fixpoint includes (needle hay : string) : bool :=
  if String.prefix needle hay then true
  else match hay with
       | EmptyString => false
       | String _ rest => includes needle rest
       end.

(** [creator.slice(0, 8) + '...'] *)
Definition creator_prefix (c : string) : string :=
  (String.substring 0 8 c ++ "...")%string.

(** ** Dates *)

(** The time value of [new Date(v)]: [TimeClip], NaN beyond 8.64e15 ms. *)
Definition Date_of (v : JS.number) : JS.number :=
  match v with
  | S754_finite s _ _ =>
      if JS.le (SFabs v) (JS.Number 8640000000000000)
      then (if s then SFopp (JS.floor (SFopp v)) else JS.floor v)
      else S754_nan
  | S754_zero _ => JS.zero
  | _ => S754_nan
  end.

(** ** The store *)

(** MongoDB's duplicate-key error for the unique index on [marketId]. *)
Definition E11000 : Error :=
  {| message := "E11000 duplicate key error collection: settlementrecords index: marketId_1" |}.

Definition has_record (i : Z) (ds : list SettlementRecord) : bool :=
  existsb (fun d => marketId d =? i) ds.

Section Service.
Context {L : Type} `{Collaborators L}.

(** [settlementRecord.save()]: the insert is refused when the database
    fails or when [marketId], declared [unique: true], is already taken. *)
Definition save (r : SettlementRecord) : M L unit :=
  fun s =>
    let c' := snd (db_fault r (chain s)) in
    match fst (db_fault r (chain s)) with
    | Some e =>
        {| result := Thrown e;
           post := {| chain := c'; docs := docs s |};
           trace := [Called (CSave (marketId r))] |}
    | None =>
        if has_record (marketId r) (docs s)
        then {| result := Thrown E11000;
                post := {| chain := c'; docs := docs s |};
                trace := [Called (CSave (marketId r))] |}
        else {| result := Returned tt;
                post := {| chain := c'; docs := docs s ++ [r] |};
                trace := [Called (CSave (marketId r))] |}
    end.

(** [Date.now()] *)
Definition now_ms : M L Z :=
  fun s =>
    {| result := Returned (fst (Date_now (chain s)));
       post := {| chain := snd (Date_now (chain s)); docs := docs s |};
       trace := [] |}.

(** ** [storeSettlementRecord] *)

(** The document built at lines 148-171; [participants] is not passed to
    the constructor and takes the array default. *)
Definition settlementRecordOf (id : Z) (marketData : Market) (txHash : string)
    (receipt : Receipt) (t : Z) : SettlementRecord :=
  let totalVotes := JS.add (JS.Number (yesVotes marketData))
                           (JS.Number (noVotes marketData)) in
  let winnerSide :=
    if JS.gt (JS.Number (yesVotes marketData)) (JS.Number (noVotes marketData))
    then funny else lame in
  let totalPool := JS.Number (totalStaked marketData) in
  let creatorReward := JS.floor (JS.mul totalPool JS.lit_0_05) in
  let voterRewards := JS.sub totalPool creatorReward in
  {| marketId := id;
     templateCreator := creator marketData;
     rec_endTime := Date_of (JS.mul (JS.Number (endTime marketData)) JS.lit_1000);
     totalVotes := totalVotes;
     rec_yesVotes := JS.Number (yesVotes marketData);
     rec_noVotes := JS.Number (noVotes marketData);
     rec_totalStaked := totalStaked marketData;
     winnerSide := winnerSide;
     creatorReward := creatorReward;
     voterRewards := voterRewards;
     settlementTx := txHash;
     rec_blockNumber := blockNumber receipt;
     rec_gasUsed := gasUsed receipt;
     settledAt := JS.Number t;
     participants := [] |}.

Definition storeSettlementRecord (id : Z) (marketData : Market)
    (txHash : string) (receipt : Receipt) : M L unit :=
  try_catch
    (t <- now_ms ;;
     save (settlementRecordOf id marketData txHash receipt t) ;;
     console (LSaved id))
    (fun error => console (EFailedStore id error)).

(** ** [settleMarket] *)

Definition settle_failure_lines (id : Z) (error : Error) : M L unit :=
  console (EFailedSettle id (message error)) ;;
  if includes "Market is still active" (message error)
  then console (LNotReady id)
  else if includes "Market is not active" (message error)
  then console (LAlreadySettled id)
  else if includes "insufficient funds" (message error)
  then console EInsufficientFunds
  else ret tt.

Definition settleMarket (id : Z) (marketData : Market) : M L bool :=
  try_catch
    (console (LStats id (JS.Number (yesVotes marketData))
                (JS.Number (noVotes marketData)) (totalStaked marketData)
                (creator_prefix (creator marketData))) ;;
     gasEstimate <- call (CEstimateGas id) (contract_estimateGas id) ;;
     console (LEstimatedGas gasEstimate) ;;
     let gasLimit := Z.quot (gasEstimate * 120) 100 in
     tx <- call (CReleaseRewards id gasLimit)
                (contract_releaseRewards id gasLimit) ;;
     console (LTxSent (hash tx)) ;;
     receipt <- call (CWait (hash tx)) (tx_wait tx) ;;
     console (LSettled id (blockNumber receipt)) ;;
     storeSettlementRecord id marketData (hash tx) receipt ;;
     ret true)
    (fun error => settle_failure_lines id error ;; ret false).

(** ** [checkAndSettleMarkets] *)

(** [Math.floor(t / 1000)] for the clock reading [t]. *)
Definition seconds_of (t : Z) : JS.number :=
  JS.floor (JS.div (JS.Number t) JS.lit_1000).

(** [Math.floor(Date.now() / 1000)] *)
Definition now_seconds : M L JS.number :=
  t <- now_ms ;;
  ret (seconds_of t).

(** [Number(endTime) - now] *)
Definition time_left (m : Market) (now : JS.number) : JS.number :=
  JS.sub (JS.Number (endTime m)) now.

(** The body of the [for] loop for index [i], carrying [settledCount]. *)
Definition processMarket (i : Z) (settledCount : Z) : M L Z :=
  try_catch
    (market <- call (CGetMarket i) (contract_getMarket i) ;;
     if negb (isActive market) then ret settledCount
     else
       now <- now_seconds ;;
       let timeLeft := time_left market now in
       if JS.le timeLeft JS.zero then
         console (LSettling i timeLeft) ;;
         settled <- settleMarket i market ;;
         ret (if settled : bool then settledCount + 1 else settledCount)
       else
         console (LRemaining i timeLeft) ;;
         ret settledCount)
    (fun error => console (EProcessing i (message error)) ;; ret settledCount).

(** [for (let i = ...; i < marketCount; i++)], with [n] iterations left.
    The counter [i] is carried as an integer: a double counts exactly up
    to [2^53] markets. *)
Fixpoint scan_loop (n : nat) (i : Z) (settledCount : Z) : M L Z :=
  match n with
  | O => ret settledCount
  | S n' =>
      c <- processMarket i settledCount ;;
      scan_loop n' (i + 1) c
  end.

Definition checkAndSettleMarkets : M L unit :=
  console LChecking ;;
  try_catch
    (marketCount <- call CMarketCount contract_marketCount ;;
     console (LTotalMarkets marketCount) ;;
     if marketCount =? 0 then console LNoMarkets
     else
       settledCount <- scan_loop (Z.to_nat marketCount) 0 0 ;;
       if 0 <? settledCount then console (LSettledCount settledCount)
       else console LNoneReady)
    (fun error => console (EFailedCheck error)).

(** ** [manualSettle] and [getSettlementStatus] *)

Definition manualSettle (id : Z) : M L bool :=
  console (LManual id) ;;
  try_catch
    (market <- call (CGetMarket id) (contract_getMarket id) ;;
     settleMarket id market)
    (fun error => console (EManualFailed id error) ;; throw error).

Definition getSettlementStatus (id : Z) : M L Status :=
  try_catch
    (market <- call (CGetMarket id) (contract_getMarket id) ;;
     now <- now_seconds ;;
     let timeLeft := time_left market now in
     ret {| st_marketId := id;
            st_isActive := isActive market;
            timeLeft := timeLeft;
            readyForSettlement := JS.le timeLeft JS.zero && isActive market;
            st_yesVotes := JS.Number (yesVotes market);
            st_noVotes := JS.Number (noVotes market);
            st_totalStaked := totalStaked market |})
    (fun error => console (EStatusFailed id error) ;; throw error).

End Service.

(** ** The cron callback of [start] *)

(** The service object between turns of the event loop: the [isRunning]
    field, the scans begun and not yet exited, the collaborators and the
    store, and everything emitted so far. *)
Record Service (L : Type) := {
  isRunning : bool;
  inFlight : nat;
  world : State L;
  emitted : list Event
}.
Arguments isRunning {L} s.
Arguments inFlight {L} s.
Arguments world {L} s.
Arguments emitted {L} s.

(** The constructor: [this.isRunning = false]. *)
Definition new_service {L} (w : State L) : Service L :=
  {| isRunning := false; inFlight := 0; world := w; emitted := [] |}.

(** [start()]: two console lines around [cron.schedule], which registers
    the callback below; its firings are the [Tick]s. *)
Definition start {L} (sv : Service L) : Service L :=
  {| isRunning := isRunning sv; inFlight := inFlight sv; world := world sv;
     emitted := emitted sv ++ [Console LStarting; Console LStarted] |}.

(** What the event loop delivers: the cron schedule fires, or the promise
    of a scan in flight settles. *)
Inductive Input := Tick | ScanExit.

Section Scheduler.
Context {L : Type}.
(** The routine awaited at line 29. *)
Variable scan : M L unit.

(** Lines 22-27: the callback up to its [await]. *)
Definition on_tick (sv : Service L) : Service L :=
  if isRunning sv
  then {| isRunning := isRunning sv; inFlight := inFlight sv;
          world := world sv;
          emitted := emitted sv ++ [Console LSkipping] |}
  else {| isRunning := true; inFlight := S (inFlight sv);
          world := world sv; emitted := emitted sv |}.

(** Lines 29-34: the awaited scan settles; [catch] logs a rejection,
    [finally] clears the flag.  The effects of the scan are applied
    here, in one step: what it emitted is appended at its exit, so the
    place of its console lines among those of the ticks in between is
    not the one they have on the console. *)
Definition on_scan_exit (sv : Service L) : Service L :=
  match inFlight sv with
  | O => sv
  | S n =>
      let r := scan (world sv) in
      {| isRunning := false;
         inFlight := n;
         world := post r;
         emitted := emitted sv ++ trace r ++
                    match result r with
                    | Returned _ => []
                    | Thrown error => [Console (EAutoSettlement error)]
                    end |}
  end.

Definition cron_step (sv : Service L) (i : Input) : Service L :=
  match i with
  | Tick => on_tick sv
  | ScanExit => on_scan_exit sv
  end.

Definition cron_run (inputs : list Input) (sv : Service L) : Service L :=
  fold_left cron_step inputs sv.

End Scheduler.

(** The flag is set exactly while one scan is in flight. *)
Definition lock_tracks_scan {L} (sv : Service L) : Prop :=
  (inFlight sv <= 1)%nat /\ (isRunning sv = true <-> inFlight sv = 1%nat).

(** ** [GET /api/user-settlements/:address] *)

(** [SettlementRecord.find({ "participants.address": address })] *)
Definition find_by_participant (addr : string) (ds : list SettlementRecord)
  : list SettlementRecord :=
  filter (fun d => existsb (fun p => String.eqb (address p) addr)
                     (participants d)) ds.

(** [.sort({ settledAt: -1 })] *)
Fixpoint insert_by_settledAt (d : SettlementRecord) (ds : list SettlementRecord)
  : list SettlementRecord :=
  match ds with
  | [] => [d]
  | d' :: rest =>
      if JS.le (settledAt d') (settledAt d) then d :: ds
      else d' :: insert_by_settledAt d rest
  end.

Definition sort_settledAt_desc (ds : list SettlementRecord)
  : list SettlementRecord :=
  fold_right insert_by_settledAt [] ds.

Definition user_settlements (addr : string) (ds : list SettlementRecord)
  : list SettlementRecord :=
  sort_settledAt_desc (find_by_participant addr ds).

(** ** A reference ledger for examples

    A contract with the revert messages [settleMarket] looks for, a clock
    that stands still and a database that is up or down. *)
Module Ref.

Record Ledger := {
  markets : list Market;
  clock : Z;
  height : Z;
  dbDown : bool;
  (** markets whose payout reverts *)
  reverting : list Z
}.

Definition market_at (i : Z) (l : Ledger) : option Market :=
  if i <? 0 then None else nth_error (markets l) (Z.to_nat i).

Definition check_release (i : Z) (l : Ledger) : option Error :=
  match market_at i l with
  | None => Some {| message := "execution reverted" |}
  | Some m =>
      if negb (isActive m)
      then Some {| message := "execution reverted: Market is not active" |}
      else if clock l <? endTime m * 1000
      then Some {| message := "execution reverted: Market is still active" |}
      else if existsb (Z.eqb i) (reverting l)
      then Some {| message := "execution reverted: transfer failed" |}
      else None
  end.

Definition deactivate (m : Market) : Market :=
  {| creator := creator m; endTime := endTime m; yesVotes := yesVotes m;
     noVotes := noVotes m; totalStaked := totalStaked m; isActive := false;
     metadata := metadata m; memes := memes m |}.

Fixpoint close_market (n : nat) (ms : list Market) : list Market :=
  match ms, n with
  | [], _ => []
  | m :: rest, O => deactivate m :: rest
  | m :: rest, S n' => m :: close_market n' rest
  end.

#[global] Instance ledger : Collaborators Ledger := {|
  contract_marketCount l := (Returned (Z.of_nat (List.length (markets l))), l);
  contract_getMarket i l :=
    (match market_at i l with
     | Some m => Returned m
     | None => Thrown {| message := "execution reverted" |}
     end, l);
  contract_estimateGas i l :=
    (match check_release i l with
     | Some e => Thrown e
     | None => Returned 100000
     end, l);
  contract_releaseRewards i gasLimit l :=
    match check_release i l with
    | Some e => (Thrown e, l)
    | None =>
        (Returned {| hash := "0x5e771e" |},
         {| markets := close_market (Z.to_nat i) (markets l);
            clock := clock l; height := height l; dbDown := dbDown l;
            reverting := reverting l |})
    end;
  tx_wait tx l :=
    (Returned {| blockNumber := height l + 1; gasUsed := 83000 |},
     {| markets := markets l; clock := clock l; height := height l + 1;
        dbDown := dbDown l; reverting := reverting l |});
  Date_now l := (clock l, l);
  db_fault r l :=
    (if dbDown l then Some {| message := "connection lost" |} else None, l)
|}.

Definition market (deadline yes no stake : Z) (active : bool) : Market :=
  {| creator := "0x1234567890abcdef1234567890abcdef12345678";
     endTime := deadline; yesVotes := yes; noVotes := no;
     totalStaked := stake; isActive := active;
     metadata := "meme"; memes := [] |}.

(** Market 0 is overdue and active, market 1 still runs, market 2 is
    closed, market 3 is overdue and active; it is second 2000. *)
Definition four_markets : Ledger :=
  {| markets := [market 1000 3 2 101 true; market 5000 1 1 500 true;
                 market 900 0 4 300 false; market 1500 2 2 700 true];
     clock := 2000000; height := 41; dbDown := false; reverting := [] |}.

Definition fresh (l : Ledger) : State Ledger := {| chain := l; docs := [] |}.

(** The same markets with the database down. *)
Definition db_down : Ledger :=
  {| markets := markets four_markets; clock := clock four_markets;
     height := height four_markets; dbDown := true; reverting := [] |}.

(** The same markets, the payout of market 0 reverting. *)
Definition first_reverts : Ledger :=
  {| markets := markets four_markets; clock := clock four_markets;
     height := height four_markets; dbDown := false; reverting := [0] |}.

(** The same markets, with a record for market 0 already in the store. *)
Definition already_recorded : State Ledger :=
  {| chain := four_markets;
     docs := [settlementRecordOf 0 (market 1000 3 2 101 true) "0x0ld"
                {| blockNumber := 7; gasUsed := 80000 |} 1500000] |}.

(** An overdue, active market with [2^53 + 1] wei staked. *)
Definition large_stake : Market := market 1000 3 2 (JS.two53 + 1) true.

(** A ledger with that market alone. *)
Definition one_large : Ledger :=
  {| markets := [large_stake]; clock := 2000000; height := 41;
     dbDown := false; reverting := [] |}.

(** The receipt of the examples. *)
Definition receipt42 : Receipt := {| blockNumber := 42; gasUsed := 83000 |}.

End Ref.


(** ** Vocabulary of the statements *)

(** The indices [i, i+1, ..., i+n-1]. *)
Fixpoint zseq (n : nat) (i : Z) : list Z :=
  match n with
  | O => []
  | S n' => i :: zseq n' (i + 1)
  end.

(** The store after the engine wrote to it: records built by
    [storeSettlementRecord], each inserted under an id not yet taken. *)
Inductive grows (ds : list SettlementRecord) : list SettlementRecord -> Prop :=
| grows_same : grows ds ds
| grows_insert ds' id m tx rc t :
    grows ds ds' ->
    has_record id ds' = false ->
    grows ds (ds' ++ [settlementRecordOf id m tx rc t]).

(** The unique index on [marketId]. *)
Definition unique_ids (ds : list SettlementRecord) : Prop :=
  NoDup (map marketId ds).

(** An event that is no finalize action on a market other than [i]. *)
Definition only_finalizes (i : Z) (ev : Event) : Prop :=
  forall k, finalizes k ev = true -> k = i.

(** An event that is no snapshot fetch. *)
Definition no_fetch (ev : Event) : Prop := fetched ev = None.

(** A console line. *)
Definition silent (ev : Event) : Prop :=
  match ev with
  | Console _ => True
  | Called _ => False
  end.

(** An event that touches neither the ledger's markets nor the store. *)
Definition quiet (ev : Event) : Prop :=
  match ev with
  | Called CMarketCount | Console _ => True
  | _ => False
  end.

Section Vocabulary.
Context {L : Type} `{Collaborators L}.

(** The three ledger steps of [settleMarket] (lines 110, 114 and 121),
    in order and without the console lines between them. *)
Definition finalize_on_ledger (id : Z) : M L (Tx * Receipt) :=
  gasEstimate <- call (CEstimateGas id) (contract_estimateGas id) ;;
  let gasLimit := Z.quot (gasEstimate * 120) 100 in
  tx <- call (CReleaseRewards id gasLimit)
             (contract_releaseRewards id gasLimit) ;;
  receipt <- call (CWait (hash tx)) (tx_wait tx) ;;
  ret (tx, receipt).

(** What [settleMarket] asks of its collaborators, read off the ledger
    alone. *)
Definition settle_calls (id : Z) (c : L) : list Call :=
  CEstimateGas id ::
  match fst (contract_estimateGas id c) with
  | Thrown _ => []
  | Returned g =>
      let c1 := snd (contract_estimateGas id c) in
      let limit := Z.quot (g * 120) 100 in
      CReleaseRewards id limit ::
      match fst (contract_releaseRewards id limit c1) with
      | Thrown _ => []
      | Returned tx =>
          CWait (hash tx) ::
          match fst (tx_wait tx (snd (contract_releaseRewards id limit c1))) with
          | Thrown _ => []
          | Returned _ => [CSave id]
          end
      end
  end.

(** The state in which the [for] loop of a scan begun in [s] starts, and
    the state in which its iteration [k] starts. *)
Definition scan_start (s : State L) : State L :=
  post (call CMarketCount contract_marketCount s).

Definition before_iteration (s : State L) (k : nat) : State L :=
  post (scan_loop k 0 0 (scan_start s)).

(** What an iteration for index [i] begun in state [s] reads: the
    snapshot, and then the clock, in seconds. *)
Definition snapshot_read (i : Z) (s : State L) : outcome Market :=
  fst (contract_getMarket i (chain s)).

Definition clock_ms_read (i : Z) (s : State L) : Z :=
  fst (Date_now (snd (contract_getMarket i (chain s)))).

Definition clock_read (i : Z) (s : State L) : JS.number :=
  seconds_of (clock_ms_read i s).

(** The state after those two reads. *)
Definition after_reads (i : Z) (s : State L) : State L :=
  {| chain := snd (Date_now (snd (contract_getMarket i (chain s))));
     docs := docs s |}.

(** The run of [m] from [s] satisfies [Q]: its outcome, its final state
    and what it emitted. *)
Definition runs {A} (m : M L A) (s : State L)
    (Q : outcome A -> State L -> list Event -> Prop) : Prop :=
  Q (result (m s)) (post (m s)) (trace (m s)).

(** A computation only adds engine-written records to the store. *)
Definition keeps {A} (m : M L A) : Prop :=
  forall s, grows (docs s) (docs (post (m s))).

(** A computation never throws. *)
Definition total {A} (m : M L A) : Prop :=
  forall s, exists a, result (m s) = Returned a.

(** Every event a computation emits satisfies [P]. *)
Definition emits {A} (P : Event -> Prop) (m : M L A) : Prop :=
  forall s, Forall P (trace (m s)).

End Vocabulary.


(** ** Vocabulary of the scan's console *)

(** An event other than the 'Auto-settlement error' line of the cron
    callback. *)
Definition no_scan_error (ev : Event) : Prop :=
  forall e, ev <> Console (EAutoSettlement e).

(** The 'settled successfully' lines of a trace: the confirmations. *)
Definition confirmation (ev : Event) : bool :=
  match ev with
  | Console (LSettled _ _) => true
  | _ => false
  end.

Definition confirmed (t : list Event) : Z :=
  Z.of_nat (List.length (filter confirmation t)).

(** ** The HTTP routes of [server/server.js] *)

(** *** The [UserVote] collection *)

(** A document of the [UserVote] collection, with the fields the schema
    declares; [votedAt] carries the time value in milliseconds. *)
Record UserVote := {
  userAddress : string;
  uv_marketId : Z;
  uv_vote : Side;
  stakeAmount : string;
  transactionHash : option string;
  votedAt : Z
}.

(** The schema's [enum: ['funny', 'lame']], as the text a request carries. *)
Definition Side_of (v : string) : option Side :=
  if String.eqb v "funny" then Some funny
  else if String.eqb v "lame" then Some lame
  else None.

(** [voteYes ? 'funny' : 'lame'] *)
Definition side_of_voteYes (voteYes : bool) : Side :=
  if voteYes then funny else lame.

(** The schema's default for [stakeAmount]. *)
Definition default_stakeAmount : string := "100000000000000".

(** [parseEther("0.0001")] and [parseEther("0.1")], in wei. *)
Definition voteCost : Z := 100000000000000.
Definition faucetAmount : Z := 100000000000000000.

(** Mongoose's error for a [vote] outside the enum, and MongoDB's for the
    unique index on [(userAddress, marketId)]. *)
Definition vote_not_in_enum (v : string) : Error :=
  {| message := "UserVote validation failed: vote: `" ++ v
                ++ "` is not a valid enum value for path `vote`." |}.

Definition E11000_vote : Error :=
  {| message := "E11000 duplicate key error collection: uservotes index: userAddress_1_marketId_1" |}.

(** The filter [{ userAddress, marketId }]. *)
Definition voted (u : string) (i : Z) (v : UserVote) : bool :=
  String.eqb (userAddress v) u && (uv_marketId v =? i).

(** *** Requests and responses *)

(** The body of [POST /api/user-vote] and of [POST /api/relay]: a field
    is absent ([undefined]) or has the type the schema gives it, the
    market id being an integer. *)
Record VoteBody := {
  vb_userAddress : option string;
  vb_marketId : option Z;
  vb_vote : option string;
  vb_transactionHash : option string
}.

Record RelayBody := {
  rb_userAddress : option string;
  rb_marketId : option Z;
  rb_voteYes : option bool
}.

(** An element of the array [GET /api/user-settlements/:address] answers
    with; [netResult] carries the integer whose text it is. *)
Record UserSettlement := {
  us_marketId : Z;
  us_winnerSide : Side;
  userVote : Side;
  userWon : bool;
  userStake : string;
  userPayout : string;
  netResult : Z;
  us_totalVotes : JS.number;
  us_yesVotes : JS.number;
  us_noVotes : JS.number;
  us_settlementTx : string;
  us_settledAt : JS.number
}.

(** What a route passes to [res.json]. *)
Inductive Json :=
| JMessage (msg : string)
| JFailure (msg : string) (error : string)
| JRelayed (msg : string) (txHash : string)
| JStatus (st : Status)
| JRecord (d : SettlementRecord)
| JUserSettlements (l : list UserSettlement).

(** [res.status(code).json(json)]; [res.json] alone answers 200. *)
Record Response := { code : Z; json : Json }.

(** *** Events of the routes *)

Inductive Query :=
| QFindVote (userAddress : string) (marketId : Z)
| QSaveVote (userAddress : string) (marketId : Z)
| QFindSettlements (address : string)
| QFindSettlement (marketId : Z)
| QEstimateVote (userAddress : string) (marketId : Z) (voteYes : bool) (value : Z)
| QVote (userAddress : string) (marketId : Z) (voteYes : bool) (value gasLimit : Z)
| QFindGas (address : string)
| QSend (to : string) (value : Z)
| QWait (h : string)
| QSaveGas (address : string).

Inductive Notice :=
| NRecordVoteFailed (e : Error)
| NUserSettlementsFailed (e : Error)
| NSettlementFailed (e : Error)
| NManualRequested (marketId : string)
| NManualFailed (e : Error)
| NStatusFailed (e : Error)
| NVoteSent (h : string)
| NRelayFailed (e : Error)
| NFaucetFailed (e : Error).

(** An event of the settlement service, a call of a route to a
    collaborator, or a console line of [server.js]. *)
Inductive Entry :=
| Engine (ev : Event)
| Asked (q : Query)
| Printed (n : Notice).

(** *** The monad of the route handlers *)

(** The collaborators [server.js] reaches besides those of the service:
    the [vote] method of the contract, the relayer wallet, the [GasModel]
    collection (its schema is in [./model]), and the database connection
    of the queries and of [UserVote]'s [save()]. *)
Class Relayer (L : Type) := {
  vote_estimateGas : string -> Z -> bool -> Z -> L -> outcome Z * L;
  contract_vote : string -> Z -> bool -> Z -> Z -> L -> outcome Tx * L;
  wallet_sendTransaction : string -> Z -> L -> outcome Tx * L;
  GasModel_findOne : string -> L -> outcome bool * L;
  GasModel_save : string -> L -> outcome unit * L;
  (** a query or a [save()] fails for a reason other than validation and
      the unique index *)
  store_fault : L -> option Error * L
}.

(** The process: the settlement service with its collaborators and the
    [SettlementRecord] collection, and the [UserVote] collection. *)
Record Backend (L : Type) := {
  service : State L;
  userVotes : list UserVote
}.
Arguments service {L} b.
Arguments userVotes {L} b.

Record Reply (L A : Type) := {
  answer : outcome A;
  after : Backend L;
  said : list Entry
}.
Arguments answer {L A} r.
Arguments after {L A} r.
Arguments said {L A} r.

Definition Handler (L A : Type) : Type := Backend L -> Reply L A.

Definition pure {L A} (a : A) : Handler L A :=
  fun b => {| answer := Returned a; after := b; said := [] |}.

Definition raise {L A} (e : Error) : Handler L A :=
  fun b => {| answer := Thrown e; after := b; said := [] |}.

Definition and_then {L A B} (m : Handler L A) (k : A -> Handler L B) : Handler L B :=
  fun b =>
    let r := m b in
    match answer r with
    | Returned a =>
        let r' := k a (after r) in
        {| answer := answer r'; after := after r'; said := said r ++ said r' |}
    | Thrown e => {| answer := Thrown e; after := after r; said := said r |}
    end.

(** [try { m } catch (error) { h error }] *)
Definition attempt {L A} (m : Handler L A) (h : Error -> Handler L A) : Handler L A :=
  fun b =>
    let r := m b in
    match answer r with
    | Returned a => r
    | Thrown e =>
        let r' := h e (after r) in
        {| answer := answer r'; after := after r'; said := said r ++ said r' |}
    end.

Definition print {L} (n : Notice) : Handler L unit :=
  fun b => {| answer := Returned tt; after := b; said := [Printed n] |}.

(** A call of a route to a collaborator. *)
Definition ask {L A} (q : Query) (f : L -> outcome A * L) : Handler L A :=
  fun b =>
    {| answer := fst (f (chain (service b)));
       after := {| service := {| chain := snd (f (chain (service b)));
                                 docs := docs (service b) |};
                   userVotes := userVotes b |};
       said := [Asked q] |}.

(** A method of the settlement service, awaited by a route. *)
Definition await {L A} (m : M L A) : Handler L A :=
  fun b =>
    {| answer := result (m (service b));
       after := {| service := post (m (service b)); userVotes := userVotes b |};
       said := map Engine (trace (m (service b))) |}.

Definition respond {L} (c : Z) (j : Json) : Handler L Response :=
  pure {| code := c; json := j |}.

Declare Scope http_scope.
Delimit Scope http_scope with http.
Notation "x <- m ;; k" := (and_then m (fun x => k))
  (at level 61, m at next level, right associativity) : http_scope.
Notation "m ;; k" := (and_then m (fun _ => k))
  (at level 61, right associativity) : http_scope.

Section Routes.
Context {L : Type} `{Collaborators L} `{Relayer L}.
Local Open Scope http_scope.

(** A round trip to the database: it fails when the connection does. *)
Definition reach (q : Query) : Handler L unit :=
  fun b =>
    {| answer := match fst (store_fault (chain (service b))) with
                 | Some e => Thrown e
                 | None => Returned tt
                 end;
       after := {| service := {| chain := snd (store_fault (chain (service b)));
                                 docs := docs (service b) |};
                   userVotes := userVotes b |};
       said := [Asked q] |}.

(** [UserVote.findOne({ userAddress, marketId })] *)
Definition UserVote_findOne (u : string) (i : Z) : Handler L (option UserVote) :=
  reach (QFindVote u i) ;;
  fun b => pure (find (voted u i) (userVotes b)) b.

(** [new UserVote({ userAddress, marketId, vote, transactionHash })]
    followed by [save()]: [votedAt] takes its default, [Date.now];
    [save()] validates [vote] against the enum, and the insert is refused
    when the connection fails or when the pair [(userAddress, marketId)],
    under the unique index, is taken. *)
Definition UserVote_save (u : string) (i : Z) (v : string)
    (h : option string) : Handler L unit :=
  t <- await now_ms ;;
  match Side_of v with
  | None =>
      fun b => {| answer := Thrown (vote_not_in_enum v); after := b;
                  said := [Asked (QSaveVote u i)] |}
  | Some side =>
      reach (QSaveVote u i) ;;
      fun b =>
        if existsb (voted u i) (userVotes b)
        then raise E11000_vote b
        else pure tt {| service := service b;
                        userVotes := userVotes b ++
                          [{| userAddress := u; uv_marketId := i;
                              uv_vote := side;
                              stakeAmount := default_stakeAmount;
                              transactionHash := h; votedAt := t |}] |}
  end.

(** [POST /api/user-vote] (lines 77-105) *)
Definition post_user_vote (body : VoteBody) : Handler L Response :=
  match vb_userAddress body, vb_marketId body, vb_vote body with
  | Some userAddress, Some marketId, Some vote =>
      if String.eqb userAddress "" || String.eqb vote ""
      then respond 400 (JMessage "Missing required parameters")
      else
        attempt
          (existingVote <- UserVote_findOne userAddress marketId ;;
           match existingVote with
           | Some _ =>
               respond 400 (JMessage "User already voted on this market")
           | None =>
               UserVote_save userAddress marketId vote
                 (vb_transactionHash body) ;;
               respond 200 (JMessage "Vote recorded successfully")
           end)
          (fun error =>
             print (NRecordVoteFailed error) ;;
             respond 500 (JFailure "Failed to record vote" (message error)))
  | _, _, _ => respond 400 (JMessage "Missing required parameters")
  end.

(** [POST /api/relay] (lines 211-253) *)
Definition post_relay (body : RelayBody) : Handler L Response :=
  match rb_userAddress body, rb_marketId body, rb_voteYes body with
  | Some userAddress, Some marketId, Some voteYes =>
      if String.eqb userAddress ""
      then respond 400 (JMessage "Missing required parameters")
      else
        attempt
          (gasLimit <- ask (QEstimateVote userAddress marketId voteYes voteCost)
                         (vote_estimateGas userAddress marketId voteYes voteCost) ;;
           txResponse <- ask (QVote userAddress marketId voteYes voteCost gasLimit)
                           (contract_vote userAddress marketId voteYes voteCost
                              gasLimit) ;;
           print (NVoteSent (hash txResponse)) ;;
           UserVote_save userAddress marketId
             (if voteYes then "funny" else "lame")%string
             (Some (hash txResponse)) ;;
           respond 200 (JRelayed "Vote relayed successfully" (hash txResponse)))
          (fun error =>
             print (NRelayFailed error) ;;
             respond 500 (JFailure "Failed to relay vote" (message error)))
  | _, _, _ => respond 400 (JMessage "Missing required parameters")
  end.

(** [SettlementRecord.findOne({ marketId: id })] *)
Definition SettlementRecord_findOne (id : Z) : Handler L (option SettlementRecord) :=
  reach (QFindSettlement id) ;;
  fun b => pure (find (fun d => marketId d =? id) (docs (service b))) b.

(** [SettlementRecord.find({ "participants.address": address })
    .sort({ settledAt: -1 })] *)
Definition SettlementRecord_find (addr : string) : Handler L (list SettlementRecord) :=
  reach (QFindSettlements addr) ;;
  fun b => pure (user_settlements addr (docs (service b))) b.

(** [GET /api/settlement/:marketId] (lines 160-174); [id] is what
    [parseInt(marketId)] evaluates to, an integer (a parameter that
    starts with no digit is not covered). *)
Definition get_settlement (id : Z) : Handler L Response :=
  attempt
    (settlement <- SettlementRecord_findOne id ;;
     match settlement with
     | None => respond 404 (JMessage "Settlement not found")
     | Some d => respond 200 (JRecord d)
     end)
    (fun error =>
       print (NSettlementFailed error) ;;
       respond 500 (JMessage (message error))).

(** [POST /api/manual-settle/:marketId] (lines 177-193); [marketId] is
    the parameter as text and [id] the integer [parseInt] makes of it. *)
Definition post_manual_settle (marketId : string) (id : Z) : Handler L Response :=
  attempt
    (print (NManualRequested marketId) ;;
     success <- await (manualSettle id) ;;
     if success : bool
     then respond 200 (JMessage ("Market " ++ marketId ++ " settled successfully"))
     else respond 400 (JMessage ("Failed to settle market " ++ marketId)))
    (fun error =>
       print (NManualFailed error) ;;
       respond 500 (JFailure "Settlement failed" (message error))).

(** [GET /api/settlement-status/:marketId] (lines 196-206) *)
Definition get_settlement_status (id : Z) : Handler L Response :=
  attempt
    (status <- await (getSettlementStatus id) ;;
     respond 200 (JStatus status))
    (fun error =>
       print (NStatusFailed error) ;;
       respond 500 (JMessage (message error))).

(** [GET /api/faucet/:address] (lines 321-346); [GasModel.findOne]
    resolves to a document or to [null], and only that is looked at. *)
Definition get_faucet (addr : string) : Handler L Response :=
  attempt
    (gas <- ask (QFindGas addr) (GasModel_findOne addr) ;;
     if negb gas
     then
       tx <- ask (QSend addr faucetAmount)
               (wallet_sendTransaction addr faucetAmount) ;;
       ask (QWait (hash tx)) (tx_wait tx) ;;
       ask (QSaveGas addr) (GasModel_save addr) ;;
       respond 200 (JMessage "Sent tokens")
     else respond 200 (JMessage "Already given some testnet tokens"))
    (fun error =>
       print (NFaucetFailed error) ;;
       respond 500 (JMessage (message error))).

(** [GET /api/user-settlements/:address] (lines 121-157) follows. *)

(** [BigInt(text)]: the integer the text spells, or a [SyntaxError]. *)
Variable BigInt : string -> outcome Z.

(** Reading a property of [undefined]. *)
Definition TypeError_undefined (property : string) : Error :=
  {| message := "Cannot read properties of undefined (reading '"
                ++ property ++ "')" |}.

(** The callback of [settlements.map] (lines 131-150). *)
Definition userSettlementOf (addr : string) (settlement : SettlementRecord)
  : outcome UserSettlement :=
  match find (fun p => String.eqb (address p) addr) (participants settlement) with
  | None => Thrown (TypeError_undefined "vote")
  | Some userParticipation =>
      match
        (if won userParticipation
         then match BigInt (payout userParticipation) with
              | Thrown e => Thrown e
              | Returned p =>
                  match BigInt (staked userParticipation) with
                  | Thrown e => Thrown e
                  | Returned s => Returned (p - s)
                  end
              end
         else match BigInt (staked userParticipation) with
              | Thrown e => Thrown e
              | Returned s => Returned (- s)
              end)
      with
      | Thrown e => Thrown e
      | Returned net =>
          Returned {| us_marketId := marketId settlement;
                      us_winnerSide := winnerSide settlement;
                      userVote := vote userParticipation;
                      userWon := won userParticipation;
                      userStake := staked userParticipation;
                      userPayout := payout userParticipation;
                      netResult := net;
                      us_totalVotes := totalVotes settlement;
                      us_yesVotes := rec_yesVotes settlement;
                      us_noVotes := rec_noVotes settlement;
                      us_settlementTx := settlementTx settlement;
                      us_settledAt := settledAt settlement |}
      end
  end.

(** [array.map(f)], for a callback that may throw. *)
Fixpoint map_each {A B} (f : A -> outcome B) (l : list A) : outcome (list B) :=
  match l with
  | [] => Returned []
  | a :: rest =>
      match f a with
      | Thrown e => Thrown e
      | Returned b =>
          match map_each f rest with
          | Thrown e => Thrown e
          | Returned bs => Returned (b :: bs)
          end
      end
  end.

Definition get_user_settlements (addr : string) : Handler L Response :=
  attempt
    (settlements <- SettlementRecord_find addr ;;
     match map_each (userSettlementOf addr) settlements with
     | Thrown e => raise e
     | Returned userSettlements =>
         respond 200 (JUserSettlements userSettlements)
     end)
    (fun error =>
       print (NUserSettlementsFailed error) ;;
       respond 500 (JMessage (message error))).

End Routes.

(** *** Vocabulary of the routes *)

(** A field that is [undefined] or the empty string. *)
Definition absent_or_empty (x : option string) : Prop :=
  x = None \/ x = Some ""%string.

(** The connection to the database is up in [c]. *)
Definition store_up {L} `{Relayer L} (c : L) : Prop :=
  fst (store_fault c) = None.

(** The entry [e] reports settlement [d] for its participant [p]. *)
Definition describes (BigInt : string -> outcome Z) (d : SettlementRecord)
    (p : Participant) (e : UserSettlement) : Prop :=
  us_marketId e = marketId d /\ us_winnerSide e = winnerSide d /\
  userVote e = vote p /\ userWon e = won p /\
  userStake e = staked p /\ userPayout e = payout p /\
  us_settlementTx e = settlementTx d /\
  exists s, BigInt (staked p) = Returned s /\
            if won p
            then exists q, BigInt (payout p) = Returned q /\ netResult e = q - s
            else netResult e = - s.

(** The reply of [m] from [b] satisfies [Q]: its outcome, the process
    afterwards and what was emitted. *)
Definition replies {L A} (m : Handler L A) (b : Backend L)
    (Q : outcome A -> Backend L -> list Entry -> Prop) : Prop :=
  Q (answer (m b)) (after (m b)) (said (m b)).

(** *** A run of requests *)

(** What the process is asked to do, one thing after the other: a
    request to one of the routes, or a scheduled scan. *)
Inductive Request :=
| ManualSettle (marketId : string) (id : Z)
| SettlementStatus (id : Z)
| GetSettlement (id : Z)
| GetUserSettlements (address : string)
| PostUserVote (body : VoteBody)
| PostRelay (body : RelayBody)
| Faucet (address : string)
| ScheduledScan.

(** Whether a request may write to the [SettlementRecord] collection,
    and to the [UserVote] collection. *)
Definition settles (r : Request) : bool :=
  match r with
  | ManualSettle _ _ | ScheduledScan => true
  | _ => false
  end.

Definition votes (r : Request) : bool :=
  match r with
  | PostUserVote _ | PostRelay _ => true
  | _ => false
  end.

(** The unique index on [(userAddress, marketId)]. *)
Definition unique_votes (vs : list UserVote) : Prop :=
  NoDup (map (fun v => (userAddress v, uv_marketId v)) vs).

Section Serving.
Context {L : Type} `{Collaborators L} `{Relayer L}.
Variable BigInt : string -> outcome Z.

(** The process after it served [r]. *)
Definition served (b : Backend L) (r : Request) : Backend L :=
  match r with
  | ManualSettle marketId id => after (post_manual_settle marketId id b)
  | SettlementStatus id => after (get_settlement_status id b)
  | GetSettlement id => after (get_settlement id b)
  | GetUserSettlements addr => after (get_user_settlements BigInt addr b)
  | PostUserVote body => after (post_user_vote body b)
  | PostRelay body => after (post_relay body b)
  | Faucet addr => after (get_faucet addr b)
  | ScheduledScan => after (await checkAndSettleMarkets b)
  end.

Definition serve (rs : list Request) (b : Backend L) : Backend L :=
  fold_left served rs b.

End Serving.

(** A handler that leaves the two collections as they are, or appends
    engine-written records to the first, or appends one vote on a pair
    not yet taken to the second. *)
Definition appends {L} (b b' : Backend L) : Prop :=
  grows (docs (service b)) (docs (service b')) /\
  exists added,
    userVotes b' = userVotes b ++ added /\
    (unique_votes (userVotes b) -> unique_votes (userVotes b')).

Section Appending.
Context {L : Type} `{Collaborators L} `{Relayer L}.

(** A handler only appends; it leaves the records, or the votes, as
    they are. *)
Definition stores {A} (m : Handler L A) : Prop :=
  forall b, appends b (after (m b)).

Definition keeps_records {A} (m : Handler L A) : Prop :=
  forall b, docs (service (after (m b))) = docs (service b).

Definition keeps_votes {A} (m : Handler L A) : Prop :=
  forall b, userVotes (after (m b)) = userVotes b.

End Appending.

(** ** A process for examples

    The reference ledger behind the whole server. *)
Module Sample.

(** A ledger on which no market was created yet. *)
Definition no_markets : Ref.Ledger :=
  {| Ref.markets := []; Ref.clock := 2000000; Ref.height := 41;
     Ref.dbDown := false; Ref.reverting := [] |}.

(** The collaborators of the whole process: the reference ledger, and the
    addresses the faucet has on record. *)
Record Node := {
  ledger : Ref.Ledger;
  funded : list string
}.

(** A collaborator of the service, on the ledger of the node. *)
Definition on_ledger {A} (f : Ref.Ledger -> A * Ref.Ledger) (n : Node) : A * Node :=
  (fst (f (ledger n)), {| ledger := snd (f (ledger n)); funded := funded n |}).

#[global] Instance node : Collaborators Node := {|
  contract_marketCount := on_ledger contract_marketCount;
  contract_getMarket i := on_ledger (contract_getMarket i);
  contract_estimateGas i := on_ledger (contract_estimateGas i);
  contract_releaseRewards i gasLimit := on_ledger (contract_releaseRewards i gasLimit);
  tx_wait tx := on_ledger (tx_wait tx);
  Date_now := on_ledger Date_now;
  db_fault r := on_ledger (db_fault r)
|}.

(** The contract takes every vote, the wallet sends every transfer, and
    the database of the routes is the one of the service. *)
#[global] Instance relayer : Relayer Node := {|
  vote_estimateGas u i yes value n := (Returned 90000, n);
  contract_vote u i yes value gasLimit n := (Returned {| hash := "0xb0a7ed" |}, n);
  wallet_sendTransaction dest value n := (Returned {| hash := "0xfa0ce7" |}, n);
  GasModel_findOne a n := (Returned (existsb (String.eqb a) (funded n)), n);
  GasModel_save a n :=
    (Returned tt, {| ledger := ledger n; funded := a :: funded n |});
  store_fault n :=
    (if Ref.dbDown (ledger n) then Some {| message := "connection lost" |}
     else None, n)
|}.

(** The process over the four markets, nothing stored yet. *)
Definition backend : Backend Node :=
  {| service := {| chain := {| ledger := Ref.four_markets; funded := [] |};
                   docs := [] |};
     userVotes := [] |}.

Definition alice : string := "0xa11ce00000000000000000000000000000000001".

(** Alice's vote on market 1, as [POST /api/user-vote] stores it. *)
Definition alices_vote : UserVote :=
  {| userAddress := alice; uv_marketId := 1; uv_vote := funny;
     stakeAmount := default_stakeAmount; transactionHash := Some "0xb0a7ed"%string;
     votedAt := 2000000 |}.

(** The process with Alice's vote on market 1 stored. *)
Definition backend_voted : Backend Node :=
  {| service := service backend; userVotes := [alices_vote] |}.

(** A settlement of market 7 that lists Alice as a winner. *)
Definition with_alice : SettlementRecord :=
  {| marketId := 7; templateCreator := "0x1234567890abcdef1234567890abcdef12345678";
     rec_endTime := JS.Number 1000000; totalVotes := JS.Number 5;
     rec_yesVotes := JS.Number 3; rec_noVotes := JS.Number 2;
     rec_totalStaked := 500000000000000; winnerSide := funny;
     creatorReward := JS.Number 25000000000000;
     voterRewards := JS.Number 475000000000000;
     settlementTx := "0x5e771e"; rec_blockNumber := 42; rec_gasUsed := 83000;
     settledAt := JS.Number 2000000;
     participants := [{| address := alice; vote := funny;
                         staked := "100000000000000";
                         payout := "158333333333333"; won := true |}] |}.

Definition backend_settled : Backend Node :=
  {| service := {| chain := chain (service backend); docs := [with_alice] |};
     userVotes := [] |}.

(** A reader of decimal texts, for the examples. *)
Fixpoint decimal_digits (s : string) (acc : Z) : option Z :=
  match s with
  | EmptyString => Some acc
  | String c rest =>
      let n := Z.of_nat (nat_of_ascii c) - 48 in
      if (0 <=? n) && (n <=? 9) then decimal_digits rest (10 * acc + n)
      else None
  end.

Definition decimal (s : string) : outcome Z :=
  match decimal_digits s 0 with
  | Some z => Returned z
  | None => Thrown {| message := ("Cannot convert " ++ s ++ " to a BigInt")%string |}
  end.

End Sample.


(** * Facts *)

(** ** JavaScript numbers *)

Module JSFacts.

(** [0.05] is the double nearest to 5/100. *)
Example lit_0_05_is_5_over_100 :
  JS.div (JS.Number 5) (JS.Number 100) = JS.lit_0_05.
Proof. vm_compute. reflexivity. Qed.

Example Number_rounds_2p53_plus_1 :
  JS.Number (JS.two53 + 1) = JS.Number JS.two53.
Proof. vm_compute. reflexivity. Qed.

Lemma gt_zero_not_le_zero (x : JS.number) :
  JS.gt x JS.zero = true -> JS.le x JS.zero = false.
Proof.
  destruct x as [s|s| |s m e]; try destruct s; cbn; congruence.
Qed.

Lemma gt_irrefl (x : JS.number) : JS.gt x x = false.
Proof.
  unfold JS.gt, SFltb.
  destruct x as [s|s| |s m e]; try destruct s; cbn; try reflexivity.
  - rewrite Z.compare_refl, Pos.compare_cont_refl. reflexivity.
  - rewrite Z.compare_refl, Pos.compare_cont_refl. reflexivity.
Qed.

(** [digits2_pos] is the binary size. *)
Lemma digits2_pos_size (p : positive) : digits2_pos p = Pos.size p.
Proof. induction p; cbn; congruence. Qed.

Lemma iter_xO_mul (p : positive) (k : positive) :
  Pos.iter xO p k = (p * 2 ^ k)%positive.
Proof.
  induction k as [|k IH] using Pos.peano_ind.
  - cbn. lia.
  - rewrite Pos.iter_succ, IH, Pos.pow_succ_r. lia.
Qed.

Lemma size_iter_xO (p : positive) (k : positive) :
  Pos.size (Pos.iter xO p k) = (Pos.size p + k)%positive.
Proof.
  induction k as [|k IH] using Pos.peano_ind.
  - cbn. lia.
  - rewrite Pos.iter_succ. cbn. rewrite IH. lia.
Qed.

Lemma size_bounds (p : positive) :
  (2 ^ (Zpos (Pos.size p) - 1) <= Zpos p < 2 ^ Zpos (Pos.size p))%Z.
Proof.
  pose proof (Pos.size_gt p) as Hg. pose proof (Pos.size_le p) as Hl.
  apply Pos2Z.pos_lt_pos in Hg. apply Pos2Z.pos_le_pos in Hl.
  rewrite Pos2Z.inj_pow in Hg, Hl.
  replace (Zpos (Pos.size p)) with (Z.succ (Zpos (Pos.size p) - 1))%Z in Hl at 1 by lia.
  rewrite Z.pow_succ_r in Hl by lia.
  change (Zpos p~0) with (2 * Zpos p)%Z in Hl.
  split; [lia|exact Hg].
Qed.

Lemma size_bound (p : positive) :
  (Zpos p < JS.two53)%Z -> (Zpos (Pos.size p) <= 53)%Z.
Proof.
  intros Hp. pose proof (size_bounds p) as [Hlo _].
  destruct (Z.le_gt_cases (Zpos (Pos.size p)) 53) as [Hle|Hgt]; [exact Hle|].
  exfalso.
  assert (H53 : (2 ^ 53 <= 2 ^ (Zpos (Pos.size p) - 1))%Z)
    by (apply Z.pow_le_mono_r; lia).
  change (2 ^ 53)%Z with JS.two53 in H53. lia.
Qed.

Lemma size_lt_lt (p q : positive) :
  (Pos.size p < Pos.size q)%positive -> (p < q)%positive.
Proof.
  intros H. pose proof (size_bounds p) as Hp. pose proof (size_bounds q) as Hq.
  assert (2 ^ Zpos (Pos.size p) <= 2 ^ (Zpos (Pos.size q) - 1))%Z
    by (apply Z.pow_le_mono_r; lia).
  lia.
Qed.

(** [scale] multiplies by a power of two. *)
Lemma scale_Z (p : positive) (k : Z) :
  (0 <= k)%Z -> Zpos (JS.scale p k) = (Zpos p * 2 ^ k)%Z.
Proof.
  intros Hk. destruct k as [|n|n]; [cbn; lia| |lia].
  cbn [JS.scale]. rewrite iter_xO_mul, Pos2Z.inj_mul, Pos2Z.inj_pow.
  reflexivity.
Qed.

Lemma size_scale (p : positive) (k : Z) :
  (0 <= k)%Z -> Zpos (Pos.size (JS.scale p k)) = (Zpos (Pos.size p) + k)%Z.
Proof.
  intros Hk. destruct k as [|n|n]; [cbn [JS.scale]; lia| |lia].
  cbn [JS.scale]. rewrite size_iter_xO. lia.
Qed.

Lemma scale_scale (p : positive) (j k : Z) :
  (0 <= j)%Z -> (0 <= k)%Z -> JS.scale (JS.scale p j) k = JS.scale p (j + k).
Proof.
  intros Hj Hk. apply Pos2Z.inj.
  rewrite !scale_Z, Z.pow_add_r by lia. lia.
Qed.

Lemma shift_of_53_digits (m : positive) (e : Z) :
  Zpos (Pos.size m) = 53 -> (-1074 <= e)%Z ->
  (fexp JS.prec JS.emax (Zdigits2 (Zpos m) + e) - e = 0)%Z.
Proof.
  intros Hm He. unfold fexp, emin, Zdigits2, JS.prec, JS.emax.
  rewrite digits2_pos_size, Hm.
  change (IntDef.Z.max ?a ?b) with (Z.max a b).
  lia.
Qed.

(** A mantissa of 53 digits with an exponent in range is kept as it is. *)
Lemma round_53_digits (s : bool) (m : positive) (e : Z) :
  Zpos (Pos.size m) = 53 -> (-1074 <= e <= 971)%Z ->
  binary_round_aux JS.prec JS.emax s (Zpos m) e loc_Exact
  = S754_finite s m e.
Proof.
  intros Hm He. unfold binary_round_aux, shr_fexp.
  rewrite (shift_of_53_digits m e Hm) by lia.
  unfold shr, shr_record_of_loc, loc_of_shr_record, shr_m, round_nearest_even.
  rewrite (shift_of_53_digits m e Hm) by lia.
  replace (e <=? JS.emax - JS.prec)%Z with true; [reflexivity|].
  symmetry. apply Z.leb_le. unfold JS.emax, JS.prec. lia.
Qed.

Lemma iter_pos_nat {A} (f : A -> A) (n : positive) : forall x : A,
  iter_pos f n x = Nat.iter (Pos.to_nat n) f x.
Proof.
  induction n as [n IH|n IH|]; intros x; cbn [iter_pos].
  - rewrite !IH, Pos2Nat.inj_xI.
    replace (S (2 * Pos.to_nat n)) with (S (Pos.to_nat n + Pos.to_nat n)) by lia.
    rewrite Nat.iter_succ_r, Nat.iter_add. reflexivity.
  - rewrite !IH, Pos2Nat.inj_xO.
    replace (2 * Pos.to_nat n)%nat with (Pos.to_nat n + Pos.to_nat n)%nat by lia.
    rewrite Nat.iter_add. reflexivity.
  - reflexivity.
Qed.

Lemma iter_shr_1_exact_nat (k : nat) (m : positive) :
  Nat.iter k shr_1
    {| shr_m := Zpos (Nat.iter k xO m); shr_r := false; shr_s := false |}
  = {| shr_m := Zpos m; shr_r := false; shr_s := false |}.
Proof.
  induction k as [|k IH]; [reflexivity|].
  rewrite Nat.iter_succ_r. cbn [Nat.iter shr_1 orb]. exact IH.
Qed.

(** Shifting out [n] zero digits loses nothing. *)
Lemma shr_exact (n : positive) (m : positive) :
  iter_pos shr_1 n
    {| shr_m := Zpos (Pos.iter xO m n); shr_r := false; shr_s := false |}
  = {| shr_m := Zpos m; shr_r := false; shr_s := false |}.
Proof.
  rewrite iter_pos_nat, Pos2Nat.inj_iter. apply iter_shr_1_exact_nat.
Qed.

(** Rounding [c * 2^K * 2^-K], with [c] of at most 53 digits, gives the
    double of [c]. *)
Lemma round_scaled (s : bool) (c : positive) (K : Z) :
  (0 <= K <= 1000)%Z -> (Zpos (Pos.size c) <= 53)%Z ->
  binary_round JS.prec JS.emax s (JS.scale c K) (- K) = JS.canon s c.
Proof.
  intros HK Hc. unfold binary_round, JS.canon. cbv zeta.
  rewrite digits2_pos_size, size_scale by lia.
  assert (Hf : fexp JS.prec JS.emax (Zpos (Pos.size c) + K + - K)
               = (Zpos (Pos.size c) - 53)%Z).
  { unfold fexp, emin, JS.prec, JS.emax. lia. }
  rewrite Hf. unfold shl_align.
  pose proof (Pos2Z.is_pos (Pos.size c)) as Hpos.
  destruct (Zpos (Pos.size c) - 53 - - K)%Z as [|n|j] eqn:Ed.
  - (* the mantissa has 53 digits *)
    replace (53 - Zpos (Pos.size c))%Z with K by lia.
    apply round_53_digits; [rewrite size_scale|]; lia.
  - (* more than 53 digits: [n] zero digits are shifted out *)
    unfold binary_round_aux, shr_fexp.
    assert (Hn : (fexp JS.prec JS.emax (Zdigits2 (Zpos (JS.scale c K)) + - K) - - K
                  = Zpos n)%Z).
    { unfold Zdigits2. rewrite digits2_pos_size, size_scale by lia.
      unfold fexp, emin, JS.prec, JS.emax. lia. }
    rewrite Hn. unfold shr, shr_record_of_loc.
    replace (JS.scale c K) with (Pos.iter xO (JS.scale c (K - Zpos n)) n).
    2:{ change (Pos.iter xO ?x n) with (JS.scale x (Zpos n)).
        rewrite scale_scale by lia. f_equal. lia. }
    rewrite shr_exact.
    cbn [shr_m loc_of_shr_record round_nearest_even].
    assert (H0 : (fexp JS.prec JS.emax
                    (Zdigits2 (Zpos (JS.scale c (K - Zpos n))) + (- K + Zpos n))
                  - (- K + Zpos n) = 0)%Z).
    { unfold Zdigits2. rewrite digits2_pos_size, size_scale by lia.
      unfold fexp, emin, JS.prec, JS.emax. lia. }
    rewrite H0. cbn [shr_m].
    replace (- K + Zpos n <=? JS.emax - JS.prec)%Z with true.
    2:{ symmetry. apply Z.leb_le. unfold JS.emax, JS.prec. lia. }
    f_equal; [f_equal|]; lia.
  - (* fewer than 53 digits: the mantissa is shifted up *)
    change (Pos.iter xO ?x j) with (JS.scale x (Zpos j)).
    rewrite scale_scale by lia.
    replace (K + Zpos j)%Z with (53 - Zpos (Pos.size c))%Z by lia.
    replace (Zpos (Pos.size c) - 53)%Z with (- (53 - Zpos (Pos.size c)))%Z by lia.
    apply round_53_digits; [rewrite size_scale|]; lia.
Qed.

(** The double of an integer below [2^53] in magnitude. *)
Lemma Number_pos (p : positive) :
  (Zpos p < JS.two53)%Z -> JS.Number (Zpos p) = JS.canon false p.
Proof.
  intros Hp. apply (round_scaled false p 0); [lia|apply size_bound, Hp].
Qed.

Lemma Number_neg (p : positive) :
  (Zpos p < JS.two53)%Z -> JS.Number (Zneg p) = JS.canon true p.
Proof.
  intros Hp. apply (round_scaled true p 0); [lia|apply size_bound, Hp].
Qed.

Lemma Number_zero : JS.Number 0 = JS.zero.
Proof. reflexivity. Qed.

(** Doubles of integers below [2^53] compare as the integers do. *)
Lemma compare_canon (p q : positive) :
  (Zpos p < JS.two53)%Z -> (Zpos q < JS.two53)%Z ->
  SFcompare (JS.canon false p) (JS.canon false q) = Some (Pos.compare p q).
Proof.
  intros Hp Hq.
  pose proof (size_bound p Hp) as Hdp. pose proof (size_bound q Hq) as Hdq.
  unfold JS.canon. cbv zeta. cbn [SFcompare]. f_equal.
  destruct (Z.compare_spec (- (53 - Zpos (Pos.size p))) (- (53 - Zpos (Pos.size q))))
    as [He|He|He].
  - assert (Hs : Pos.size p = Pos.size q) by lia. rewrite Hs.
    change (Pos.compare_cont Eq ?x ?y) with (Pos.compare x y).
    rewrite !Pos2Z.inj_compare, !scale_Z by lia.
    assert (H2 : (0 < 2 ^ (53 - Zpos (Pos.size q)))%Z)
      by (apply Z.pow_pos_nonneg; lia).
    destruct (Z.compare_spec (Zpos p) (Zpos q)) as [H1|H1|H1];
      [apply Z.compare_eq_iff|apply Z.compare_lt_iff|apply Z.compare_gt_iff];
      nia.
  - symmetry. apply Pos.compare_lt_iff, size_lt_lt. lia.
  - symmetry. apply Pos.compare_gt_iff, size_lt_lt. lia.
Qed.

(** [Number(a) > Number(b)] is [a > b] on the safe integers. *)
Lemma gt_Number (a b : Z) :
  (0 <= a < JS.two53)%Z -> (0 <= b < JS.two53)%Z ->
  JS.gt (JS.Number a) (JS.Number b) = (b <? a)%Z.
Proof.
  intros Ha Hb. unfold JS.gt, SFltb.
  destruct a as [|p|p]; destruct b as [|q|q]; try lia.
  - reflexivity.
  - rewrite Number_zero, (Number_pos q) by lia. reflexivity.
  - rewrite Number_zero, (Number_pos p) by lia. reflexivity.
  - rewrite (Number_pos p), (Number_pos q) by lia.
    rewrite compare_canon by lia.
    unfold Z.ltb. cbn [Z.compare]. reflexivity.
Qed.

(** The integer a double of an integer denotes. *)
Lemma toInteger_canon (s : bool) (p : positive) :
  (Zpos p < JS.two53)%Z ->
  JS.toInteger (JS.canon s p) = Some (cond_Zopp s (Zpos p)).
Proof.
  intros Hp. pose proof (size_bound p Hp) as Hd.
  unfold JS.canon, JS.toInteger. cbv zeta.
  set (k := (53 - Zpos (Pos.size p))%Z).
  assert (Hk : (0 <= k)%Z) by (unfold k; lia).
  rewrite scale_Z by exact Hk.
  destruct (0 <=? - k)%Z eqn:E.
  - apply Z.leb_le in E. replace k with 0%Z by lia.
    cbn [Z.opp]. rewrite !Z.pow_0_r, !Z.mul_1_r. reflexivity.
  - rewrite Z.opp_involutive, Z.mod_mul by (apply Z.pow_nonzero; lia).
    cbn [Z.eqb]. rewrite Z.div_mul by (apply Z.pow_nonzero; lia).
    reflexivity.
Qed.

Lemma toInteger_Number (z : Z) :
  (- JS.two53 < z < JS.two53)%Z -> JS.toInteger (JS.Number z) = Some z.
Proof.
  intros Hz. destruct z as [|p|p].
  - reflexivity.
  - rewrite Number_pos, toInteger_canon by lia. reflexivity.
  - rewrite Number_neg, toInteger_canon by lia. reflexivity.
Qed.

Lemma le_Number_zero (z : Z) :
  (- JS.two53 < z < JS.two53)%Z -> JS.le (JS.Number z) JS.zero = (z <=? 0)%Z.
Proof.
  intros Hz. destruct z as [|p|p].
  - reflexivity.
  - rewrite Number_pos by lia. reflexivity.
  - rewrite Number_neg by lia. reflexivity.
Qed.

Lemma gt_Number_zero (z : Z) :
  (- JS.two53 < z < JS.two53)%Z -> JS.gt (JS.Number z) JS.zero = (0 <? z)%Z.
Proof.
  intros Hz. destruct z as [|p|p].
  - reflexivity.
  - rewrite Number_pos by lia. reflexivity.
  - rewrite Number_neg by lia. reflexivity.
Qed.

(** The aligned mantissa of [SFsub]. *)
Lemma shl_align_scale (m : positive) (e e' : Z) :
  (e' <= e)%Z -> fst (shl_align m e e') = JS.scale m (e - e').
Proof.
  intros He. unfold shl_align.
  destruct (e' - e)%Z as [|d|d] eqn:Ed; try lia.
  - replace (e - e')%Z with 0%Z by lia. reflexivity.
  - replace (e - e')%Z with (Zpos d) by lia. reflexivity.
Qed.

(** The difference of two doubles of safe integers is the double of the
    difference. *)
Lemma sub_Number (a b : Z) :
  (0 <= a < JS.two53)%Z -> (0 <= b < JS.two53)%Z ->
  JS.sub (JS.Number a) (JS.Number b) = JS.Number (a - b).
Proof.
  intros Ha Hb.
  destruct a as [|p|p]; destruct b as [|q|q]; try lia.
  - reflexivity.
  - rewrite Number_zero, (Number_pos q) by lia.
    change (0 - Zpos q)%Z with (Zneg q). rewrite Number_neg by lia.
    reflexivity.
  - rewrite Z.sub_0_r, Number_zero, (Number_pos p) by lia. reflexivity.
  - rewrite (Number_pos p), (Number_pos q) by lia.
    pose proof (size_bound p ltac:(lia)) as Hdp.
    pose proof (size_bound q ltac:(lia)) as Hdq.
    pose proof (Pos2Z.is_pos (Pos.size p)) as Hpp.
    pose proof (Pos2Z.is_pos (Pos.size q)) as Hpq.
    unfold JS.sub, JS.canon. cbv zeta. cbn [SFsub cond_Zopp].
    set (kp := (53 - Zpos (Pos.size p))%Z).
    set (kq := (53 - Zpos (Pos.size q))%Z).
    set (K := Z.max kp kq).
    assert (HK : (0 <= K <= 52)%Z) by (unfold K, kp, kq; lia).
    replace (Z.min (- kp) (- kq)) with (- K)%Z by (unfold K; lia).
    rewrite !shl_align_scale by (unfold K; lia).
    rewrite !scale_scale by (unfold K, kp, kq; lia).
    replace (kp + (- kp - - K))%Z with K by lia.
    replace (kq + (- kq - - K))%Z with K by lia.
    rewrite !scale_Z by lia.
    rewrite <- Z.mul_sub_distr_r.
    assert (H2 : (0 < 2 ^ K)%Z) by (apply Z.pow_pos_nonneg; lia).
    destruct (Zpos p - Zpos q)%Z as [|c|c] eqn:Ec.
    + reflexivity.
    + rewrite <- scale_Z by lia. cbn [binary_normalize].
      rewrite Number_pos by lia. apply round_scaled; [lia|].
      apply size_bound. lia.
    + rewrite <- Pos2Z.opp_pos, Z.mul_opp_l.
      rewrite <- scale_Z by lia. cbn [Z.opp binary_normalize].
      rewrite Number_neg by lia. apply round_scaled; [lia|].
      apply size_bound. lia.
Qed.

(** ** [Math.floor(t / 1000)] *)

Lemma rne_bounds (m : Z) (l : location) :
  (m <= round_nearest_even m l <= m + 1)%Z.
Proof.
  destruct l as [|[| |]]; cbn [round_nearest_even]; try lia.
  destruct (Z.even m); lia.
Qed.

Lemma size_53 (q : positive) :
  (2 ^ 52 <= Zpos q < 2 ^ 53)%Z -> Zpos (Pos.size q) = 53%Z.
Proof.
  intros [Hlo Hhi]. pose proof (size_bounds q) as [Hl Hh].
  destruct (Z.lt_trichotomy (Zpos (Pos.size q)) 53) as [H|[H|H]]; [|exact H|].
  - assert (2 ^ Zpos (Pos.size q) <= 2 ^ 52)%Z by (apply Z.pow_le_mono_r; lia).
    lia.
  - assert (2 ^ 53 <= 2 ^ (Zpos (Pos.size q) - 1))%Z
      by (apply Z.pow_le_mono_r; lia).
    lia.
Qed.

Lemma size_54 (q : positive) :
  (2 ^ 53 <= Zpos q < 2 ^ 54)%Z -> Zpos (Pos.size q) = 54%Z.
Proof.
  intros [Hlo Hhi]. pose proof (size_bounds q) as [Hl Hh].
  destruct (Z.lt_trichotomy (Zpos (Pos.size q)) 54) as [H|[H|H]]; [|exact H|].
  - assert (2 ^ Zpos (Pos.size q) <= 2 ^ 53)%Z by (apply Z.pow_le_mono_r; lia).
    lia.
  - assert (2 ^ 54 <= 2 ^ (Zpos (Pos.size q) - 1))%Z
      by (apply Z.pow_le_mono_r; lia).
    lia.
Qed.

(** The last stage of [binary_round_aux], then [Math.floor]: for a
    rounded mantissa [Q] between [2^52] and [2^53] at a negative exponent
    [e], the integer part of [Q * 2^e]. *)
Lemma floor_last_stage (Q : positive) (e : Z) :
  (2 ^ 52 <= Zpos Q <= 2 ^ 53)%Z -> (-1074 <= e <= -2)%Z ->
  JS.floor
    (let '(mrs, e') := shr_fexp JS.prec JS.emax (Zpos Q) e loc_Exact in
     match shr_m mrs with
     | Z0 => S754_zero false
     | Zpos m => if (e' <=? JS.emax - JS.prec)%Z then S754_finite false m e'
                 else S754_infinity false
     | Zneg _ => S754_nan
     end)
  = JS.Number (Zpos Q / 2 ^ (- e)).
Proof.
  intros HQ He.
  destruct (Z.eq_dec (Zpos Q) (2 ^ 53)) as [Heq|Hne].
  - (* the rounding carried into a 54th digit *)
    assert (HQ' : Q = 9007199254740992%positive) by (apply Pos2Z.inj; exact Heq).
    subst Q. unfold shr_fexp.
    assert (Hs : (fexp JS.prec JS.emax
                    (Zdigits2 (Zpos 9007199254740992) + e) - e = 1)%Z).
    { change (Zdigits2 (Zpos 9007199254740992)) with 54%Z.
      unfold fexp, emin, JS.prec, JS.emax. lia. }
    rewrite Hs. unfold shr. cbn [iter_pos].
    change (shr_1 (shr_record_of_loc (Zpos 9007199254740992) loc_Exact))
      with {| shr_m := Zpos 4503599627370496; shr_r := false; shr_s := false |}.
    cbn [shr_m].
    replace (e + 1 <=? JS.emax - JS.prec)%Z with true
      by (symmetry; apply Z.leb_le; unfold JS.emax, JS.prec; lia).
    unfold JS.floor.
    replace (0 <=? e + 1)%Z with false by (symmetry; apply Z.leb_gt; lia).
    cbn [cond_Zopp]. unfold JS.Number. f_equal.
    rewrite Z.shiftr_div_pow2 by lia.
    replace (- e)%Z with (1 + - (e + 1))%Z by lia.
    rewrite Z.pow_add_r by lia.
    change (Zpos 9007199254740992) with (2 ^ 1 * Zpos 4503599627370496)%Z.
    rewrite Z.div_mul_cancel_l; [reflexivity| |lia].
    apply Z.pow_nonzero; lia.
  - assert (Hd : Zpos (Pos.size Q) = 53%Z) by (apply size_53; lia).
    unfold shr_fexp. rewrite (shift_of_53_digits Q e Hd) by lia.
    cbn [shr shr_record_of_loc shr_m].
    replace (e <=? JS.emax - JS.prec)%Z with true
      by (symmetry; apply Z.leb_le; unfold JS.emax, JS.prec; lia).
    unfold JS.floor.
    replace (0 <=? e)%Z with false by (symmetry; apply Z.leb_gt; lia).
    cbn [cond_Zopp]. unfold JS.Number. f_equal.
    apply Z.shiftr_div_pow2. lia.
Qed.

Lemma loc_of_record_of_loc (m : Z) (l : location) :
  loc_of_shr_record (shr_record_of_loc m l) = l.
Proof. destruct l as [|[| |]]; reflexivity. Qed.

Lemma shr_m_record_of_loc (m : Z) (l : location) :
  shr_m (shr_record_of_loc m l) = m.
Proof. destruct l as [|[| |]]; reflexivity. Qed.

(** Rounding a quotient of 53 digits, then [Math.floor]. *)
Lemma floor_round_53 (q : positive) (e : Z) (l : location) :
  (2 ^ 52 <= Zpos q < 2 ^ 53)%Z -> (-1074 <= e <= -2)%Z ->
  exists Q : Z,
    JS.floor (binary_round_aux JS.prec JS.emax false (Zpos q) e l)
    = JS.Number (Q / 2 ^ (- e)) /\
    (Zpos q <= Q <= Zpos q + 1)%Z.
Proof.
  intros Hq He.
  assert (Hd : Zpos (Pos.size q) = 53%Z) by (apply size_53; lia).
  unfold binary_round_aux. unfold shr_fexp at 1.
  rewrite (shift_of_53_digits q e Hd) by lia. unfold shr at 1.
  rewrite loc_of_record_of_loc, shr_m_record_of_loc.
  pose proof (rne_bounds (Zpos q) l) as Hr.
  destruct (round_nearest_even (Zpos q) l) as [|Q|Q] eqn:EQ; try lia.
  exists (Zpos Q). split; [|lia].
  apply floor_last_stage; lia.
Qed.

(** Rounding a quotient of 54 digits, then [Math.floor]: the last digit
    is shifted out first, and an even quotient is not rounded up. *)
Lemma floor_round_54 (q : positive) (e : Z) (l : location) :
  (2 ^ 53 <= Zpos q < 2 ^ 54)%Z -> (-1074 <= e <= -3)%Z ->
  exists Q : Z,
    JS.floor (binary_round_aux JS.prec JS.emax false (Zpos q) e l)
    = JS.Number (Q / 2 ^ (- (e + 1))) /\
    (Zpos q / 2 <= Q <= Zpos q / 2 + 1)%Z /\
    (Z.even (Zpos q) = true -> Q = Zpos q / 2)%Z.
Proof.
  intros Hq He.
  assert (Hd : Zpos (Pos.size q) = 54%Z) by (apply size_54; lia).
  unfold binary_round_aux. unfold shr_fexp at 1.
  assert (Hs : (fexp JS.prec JS.emax (Zdigits2 (Zpos q) + e) - e = 1)%Z).
  { unfold Zdigits2. rewrite digits2_pos_size, Hd.
    unfold fexp, emin, JS.prec, JS.emax. lia. }
  rewrite Hs. unfold shr at 1. cbn [iter_pos].
  destruct q as [q'|q'|]; [| |lia].
  - (* odd *)
    assert (Hhalf : (Zpos q'~1 / 2 = Zpos q')%Z).
    { rewrite Pos2Z.inj_xI.
      rewrite Z.add_comm, Z.mul_comm, Z.div_add by lia. reflexivity. }
    rewrite Hhalf.
    pose proof (rne_bounds (Zpos q')
                  (loc_of_shr_record (shr_1 (shr_record_of_loc (Zpos q'~1) l))))
      as Hr.
    replace (shr_m (shr_1 (shr_record_of_loc (Zpos q'~1) l))) with (Zpos q')
      by (destruct l as [|[| |]]; reflexivity).
    destruct (round_nearest_even (Zpos q') _) as [|Q|Q] eqn:EQ; try lia.
    exists (Zpos Q). split; [|split; [lia|discriminate]].
    apply floor_last_stage; [|lia].
    rewrite Pos2Z.inj_xI in Hq. lia.
  - (* even *)
    assert (Hhalf : (Zpos q'~0 / 2 = Zpos q')%Z).
    { rewrite Pos2Z.inj_xO, Z.mul_comm, Z.div_mul by lia. reflexivity. }
    rewrite Hhalf.
    replace (shr_m (shr_1 (shr_record_of_loc (Zpos q'~0) l))) with (Zpos q')
      by (destruct l as [|[| |]]; reflexivity).
    replace (round_nearest_even (Zpos q')
               (loc_of_shr_record (shr_1 (shr_record_of_loc (Zpos q'~0) l))))
      with (Zpos q') by (destruct l as [|[| |]]; reflexivity).
    exists (Zpos q'). split; [|split; [lia|reflexivity]].
    apply floor_last_stage; [|lia].
    rewrite Pos2Z.inj_xO in Hq. lia.
Qed.

(** [Math.floor(t / 1000)] of a safe integer [t] of milliseconds is the
    double of the integer quotient. *)
Lemma seconds_exact (p : positive) :
  (Zpos p < JS.two53)%Z ->
  JS.floor (JS.div (JS.Number (Zpos p)) JS.lit_1000) = JS.Number (Zpos p / 1000).
Proof.
  intros Hp. pose proof (size_bound p Hp) as Hd.
  pose proof (Pos2Z.is_pos (Pos.size p)) as Hd0.
  pose proof (size_bounds p) as [Hlo Hhi].
  rewrite Number_pos by exact Hp.
  change JS.lit_1000 with (S754_finite false 8796093022208000 (-43)).
  unfold JS.div, JS.canon. cbv zeta. cbn [SFdiv xorb].
  set (k := (53 - Zpos (Pos.size p))%Z).
  assert (Hk : (0 <= k <= 52)%Z) by (unfold k; lia).
  set (j := (k + 10)%Z).
  unfold SFdiv_core_binary.
  assert (Hd1 : Zdigits2 (Zpos (JS.scale p k)) = 53%Z).
  { unfold Zdigits2. rewrite digits2_pos_size, size_scale by lia.
    unfold k. lia. }
  rewrite Hd1.
  change (Zdigits2 (Zpos 8796093022208000)) with 53%Z.
  assert (He' : Z.min (fexp JS.prec JS.emax (53 + - k - (53 + -43))) (- k - -43)
                = (- j)%Z).
  { unfold fexp, emin, JS.prec, JS.emax, j. lia. }
  rewrite He'.
  replace (- k - -43 - - j)%Z with 53%Z by (unfold j; lia).
  rewrite Z.shiftl_mul_pow2 by lia.
  assert (Hquot : (fst (Z.div_eucl (Zpos (JS.scale p k) * 2 ^ 53)
                                   (Zpos 8796093022208000))
                   = Zpos p * 2 ^ j / 1000)%Z).
  { change (fst (Z.div_eucl ?a ?b)) with (a / b)%Z.
    rewrite scale_Z by lia.
    change (Zpos 8796093022208000) with (1000 * 2 ^ 43)%Z.
    replace (Zpos p * 2 ^ k * 2 ^ 53)%Z with ((Zpos p * 2 ^ j) * 2 ^ 43)%Z.
    2:{ unfold j. rewrite Z.pow_add_r by lia.
        change (2 ^ 53)%Z with (2 ^ 10 * 2 ^ 43)%Z. ring. }
    apply Z.div_mul_cancel_r; lia. }
  destruct (Z.div_eucl (Zpos (JS.scale p k) * 2 ^ 53) (Zpos 8796093022208000))
    as [q r] eqn:Ediv.
  cbn [fst] in Hquot.
  (* the quotient and its bounds *)
  set (X := (Zpos p * 2 ^ j)%Z) in *.
  assert (H2j : (2 ^ j = 2 ^ 10 * 2 ^ k)%Z)
    by (unfold j; rewrite Z.pow_add_r by lia; ring).
  assert (H2k : (0 < 2 ^ k)%Z) by (apply Z.pow_pos_nonneg; lia).
  assert (HX : (2 ^ 62 <= X < 2 ^ 63)%Z).
  { assert (E62 : (2 ^ 62 = 2 ^ (Zpos (Pos.size p) - 1) * 2 ^ j)%Z).
    { rewrite <- Z.pow_add_r by (unfold j; lia). f_equal. unfold j, k. lia. }
    assert (E63 : (2 ^ 63 = 2 ^ Zpos (Pos.size p) * 2 ^ j)%Z).
    { rewrite <- Z.pow_add_r by (unfold j; lia). f_equal. unfold j, k. lia. }
    rewrite E62, E63. unfold X.
    assert (0 < 2 ^ j)%Z by (apply Z.pow_pos_nonneg; unfold j; lia).
    split; [apply Z.mul_le_mono_nonneg_r|apply Z.mul_lt_mono_pos_r]; lia. }
  pose proof (Z.div_mod X 1000 ltac:(lia)) as HXdiv.
  pose proof (Z.mod_pos_bound X 1000 ltac:(lia)) as HXmod.
  pose proof (Z.div_mod (Zpos p) 1000 ltac:(lia)) as Hpdiv.
  pose proof (Z.mod_pos_bound (Zpos p) 1000 ltac:(lia)) as Hpmod.
  set (kappa := (Zpos p / 1000)%Z) in *.
  set (rho := (Zpos p mod 1000)%Z) in *.
  rewrite <- Hquot in HXdiv.
  assert (Hq : (2 ^ 52 <= q < 2 ^ 54)%Z).
  { change (2 ^ 62)%Z with (1024 * 2 ^ 52)%Z in HX.
    change (2 ^ 63)%Z with (512 * 2 ^ 54)%Z in HX.
    assert (0 < 2 ^ 52)%Z by reflexivity. assert (0 < 2 ^ 54)%Z by reflexivity.
    split; nia. }
  assert (H1024 : (1024 <= 2 ^ j)%Z).
  { rewrite H2j. change (2 ^ 10)%Z with 1024%Z. nia. }
  assert (HXe : (X = 1000 * (kappa * 2 ^ j) + rho * 2 ^ j)%Z).
  { unfold X. rewrite Hpdiv at 1. ring. }
  assert (HR : (0 <= rho * 2 ^ j <= 999 * 2 ^ j)%Z) by nia.
  assert (Hlower : (kappa * 2 ^ j <= q)%Z) by lia.
  assert (Hupper : (q + 2 <= (kappa + 1) * 2 ^ j)%Z).
  { rewrite Z.mul_add_distr_r. lia. }
  destruct q as [|q|q]; try (change (2 ^ 52)%Z with 4503599627370496%Z in Hq; lia).
  destruct (Z.lt_ge_cases (Zpos q) (2 ^ 53)) as [H53|H54].
  - destruct (floor_round_53 q (- j) (new_location (Zpos 8796093022208000) r))
      as (Q & -> & HQ); [lia|unfold j; lia|].
    f_equal. rewrite Z.opp_involutive.
    symmetry. apply (Z.div_unique Q (2 ^ j) kappa (Q - kappa * 2 ^ j)); lia.
  - destruct (floor_round_54 q (- j) (new_location (Zpos 8796093022208000) r))
      as (Q & -> & HQ & Heven); [lia|unfold j; lia|].
    f_equal.
    replace (- (- j + 1))%Z with (j - 1)%Z by lia.
    assert (Hj1 : (2 ^ j = 2 * 2 ^ (j - 1))%Z).
    { replace j with (Z.succ (j - 1)) at 1 by lia.
      apply Z.pow_succ_r. unfold j. lia. }
    assert (0 < 2 ^ (j - 1))%Z by (apply Z.pow_pos_nonneg; unfold j; lia).
    pose proof (Z.div_mod (Zpos q) 2 ltac:(lia)) as Hq2.
    pose proof (Z.mod_pos_bound (Zpos q) 2 ltac:(lia)) as Hq2m.
    assert (Hpar : (Zpos q mod 2 = 0 -> Q = Zpos q / 2)%Z).
    { intros H0. apply Heven. rewrite Zeven_mod. apply Z.eqb_eq. exact H0. }
    symmetry.
    apply (Z.div_unique Q (2 ^ (j - 1)) kappa (Q - kappa * 2 ^ (j - 1))); [|lia].
    left. split; [nia|].
    destruct (Z.eq_dec (Zpos q mod 2) 0) as [E0|E1].
    + specialize (Hpar E0). nia.
    + assert (Zpos q mod 2 = 1)%Z by lia. nia.
Qed.

End JSFacts.

(** ** The time gate on safe integers

    For a deadline and a clock below [2^53] the doubles of the code are
    the integers they stand for: [now] is the clock in whole seconds and
    [timeLeft] is the deadline minus [now]. *)

Lemma seconds_of_exact (t : Z) :
  0 <= t < JS.two53 -> seconds_of t = JS.Number (t / 1000).
Proof.
  intros Ht. unfold seconds_of. destruct t as [|p|p]; [reflexivity| |lia].
  apply JSFacts.seconds_exact. lia.
Qed.

Lemma time_left_exact (m : Market) (t : Z) :
  0 <= endTime m < JS.two53 -> 0 <= t < JS.two53 ->
  time_left m (seconds_of t) = JS.Number (endTime m - t / 1000) /\
  JS.toInteger (time_left m (seconds_of t)) = Some (endTime m - t / 1000) /\
  JS.le (time_left m (seconds_of t)) JS.zero = (endTime m <=? t / 1000) /\
  JS.gt (time_left m (seconds_of t)) JS.zero = (t / 1000 <? endTime m).
Proof.
  intros He Ht.
  assert (Hq : 0 <= t / 1000 < JS.two53).
  { split; [apply Z.div_pos; lia|].
    apply Z.div_lt_upper_bound; unfold JS.two53 in *; lia. }
  assert (Hexact : time_left m (seconds_of t) = JS.Number (endTime m - t / 1000)).
  { unfold time_left. rewrite seconds_of_exact by exact Ht.
    apply JSFacts.sub_Number; assumption. }
  rewrite Hexact.
  rewrite JSFacts.toInteger_Number, JSFacts.le_Number_zero,
    JSFacts.gt_Number_zero by lia.
  repeat split.
  - destruct (Z.leb_spec (endTime m - t / 1000) 0),
             (Z.leb_spec (endTime m) (t / 1000)); (reflexivity || lia).
  - destruct (Z.ltb_spec 0 (endTime m - t / 1000)),
             (Z.ltb_spec (t / 1000) (endTime m)); (reflexivity || lia).
Qed.

(** A deadline after the clock's second leaves time. *)
Lemma future_deadline_has_time_left (m : Market) (t : Z) :
  0 <= endTime m < JS.two53 -> 0 <= t < JS.two53 ->
  t / 1000 < endTime m ->
  JS.gt (time_left m (seconds_of t)) JS.zero = true.
Proof.
  intros He Ht Hfuture.
  destruct (time_left_exact m t He Ht) as (_ & _ & _ & ->).
  apply Z.ltb_lt. exact Hfuture.
Qed.

(** A deadline at or before the clock's second leaves none. *)
Lemma past_deadline_has_no_time_left (m : Market) (t : Z) :
  0 <= endTime m < JS.two53 -> 0 <= t < JS.two53 ->
  endTime m <= t / 1000 ->
  JS.le (time_left m (seconds_of t)) JS.zero = true.
Proof.
  intros He Ht Hpast.
  destruct (time_left_exact m t He Ht) as (_ & _ & -> & _).
  apply Z.leb_le. exact Hpast.
Qed.

(** ** The monad *)

Section MonadFacts.
Context {L : Type} `{Collaborators L}.

Lemma grows_trans (a b c : list SettlementRecord) :
  grows a b -> grows b c -> grows a c.
Proof.
  intros Hab Hbc. induction Hbc.
  - exact Hab.
  - apply grows_insert; assumption.
Qed.

Lemma keeps_ret {A} (a : A) : keeps (ret (L:=L) a).
Proof. intros s. apply grows_same. Qed.

Lemma keeps_throw {A} (e : Error) : keeps (throw (L:=L) (A:=A) e).
Proof. intros s. apply grows_same. Qed.

Lemma keeps_console (l : Line) : keeps (console (L:=L) l).
Proof. intros s. apply grows_same. Qed.

Lemma keeps_call {A} (c : Call) (f : L -> outcome A * L) : keeps (call c f).
Proof. intros s. apply grows_same. Qed.

Lemma keeps_now_ms : keeps now_ms.
Proof. intros s. apply grows_same. Qed.

Lemma keeps_bind {A B} (m : M L A) (k : A -> M L B) :
  keeps m -> (forall a, keeps (k a)) -> keeps (bind m k).
Proof.
  intros Hm Hk s. unfold bind.
  destruct (result (m s)) as [a|e] eqn:E; cbn.
  - eapply grows_trans; [apply Hm|apply Hk].
  - apply Hm.
Qed.

Lemma keeps_try {A} (m : M L A) (h : Error -> M L A) :
  keeps m -> (forall e, keeps (h e)) -> keeps (try_catch m h).
Proof.
  intros Hm Hh s. unfold try_catch.
  destruct (result (m s)) as [a|e] eqn:E; cbn.
  - apply Hm.
  - eapply grows_trans; [apply Hm|apply Hh].
Qed.

Lemma total_ret {A} (a : A) : total (ret (L:=L) a).
Proof. intros s. exists a. reflexivity. Qed.

Lemma total_console (l : Line) : total (console (L:=L) l).
Proof. intros s. exists tt. reflexivity. Qed.

Lemma total_bind {A B} (m : M L A) (k : A -> M L B) :
  total m -> (forall a, total (k a)) -> total (bind m k).
Proof.
  intros Hm Hk s. unfold bind.
  destruct (Hm s) as [a Ha]. rewrite Ha. cbn. apply Hk.
Qed.

(** A [try] whose handler never throws never throws. *)
Lemma total_try {A} (m : M L A) (h : Error -> M L A) :
  (forall e, total (h e)) -> total (try_catch m h).
Proof.
  intros Hh s. unfold try_catch.
  destruct (result (m s)) as [a|e] eqn:E.
  - exists a. exact E.
  - cbn. apply Hh.
Qed.

Lemma emits_ret {A} P (a : A) : emits P (ret (L:=L) a).
Proof. intros s. constructor. Qed.

Lemma emits_throw {A} P (e : Error) : emits P (throw (L:=L) (A:=A) e).
Proof. intros s. constructor. Qed.

Lemma emits_console (P : Event -> Prop) (l : Line) :
  P (Console l) -> emits P (console (L:=L) l).
Proof. intros Hp s. cbn. constructor; [exact Hp|constructor]. Qed.

Lemma emits_call {A} (P : Event -> Prop) (c : Call) (f : L -> outcome A * L) :
  P (Called c) -> emits P (call c f).
Proof. intros Hp s. cbn. constructor; [exact Hp|constructor]. Qed.

Lemma emits_now_ms P : emits P now_ms.
Proof. intros s. constructor. Qed.

Lemma emits_bind {A B} P (m : M L A) (k : A -> M L B) :
  emits P m -> (forall a, emits P (k a)) -> emits P (bind m k).
Proof.
  intros Hm Hk s. unfold bind.
  destruct (result (m s)) as [a|e] eqn:E; cbn.
  - apply Forall_app. split; [apply Hm|apply Hk].
  - apply Hm.
Qed.

Lemma emits_try {A} P (m : M L A) (h : Error -> M L A) :
  emits P m -> (forall e, emits P (h e)) -> emits P (try_catch m h).
Proof.
  intros Hm Hh s. unfold try_catch.
  destruct (result (m s)) as [a|e] eqn:E; cbn.
  - apply Hm.
  - apply Forall_app. split; [apply Hm|apply Hh].
Qed.

Lemma emits_save (P : Event -> Prop) (r : SettlementRecord) :
  P (Called (CSave (marketId r))) -> emits P (save r).
Proof.
  intros Hp s. unfold save.
  destruct (fst (db_fault r (chain s))); [|destruct (has_record _ _)];
    cbn; repeat constructor; exact Hp.
Qed.

Lemma keeps_save id m tx rc t : keeps (save (settlementRecordOf id m tx rc t)).
Proof.
  intros s. unfold save.
  destruct (fst (db_fault _ (chain s))); cbn; [apply grows_same|].
  destruct (has_record id (docs s)) eqn:E; cbn; [apply grows_same|].
  apply grows_insert; [apply grows_same|exact E].
Qed.

(** Rules to follow a run through the structure of a computation. *)
Lemma runs_bind {A B} (m : M L A) (k : A -> M L B) s Q :
  runs m s (fun o s' t =>
    match o with
    | Returned a => runs (k a) s' (fun o' s'' t' => Q o' s'' (t ++ t'))
    | Thrown e => Q (Thrown e) s' t
    end) ->
  runs (bind m k) s Q.
Proof.
  unfold runs, bind. destruct (result (m s)); cbn [result post trace]; auto.
Qed.

Lemma runs_try {A} (m : M L A) (h : Error -> M L A) s Q :
  runs m s (fun o s' t =>
    match o with
    | Returned a => Q (Returned a) s' t
    | Thrown e => runs (h e) s' (fun o' s'' t' => Q o' s'' (t ++ t'))
    end) ->
  runs (try_catch m h) s Q.
Proof.
  unfold runs, try_catch.
  destruct (result (m s)) eqn:E; cbn [result post trace]; auto.
  rewrite E. auto.
Qed.

Lemma runs_console (l : Line) s (Q : outcome unit -> State L -> list Event -> Prop) :
  Q (Returned tt) s [Console l] -> runs (console l) s Q.
Proof. auto. Qed.

Lemma runs_ret {A} (a : A) s (Q : outcome A -> State L -> list Event -> Prop) :
  Q (Returned a) s [] -> runs (ret a) s Q.
Proof. auto. Qed.

Lemma runs_throw {A} (e : Error) s (Q : outcome A -> State L -> list Event -> Prop) :
  Q (Thrown e) s [] -> runs (throw e) s Q.
Proof. auto. Qed.

Lemma runs_call {A} (c : Call) (f : L -> outcome A * L) s Q :
  Q (fst (f (chain s))) {| chain := snd (f (chain s)); docs := docs s |}
    [Called c] ->
  runs (call c f) s Q.
Proof. auto. Qed.

Lemma runs_now_ms s (Q : outcome Z -> State L -> list Event -> Prop) :
  Q (Returned (fst (Date_now (chain s))))
    {| chain := snd (Date_now (chain s)); docs := docs s |} [] ->
  runs now_ms s Q.
Proof. auto. Qed.

Lemma runs_save (r : SettlementRecord) s
    (Q : outcome unit -> State L -> list Event -> Prop) :
  (forall e, fst (db_fault r (chain s)) = Some e ->
     Q (Thrown e) {| chain := snd (db_fault r (chain s)); docs := docs s |}
       [Called (CSave (marketId r))]) ->
  (fst (db_fault r (chain s)) = None ->
   has_record (marketId r) (docs s) = true ->
     Q (Thrown E11000)
       {| chain := snd (db_fault r (chain s)); docs := docs s |}
       [Called (CSave (marketId r))]) ->
  (fst (db_fault r (chain s)) = None ->
   has_record (marketId r) (docs s) = false ->
     Q (Returned tt)
       {| chain := snd (db_fault r (chain s)); docs := docs s ++ [r] |}
       [Called (CSave (marketId r))]) ->
  runs (save r) s Q.
Proof.
  intros Hfault Hdup Hok. unfold runs, save.
  destruct (fst (db_fault r (chain s))) as [e|]; [apply Hfault; reflexivity|].
  destruct (has_record (marketId r) (docs s));
    [apply Hdup|apply Hok]; reflexivity.
Qed.

End MonadFacts.

Create HintDb store.
Create HintDb nothrow.
#[local] Hint Resolve keeps_ret keeps_throw keeps_console keeps_call
  keeps_now_ms keeps_save : store.
#[local] Hint Resolve total_ret total_console : nothrow.

(** Splits a computation along its [bind]s and [try]s. *)
Ltac step_keeps :=
  repeat first
    [ apply keeps_bind; [|intros ?]
    | apply keeps_try; [|intros ?]
    | match goal with |- keeps (if ?b then _ else _) => destruct b end
    | solve [auto with store] ].

Ltac step_total :=
  repeat first
    [ apply total_bind; [|intros ?]
    | apply total_try; intros ?
    | match goal with |- total (if ?b then _ else _) => destruct b end
    | solve [auto with nothrow] ].

(** Reduces the projections of a run, and nothing else. *)
Ltac run := cbn [result post trace chain docs fst snd app negb andb].

Ltac case_if :=
  match goal with
  | |- context [if ?b then _ else _] => destruct b
  end.

(** One step of a run. *)
Ltac exec1 :=
  lazymatch goal with
  | |- runs (bind _ _) _ _ => apply runs_bind
  | |- runs (try_catch _ _) _ _ => apply runs_try
  | |- runs (console _) _ _ => apply runs_console
  | |- runs (ret _) _ _ => apply runs_ret
  | |- runs (throw _) _ _ => apply runs_throw
  | |- runs now_ms _ _ => apply runs_now_ms
  | |- runs (call _ _) _ _ => apply runs_call
  end;
  cbv beta iota.

Ltac exec := repeat exec1.

Ltac step_emits :=
  repeat first
    [ apply emits_bind; [|intros ?]
    | apply emits_try; [|intros ?]
    | match goal with |- emits _ (if ?b then _ else _) => destruct b end
    | apply emits_ret
    | apply emits_throw
    | apply emits_now_ms
    | apply emits_console
    | apply emits_call
    | apply emits_save ].

(** ** The store only grows, and the engine's methods that catch never throw *)

Section ServiceFacts.
Context {L : Type} `{Collaborators L}.

Lemma keeps_storeSettlementRecord id m tx rc :
  keeps (storeSettlementRecord id m tx rc).
Proof. unfold storeSettlementRecord. step_keeps. Qed.

Lemma total_storeSettlementRecord id m tx rc :
  total (storeSettlementRecord id m tx rc).
Proof. unfold storeSettlementRecord. step_total. Qed.

Lemma keeps_settle_failure_lines id e : keeps (settle_failure_lines (L:=L) id e).
Proof. unfold settle_failure_lines. step_keeps. Qed.

Lemma total_settle_failure_lines id e : total (settle_failure_lines (L:=L) id e).
Proof. unfold settle_failure_lines. step_total. Qed.

Lemma keeps_settleMarket id m : keeps (settleMarket id m).
Proof.
  unfold settleMarket. step_keeps.
Qed.

Lemma total_settleMarket id m : total (settleMarket id m).
Proof.
  unfold settleMarket. step_total.
Qed.

Lemma keeps_processMarket i c : keeps (processMarket i c).
Proof.
  unfold processMarket, now_seconds. step_keeps.
Qed.

Lemma total_processMarket i c : total (processMarket i c).
Proof. unfold processMarket. step_total. Qed.

Lemma keeps_scan_loop n : forall i c, keeps (scan_loop n i c).
Proof.
  induction n as [|n IH]; intros i c; cbn [scan_loop].
  - apply keeps_ret.
  - apply keeps_bind; [apply keeps_processMarket|intros c'; apply IH].
Qed.

Lemma total_scan_loop n : forall i c, total (scan_loop n i c).
Proof.
  induction n as [|n IH]; intros i c; cbn [scan_loop].
  - apply total_ret.
  - apply total_bind; [apply total_processMarket|intros c'; apply IH].
Qed.

Lemma keeps_checkAndSettleMarkets : keeps checkAndSettleMarkets.
Proof. unfold checkAndSettleMarkets. step_keeps. apply keeps_scan_loop. Qed.

Lemma total_checkAndSettleMarkets : total checkAndSettleMarkets.
Proof. unfold checkAndSettleMarkets. step_total. Qed.

Lemma keeps_manualSettle id : keeps (manualSettle id).
Proof. unfold manualSettle. step_keeps. Qed.

Lemma keeps_getSettlementStatus id : keeps (getSettlementStatus id).
Proof. unfold getSettlementStatus, now_seconds. step_keeps. Qed.

End ServiceFacts.

(** ** Traces *)

Lemma fetches_app (t u : list Event) : fetches (t ++ u) = fetches t ++ fetches u.
Proof.
  induction t as [|ev t IH]; cbn; [reflexivity|].
  destruct (fetched ev); cbn; rewrite IH; reflexivity.
Qed.

Lemma fetches_none (t : list Event) : Forall no_fetch t -> fetches t = [].
Proof.
  induction 1 as [|ev t Hev _ IH]; cbn; [reflexivity|].
  unfold no_fetch in Hev. rewrite Hev. exact IH.
Qed.

Lemma quiet_no_fetch (ev : Event) : quiet ev -> no_fetch ev.
Proof. destruct ev as [[]|]; cbn; intros []; reflexivity. Qed.

Lemma quiet_no_finalize (ev : Event) (k : Z) : quiet ev -> finalizes k ev = false.
Proof. destruct ev as [[]|]; cbn; intros []; reflexivity. Qed.

Section TraceFacts.
Context {L : Type} `{Collaborators L}.

Lemma bind_returned {A B} (m : M L A) (k : A -> M L B) s a :
  result (m s) = Returned a ->
  bind m k s = {| result := result (k a (post (m s)));
                  post := post (k a (post (m s)));
                  trace := trace (m s) ++ trace (k a (post (m s))) |}.
Proof. intros E. unfold bind. rewrite E. reflexivity. Qed.

(** [settleMarket] acts on its own market only and fetches nothing. *)
Lemma settleMarket_only_finalizes id m :
  emits (only_finalizes id) (settleMarket id m).
Proof.
  unfold settleMarket, storeSettlementRecord, settle_failure_lines.
  step_emits; intros k; cbn; try discriminate; intros E; lia.
Qed.

Lemma settleMarket_no_fetch id m : emits no_fetch (settleMarket id m).
Proof.
  unfold settleMarket, storeSettlementRecord, settle_failure_lines.
  step_emits; reflexivity.
Qed.


Lemma In_bind_l {A B} (m : M L A) (k : A -> M L B) ev s :
  In ev (trace (m s)) -> In ev (trace (bind m k s)).
Proof.
  intros Hin. unfold bind. destruct (result (m s)); run; [|exact Hin].
  apply in_or_app. left. exact Hin.
Qed.

Lemma In_bind_r {A B} (m : M L A) (k : A -> M L B) ev s :
  total m -> (forall a s', In ev (trace (k a s'))) ->
  In ev (trace (bind m k s)).
Proof.
  intros Hm Hk. unfold bind. destruct (Hm s) as [a ->]. run.
  apply in_or_app. right. apply Hk.
Qed.

Lemma In_try {A} (m : M L A) (h : Error -> M L A) ev s :
  In ev (trace (m s)) -> In ev (trace (try_catch m h s)).
Proof.
  intros Hin. unfold try_catch. destruct (result (m s)); run; [exact Hin|].
  apply in_or_app. left. exact Hin.
Qed.

(** [settleMarket] always asks the ledger for the cost estimate. *)
Lemma settleMarket_estimates id m s :
  In (Called (CEstimateGas id)) (trace (settleMarket id m s)).
Proof.
  unfold settleMarket. apply In_try.
  apply In_bind_r; [apply total_console|]. intros _ s'.
  apply In_bind_l. left. reflexivity.
Qed.

(** The events of one iteration of the loop. *)
Lemma processMarket_trace i c s :
  trace (processMarket i c s) =
  Called (CGetMarket i) ::
  match snapshot_read i s with
  | Thrown e => [Console (EProcessing i (message e))]
  | Returned m =>
      if negb (isActive m) then []
      else
        let tl := time_left m (clock_read i s) in
        if JS.le tl JS.zero
        then Console (LSettling i tl) :: trace (settleMarket i m (after_reads i s))
        else [Console (LRemaining i tl)]
  end.
Proof.
  unfold processMarket, snapshot_read, clock_read, after_reads, now_seconds,
    try_catch, bind, call, now_ms, console, ret.
  run.
  destruct (fst (contract_getMarket i (chain s))) as [m|e]; run; [|reflexivity].
  destruct (isActive m); run; [|reflexivity].
  destruct (JS.le _ JS.zero); run; [|reflexivity].
  match goal with
  | |- context [settleMarket i m ?s2] =>
      destruct (total_settleMarket i m s2) as [b Hb]; rewrite Hb
  end.
  run. rewrite app_nil_r. reflexivity.
Qed.

Lemma processMarket_only_finalizes i c :
  emits (only_finalizes i) (processMarket i c).
Proof.
  unfold processMarket, now_seconds.
  apply emits_try; [|intros e; step_emits; intros k; cbn; discriminate].
  apply emits_bind; [apply emits_call; intros k; cbn; discriminate|].
  intros m. destruct (negb (isActive m)); [apply emits_ret|].
  apply emits_bind; [step_emits|]. intros now.
  cbv zeta. destruct (JS.le _ JS.zero).
  - apply emits_bind; [apply emits_console; intros k; cbn; discriminate|].
    intros _. apply emits_bind; [apply settleMarket_only_finalizes|].
    intros b. apply emits_ret.
  - step_emits. intros k; cbn; discriminate.
Qed.

Lemma processMarket_fetches i c s : fetches (trace (processMarket i c s)) = [i].
Proof.
  rewrite processMarket_trace. cbn [fetches fetched]. f_equal.
  destruct (snapshot_read i s) as [m|e]; [|reflexivity].
  destruct (negb (isActive m)); [reflexivity|].
  cbv zeta. destruct (JS.le _ JS.zero); [|reflexivity].
  cbn [fetches fetched]. apply fetches_none, settleMarket_no_fetch.
Qed.

End TraceFacts.

(** ** The loop of the scan *)

Section LoopFacts.
Context {L : Type} `{Collaborators L}.

(** The loop fetches every index, in order, whatever happens to each. *)
Lemma scan_loop_fetches n : forall i c s,
  fetches (trace (scan_loop n i c s)) = zseq n i.
Proof.
  induction n as [|n IH]; intros i c s; cbn [scan_loop zseq].
  - reflexivity.
  - destruct (total_processMarket i c s) as [c1 Hc1].
    rewrite (bind_returned _ _ _ _ Hc1). cbn [trace].
    rewrite fetches_app, processMarket_fetches, IH. reflexivity.
Qed.

(** Iterations [i .. i+n-1] finalize markets [i .. i+n-1] only. *)
Lemma scan_loop_finalizes_in_range n : forall i c s,
  Forall (fun ev => forall k, finalizes k ev = true -> i <= k < i + Z.of_nat n)
         (trace (scan_loop n i c s)).
Proof.
  induction n as [|n IH]; intros i c s; cbn [scan_loop].
  - constructor.
  - destruct (total_processMarket i c s) as [c1 Hc1].
    rewrite (bind_returned _ _ _ _ Hc1). cbn [trace].
    apply Forall_app. split.
    + eapply Forall_impl; [|apply processMarket_only_finalizes].
      intros ev Hev k Hk. apply Hev in Hk. lia.
    + eapply Forall_impl; [|apply IH].
      intros ev Hev k Hk. apply Hev in Hk. lia.
Qed.

(** The trace of the loop around its iteration [k]. *)
Lemma scan_loop_iteration k : forall n i c s,
  (k < n)%nat ->
  exists c' c'' s'',
    trace (scan_loop n i c s)
    = trace (scan_loop k i c s)
      ++ trace (processMarket (i + Z.of_nat k) c' (post (scan_loop k i c s)))
      ++ trace (scan_loop (n - S k) (i + Z.of_nat k + 1) c'' s'').
Proof.
  induction k as [|k IH]; intros n i c s Hk;
    (destruct n as [|n]; [lia|]).
  - cbn [scan_loop].
    destruct (total_processMarket i c s) as [c1 Hc1].
    rewrite (bind_returned _ _ _ _ Hc1).
    replace (i + Z.of_nat 0) with i by lia.
    replace (S n - 1)%nat with n by lia.
    exists c, c1, (post (processMarket i c s)). reflexivity.
  - cbn [scan_loop].
    destruct (total_processMarket i c s) as [c1 Hc1].
    rewrite !(bind_returned _ _ _ _ Hc1). cbn [trace post].
    destruct (IH n (i + 1) c1 (post (processMarket i c s))) as (c' & c'' & s'' & ->);
      [lia|].
    replace (i + 1 + Z.of_nat k) with (i + Z.of_nat (S k)) by lia.
    replace (S n - S (S k))%nat with (n - S k)%nat by lia.
    exists c', c'', s''. rewrite <- app_assoc. reflexivity.
Qed.

(** The trace of a scan around its loop. *)
Lemma checkAndSettleMarkets_trace s n :
  fst (contract_marketCount (chain s)) = Returned n ->
  exists pre suf,
    Forall quiet pre /\ Forall quiet suf /\
    trace (checkAndSettleMarkets s)
    = pre ++ trace (scan_loop (Z.to_nat n) 0 0 (scan_start s)) ++ suf.
Proof.
  intros Hn.
  unfold checkAndSettleMarkets, scan_start, try_catch, bind, call, console.
  run. rewrite Hn. run.
  destruct (n =? 0) eqn:E0; run.
  - apply Z.eqb_eq in E0. subst n. cbn [Z.to_nat scan_loop ret]. run.
    exists [Console LChecking; Called CMarketCount; Console (LTotalMarkets 0)],
           [Console LNoMarkets].
    repeat split; repeat constructor.
  - match goal with
    | |- context [scan_loop ?N 0 0 ?s1] =>
        destruct (total_scan_loop N 0 0 s1) as [c Hc]; rewrite Hc
    end.
    run. destruct (0 <? c); run.
    + exists [Console LChecking; Called CMarketCount; Console (LTotalMarkets n)],
             [Console (LSettledCount c)].
      repeat split; repeat constructor.
    + exists [Console LChecking; Called CMarketCount; Console (LTotalMarkets n)],
             [Console LNoneReady].
      repeat split; repeat constructor.
Qed.

End LoopFacts.

(** * The scheduled scan *)

Section ScanTheorems.
Context {L : Type} `{Collaborators L}.

(** An iteration whose snapshot is inactive, or active with time left,
    finalizes nothing. *)
Lemma processMarket_skips i c s m :
  snapshot_read i s = Returned m ->
  isActive m = false \/
  (isActive m = true /\ JS.gt (time_left m (clock_read i s)) JS.zero = true) ->
  Forall (fun ev => finalizes i ev = false) (trace (processMarket i c s)).
Proof.
  intros Hm Hskip. rewrite processMarket_trace, Hm.
  destruct Hskip as [Hoff|[Hon Hleft]].
  - rewrite Hoff. run. repeat constructor.
  - rewrite Hon. run. cbv zeta.
    rewrite (JSFacts.gt_zero_not_le_zero _ Hleft).
    repeat constructor.
Qed.

(** C5. In a scheduled scan, a market whose snapshot (the one the scan
    fetches for it) is active with [timeLeft > 0], or is inactive, is
    never finalized: the scan neither estimates nor submits
    [releaseRewards] for it.  ([timeLeft] is the code's
    [Number(endTime) - now]; on safe integers [timeLeft > 0] says that
    the deadline is after the clock's second, see
    [future_deadline_has_time_left].) *)
Theorem scan_skips_ineligible (s : State L) (n : Z) (k : nat) (m : Market) :
  fst (contract_marketCount (chain s)) = Returned n ->
  (k < Z.to_nat n)%nat ->
  snapshot_read (Z.of_nat k) (before_iteration s k) = Returned m ->
  isActive m = false \/
  (isActive m = true /\
   JS.gt (time_left m (clock_read (Z.of_nat k) (before_iteration s k)))
         JS.zero = true) ->
  Forall (fun ev => finalizes (Z.of_nat k) ev = false)
         (trace (checkAndSettleMarkets s)).
Proof.
  intros Hn Hk Hm Hskip.
  destruct (checkAndSettleMarkets_trace s n Hn) as (pre & suf & Hpre & Hsuf & ->).
  destruct (scan_loop_iteration k (Z.to_nat n) 0 0 (scan_start s) Hk)
    as (c' & c'' & s'' & ->).
  fold (before_iteration s k).
  repeat (apply Forall_app; split).
  - eapply Forall_impl; [|exact Hpre]. intros ev. apply quiet_no_finalize.
  - eapply Forall_impl; [|apply scan_loop_finalizes_in_range].
    cbn beta. intros ev Hev.
    destruct (finalizes (Z.of_nat k) ev) eqn:E; [|reflexivity].
    apply Hev in E. lia.
  - apply (processMarket_skips (0 + Z.of_nat k) c' (before_iteration s k) m);
      assumption.
  - eapply Forall_impl; [|apply scan_loop_finalizes_in_range].
    cbn beta. intros ev Hev.
    destruct (finalizes (Z.of_nat k) ev) eqn:E; [|reflexivity].
    apply Hev in E. lia.
  - eapply Forall_impl; [|exact Hsuf]. intros ev. apply quiet_no_finalize.
Qed.

End ScanTheorems.



(** * Finalize-and-record *)

Lemma has_record_In (i : Z) (ds : list SettlementRecord) :
  has_record i ds = false -> ~ In i (map marketId ds).
Proof.
  unfold has_record. induction ds as [|d ds IH]; cbn [existsb map In]; [tauto|].
  destruct (marketId d =? i) eqn:E; cbn [orb]; [discriminate|].
  intros Hrest [Heq|Hin]; [lia|]. exact (IH Hrest Hin).
Qed.

(** The unique index is an invariant of a store that only grows. *)
Lemma grows_unique (ds ds' : list SettlementRecord) :
  grows ds ds' -> unique_ids ds -> unique_ids ds'.
Proof.
  unfold unique_ids. induction 1 as [|ds' id m tx rc t _ IH Hfree]; intros Hu.
  - exact Hu.
  - rewrite map_app. apply NoDup_app.
    + apply IH, Hu.
    + cbn [map]. constructor; [intros []|constructor].
    + cbn [map marketId settlementRecordOf]. intros a Ha [<-|[]].
      exact (has_record_In _ _ Hfree Ha).
Qed.

(** What was added to a store that grew. *)
Lemma grows_added (ds ds' : list SettlementRecord) :
  grows ds ds' ->
  exists added, ds' = ds ++ added /\
                Forall (fun d => participants d = []) added.
Proof.
  induction 1 as [|ds' id m tx rc t _ IH Hfree].
  - exists []. rewrite app_nil_r. split; [reflexivity|constructor].
  - destruct IH as (added & -> & Hall).
    exists (added ++ [settlementRecordOf id m tx rc t]).
    rewrite app_assoc. split; [reflexivity|].
    apply Forall_app. split; [exact Hall|].
    constructor; [reflexivity|constructor].
Qed.

Lemma find_by_participant_none (addr : string) (ds : list SettlementRecord) :
  Forall (fun d => participants d = []) ds -> find_by_participant addr ds = [].
Proof.
  induction 1 as [|d ds Hd _ IH]; cbn [find_by_participant filter]; [reflexivity|].
  rewrite Hd. cbn [existsb]. exact IH.
Qed.

Lemma find_by_participant_app (addr : string) (ds ds' : list SettlementRecord) :
  find_by_participant addr (ds ++ ds')
  = find_by_participant addr ds ++ find_by_participant addr ds'.
Proof. apply filter_app. Qed.

Lemma silent_not_save (t : list Event) (id : Z) :
  Forall silent t -> Forall (fun ev => ev <> Called (CSave id)) t.
Proof.
  apply Forall_impl. intros [c|l] Hq; [destruct Hq|discriminate].
Qed.

Lemma calls_app (t u : list Event) : calls (t ++ u) = calls t ++ calls u.
Proof. apply flat_map_app. Qed.

Lemma calls_silent (t : list Event) : Forall silent t -> calls t = [].
Proof.
  induction 1 as [|ev t Hev _ IH]; [reflexivity|].
  destruct ev as [c|l]; [destruct Hev|]. exact IH.
Qed.

Section SettleFacts.
Context {L : Type} `{Collaborators L}.

(** The unique index holds after any [save], whoever calls it. *)
Lemma save_unique d (s : State L) :
  unique_ids (docs s) -> unique_ids (docs (post (save d s))).
Proof.
  unfold unique_ids, save. intros Hu.
  destruct (fst (db_fault d (chain s))); run; [exact Hu|].
  destruct (has_record (marketId d) (docs s)) eqn:E; run; [exact Hu|].
  rewrite map_app. apply NoDup_app.
  - exact Hu.
  - cbn [map]. constructor; [intros []|constructor].
  - cbn [map]. intros a Ha [<-|[]]. exact (has_record_In _ _ E Ha).
Qed.

Lemma save_docs d (s : State L) :
  match result (save d s) with
  | Returned _ => docs (post (save d s)) = docs s ++ [d]
  | Thrown _ => docs (post (save d s)) = docs s
  end.
Proof.
  unfold save. destruct (fst (db_fault d (chain s))); run; [reflexivity|].
  destruct (has_record _ _); reflexivity.
Qed.

(** The [catch] of [settleMarket]: console lines, then [false]. *)
Lemma settle_failure_run id e (s : State L)
    (Q : outcome bool -> State L -> list Event -> Prop) :
  (forall t, Forall silent t -> Q (Returned false) s t) ->
  runs (settle_failure_lines id e ;; ret false) s Q.
Proof.
  intros HQ. unfold settle_failure_lines. exec.
  repeat case_if; exec; apply HQ; repeat constructor.
Qed.

(** The ledger steps, one oracle after the other. *)
Lemma finalize_on_ledger_result id (s : State L) :
  result (finalize_on_ledger id s) =
  match fst (contract_estimateGas id (chain s)) with
  | Thrown e => Thrown e
  | Returned g =>
      let c1 := snd (contract_estimateGas id (chain s)) in
      let limit := Z.quot (g * 120) 100 in
      match fst (contract_releaseRewards id limit c1) with
      | Thrown e => Thrown e
      | Returned tx =>
          let c2 := snd (contract_releaseRewards id limit c1) in
          match fst (tx_wait tx c2) with
          | Thrown e => Thrown e
          | Returned rc => Returned (tx, rc)
          end
      end
  end.
Proof.
  unfold finalize_on_ledger, bind, call, ret. run.
  destruct (fst (contract_estimateGas id (chain s))); run; [|reflexivity].
  cbv zeta.
  destruct (fst (contract_releaseRewards id _ _)); run; [|reflexivity].
  destruct (fst (tx_wait _ _)); reflexivity.
Qed.

Lemma finalize_on_ledger_post id (s : State L) tx rc :
  result (finalize_on_ledger id s) = Returned (tx, rc) ->
  exists g,
    fst (contract_estimateGas id (chain s)) = Returned g /\
    post (finalize_on_ledger id s) =
    {| chain := snd (tx_wait tx
                  (snd (contract_releaseRewards id (Z.quot (g * 120) 100)
                     (snd (contract_estimateGas id (chain s))))));
       docs := docs s |}.
Proof.
  unfold finalize_on_ledger, bind, call, ret. run.
  destruct (fst (contract_estimateGas id (chain s))) as [g|]; run;
    [|discriminate].
  destruct (fst (contract_releaseRewards id _ _)) as [tx'|] eqn:E2; run;
    [|discriminate].
  destruct (fst (tx_wait _ _)) as [rc'|]; run; [|discriminate].
  intros [= <- <-]. exists g. split; reflexivity.
Qed.

Lemma settleMarket_run id m s :
  runs (settleMarket id m) s (fun o s' t =>
    match result (finalize_on_ledger id s) with
    | Thrown e =>
        o = Returned false /\ docs s' = docs s /\
        Forall (fun ev => ev <> Called (CSave id)) t
    | Returned (tx, rc) =>
        let s0 := post (finalize_on_ledger id s) in
        let d := settlementRecordOf id m (hash tx) rc
                   (fst (Date_now (chain s0))) in
        o = Returned true /\
        docs s' = docs (post (save d (post (now_ms s0))))
    end).
Proof.
  assert (Hquiet : forall pre t,
             Forall (fun ev => ev <> Called (CSave id)) pre ->
             Forall silent t ->
             Forall (fun ev => ev <> Called (CSave id)) (pre ++ t)).
  { intros pre t Hpre Ht. apply Forall_app. split; [exact Hpre|].
    apply silent_not_save, Ht. }
  unfold settleMarket.
  exec. cbn [chain docs].
  destruct (fst (contract_estimateGas id (chain s))) as [g|e1] eqn:E1.
  2:{ apply settle_failure_run. intros t Ht.
      rewrite finalize_on_ledger_result, E1.
      repeat split. apply Hquiet; [|exact Ht].
      repeat constructor; discriminate. }
  exec. cbn [chain docs].
  destruct (fst (contract_releaseRewards id _ _)) as [tx|e2] eqn:E2.
  2:{ apply settle_failure_run. intros t Ht.
      rewrite finalize_on_ledger_result, E1. cbv zeta. rewrite E2.
      repeat split. apply Hquiet; [|exact Ht].
      repeat constructor; discriminate. }
  exec. cbn [chain docs].
  destruct (fst (tx_wait tx _)) as [rc|e3] eqn:E3.
  2:{ apply settle_failure_run. intros t Ht.
      rewrite finalize_on_ledger_result, E1. cbv zeta. rewrite E2, E3.
      repeat split. apply Hquiet; [|exact Ht].
      repeat constructor; discriminate. }
  assert (Hfin : result (finalize_on_ledger id s) = Returned (tx, rc)).
  { rewrite finalize_on_ledger_result, E1. cbv zeta. rewrite E2, E3.
    reflexivity. }
  destruct (finalize_on_ledger_post id s tx rc Hfin) as (g' & Hg' & Hpost).
  rewrite E1 in Hg'. injection Hg' as <-.
  exec. unfold storeSettlementRecord. exec. cbn [chain docs].
  rewrite Hfin. cbv zeta. rewrite Hpost.
  unfold runs at 1.
  destruct (result (save _ _)) as [[]|e4]; exec; split; reflexivity.
Qed.


(** A ledger step fails: [settleMarket] returns [false], and the store
    is not touched. *)
Lemma settleMarket_ledger_failure id m s e :
  result (finalize_on_ledger id s) = Thrown e ->
  result (settleMarket id m s) = Returned false /\
  docs (post (settleMarket id m s)) = docs s /\
  Forall (fun ev => ev <> Called (CSave id)) (trace (settleMarket id m s)).
Proof.
  intros He. pose proof (settleMarket_run id m s) as Hrun.
  unfold runs in Hrun. rewrite He in Hrun. exact Hrun.
Qed.

(** The ledger steps succeed: [settleMarket] returns [true], and the
    store is what [save] left, for the record built from the snapshot,
    the transaction and its receipt. *)
Lemma settleMarket_ledger_success id m s tx rc :
  result (finalize_on_ledger id s) = Returned (tx, rc) ->
  let s1 := post (now_ms (post (finalize_on_ledger id s))) in
  let d := settlementRecordOf id m (hash tx) rc
             (fst (Date_now (chain (post (finalize_on_ledger id s))))) in
  result (settleMarket id m s) = Returned true /\
  docs (post (settleMarket id m s)) = docs (post (save d s1)).
Proof.
  intros Hok. pose proof (settleMarket_run id m s) as Hrun.
  unfold runs in Hrun. rewrite Hok in Hrun. exact Hrun.
Qed.

Lemma finalize_on_ledger_docs id s :
  docs (post (finalize_on_ledger id s)) = docs s.
Proof.
  unfold finalize_on_ledger, bind, call, ret. run.
  destruct (fst (contract_estimateGas id (chain s))); run; [|reflexivity].
  destruct (fst (contract_releaseRewards id _ _)); run; [|reflexivity].
  destruct (fst (tx_wait _ _)); reflexivity.
Qed.

(** After [settleMarket] the store holds what it held, and at most one
    record more: the complete one. *)
Lemma settleMarket_docs id m s :
  docs (post (settleMarket id m s)) = docs s \/
  exists tx rc t,
    docs (post (settleMarket id m s)) = docs s ++ [settlementRecordOf id m tx rc t].
Proof.
  destruct (result (finalize_on_ledger id s)) as [[tx rc]|e] eqn:E.
  - destruct (settleMarket_ledger_success id m s tx rc E) as [_ ->].
    match goal with
    | |- context [save ?d ?s1] => pose proof (save_docs d s1) as Hs
    end.
    destruct (result (save _ _)); rewrite Hs; unfold now_ms; run;
      rewrite finalize_on_ledger_docs; [right|left; reflexivity].
    eexists _, _, _. reflexivity.
  - left. apply (settleMarket_ledger_failure id m s e E).
Qed.

Lemma settleMarket_calls id m s :
  calls (trace (settleMarket id m s)) = settle_calls id (chain s).
Proof.
  change (runs (settleMarket id m) s
            (fun _ _ t => calls t = settle_calls id (chain s))).
  unfold settleMarket, settle_calls.
  exec. cbn [chain docs].
  destruct (fst (contract_estimateGas id (chain s))) as [g|e1] eqn:E1.
  2:{ apply settle_failure_run. intros t Ht.
      rewrite calls_app, (calls_silent t Ht). reflexivity. }
  exec. cbn [chain docs]. cbv zeta.
  destruct (fst (contract_releaseRewards id _ _)) as [tx|e2] eqn:E2.
  2:{ apply settle_failure_run. intros t Ht.
      rewrite calls_app, (calls_silent t Ht). reflexivity. }
  exec. cbn [chain docs].
  destruct (fst (tx_wait tx _)) as [rc|e3] eqn:E3.
  2:{ apply settle_failure_run. intros t Ht.
      rewrite calls_app, (calls_silent t Ht). reflexivity. }
  exec. unfold storeSettlementRecord. exec. cbn [chain docs].
  apply runs_save; intros; exec; reflexivity.
Qed.

End SettleFacts.

(** ** What a scan does for a market that is due *)

Lemma grows_In (ds ds' : list SettlementRecord) (d : SettlementRecord) :
  grows ds ds' -> In d ds -> In d ds'.
Proof.
  induction 1 as [|ds' id m tx rc t _ IH _]; intros Hin; [exact Hin|].
  apply in_or_app. left. apply IH, Hin.
Qed.

Lemma In_calls (c : Call) (t : list Event) : In (Called c) t <-> In c (calls t).
Proof.
  unfold calls. rewrite in_flat_map. split.
  - intros Hin. exists (Called c). split; [exact Hin|left; reflexivity].
  - intros (ev & Hin & Hc). destruct ev as [c'|l]; [|destruct Hc].
    destruct Hc as [<-|[]]. exact Hin.
Qed.

Section ScanSettles.
Context {L : Type} `{Collaborators L}.

(** The state a scan over at least one market ends in is the one its
    loop ends in. *)
Lemma checkAndSettleMarkets_post (s : State L) (n : Z) :
  fst (contract_marketCount (chain s)) = Returned n -> n <> 0 ->
  post (checkAndSettleMarkets s)
  = post (scan_loop (Z.to_nat n) 0 0 (scan_start s)).
Proof.
  intros Hn Hpos. apply Z.eqb_neq in Hpos.
  unfold checkAndSettleMarkets, scan_start, try_catch, bind, call, console.
  run. rewrite Hn. run. rewrite Hpos. run.
  match goal with
  | |- context [scan_loop ?N 0 0 ?s1] =>
      destruct (total_scan_loop N 0 0 s1) as [c Hc]; rewrite Hc
  end.
  run. destruct (0 <? c); reflexivity.
Qed.

(** The loop, split after its first [k] iterations. *)
Lemma scan_loop_after k : forall j i c (s : State L),
  exists c',
    post (scan_loop (k + j) i c s)
    = post (scan_loop j (i + Z.of_nat k) c' (post (scan_loop k i c s))).
Proof.
  induction k as [|k IH]; intros j i c s.
  - exists c. cbn [Nat.add scan_loop ret post]. f_equal. f_equal. cbn. lia.
  - cbn [Nat.add scan_loop].
    destruct (total_processMarket i c s) as [c1 Hc1].
    rewrite !(bind_returned _ _ _ _ Hc1). cbn [post].
    destruct (IH j (i + 1) c1 (post (processMarket i c s))) as (c' & ->).
    exists c'. f_equal. f_equal. lia.
Qed.

(** The store after an iteration whose snapshot is active with no time
    left is the store [settleMarket] leaves. *)
Lemma processMarket_docs_due i c (s : State L) m :
  snapshot_read i s = Returned m -> isActive m = true ->
  JS.le (time_left m (clock_read i s)) JS.zero = true ->
  docs (post (processMarket i c s))
  = docs (post (settleMarket i m (after_reads i s))).
Proof.
  unfold snapshot_read, clock_read, clock_ms_read, after_reads.
  intros Hm Hon Hdue.
  unfold processMarket, now_seconds, try_catch, bind, call, now_ms, console, ret.
  run. rewrite Hm. run. rewrite Hon. run. cbv zeta. rewrite Hdue. run.
  match goal with
  | |- context [settleMarket i m ?s2] =>
      destruct (total_settleMarket i m s2) as [b Hb]; rewrite Hb
  end.
  run. reflexivity.
Qed.

(** What the store holds after iteration [k] of a scan, it holds at the
    end of the scan. *)
Lemma scan_keeps_iteration (s : State L) (n : Z) (k : nat)
    (d : SettlementRecord) :
  fst (contract_marketCount (chain s)) = Returned n ->
  (k < Z.to_nat n)%nat ->
  (forall c,
     In d (docs (post (processMarket (Z.of_nat k) c (before_iteration s k))))) ->
  In d (docs (post (checkAndSettleMarkets s))).
Proof.
  intros Hn Hk Hin.
  rewrite (checkAndSettleMarkets_post s n Hn) by lia.
  replace (Z.to_nat n) with (k + S (Z.to_nat n - S k))%nat by lia.
  destruct (scan_loop_after k (S (Z.to_nat n - S k)) 0 0 (scan_start s))
    as (c' & ->).
  fold (before_iteration s k). rewrite Z.add_0_l.
  cbn [scan_loop].
  destruct (total_processMarket (Z.of_nat k) c' (before_iteration s k))
    as [c1 Hc1].
  rewrite (bind_returned _ _ _ _ Hc1). cbn [post].
  eapply grows_In; [apply keeps_scan_loop|].
  apply Hin.
Qed.

(** The calls of [settleMarket] when the three ledger steps succeed. *)
Lemma settle_calls_confirmed id (s : State L) tx rc :
  result (finalize_on_ledger id s) = Returned (tx, rc) ->
  exists g,
    fst (contract_estimateGas id (chain s)) = Returned g /\
    settle_calls id (chain s)
    = [CEstimateGas id; CReleaseRewards id (Z.quot (g * 120) 100);
       CWait (hash tx); CSave id].
Proof.
  rewrite finalize_on_ledger_result. unfold settle_calls.
  destruct (fst (contract_estimateGas id (chain s))) as [g|e]; [|discriminate].
  cbv zeta.
  destruct (fst (contract_releaseRewards id _ _)) as [tx'|e]; [|discriminate].
  destruct (fst (tx_wait tx' _)) as [rc'|e]; [|discriminate].
  intros [= <- <-]. exists g. split; reflexivity.
Qed.

(** C6. Within one scan every index [0 .. marketCount-1] is fetched, in
    order, whatever fails for the markets before it (a failed fetch, a
    failed cost estimate, any failed settlement); and every market whose
    snapshot is active with [timeLeft <= 0] is settled in that scan: it
    is handed to [settleMarket], whose calls are those the ledger
    decides, each of them made within the scan, the cost estimate first.
    When the ledger accepts, these are the estimate, the submission of
    [releaseRewards] with the estimate and a fifth on top, the wait for
    its receipt and the [save] of the record; and when the [save]
    succeeds the record of the market is in the store at the end of the
    scan. *)
Theorem scan_visits_every_market (s : State L) (n : Z) :
  fst (contract_marketCount (chain s)) = Returned n ->
  fetches (trace (checkAndSettleMarkets s)) = zseq (Z.to_nat n) 0 /\
  forall (k : nat) (m : Market),
    (k < Z.to_nat n)%nat ->
    snapshot_read (Z.of_nat k) (before_iteration s k) = Returned m ->
    isActive m = true ->
    JS.le (time_left m (clock_read (Z.of_nat k) (before_iteration s k)))
          JS.zero = true ->
    (exists pre suf,
       trace (checkAndSettleMarkets s)
       = pre ++ trace (settleMarket (Z.of_nat k) m
                         (after_reads (Z.of_nat k) (before_iteration s k)))
             ++ suf) /\
    In (Called (CEstimateGas (Z.of_nat k))) (trace (checkAndSettleMarkets s)) /\
    let i := Z.of_nat k in
    let s1 := after_reads i (before_iteration s k) in
    calls (trace (settleMarket i m s1)) = settle_calls i (chain s1) /\
    (forall c, In c (settle_calls i (chain s1)) ->
               In (Called c) (trace (checkAndSettleMarkets s))) /\
    forall tx rc,
      result (finalize_on_ledger i s1) = Returned (tx, rc) ->
      let s0 := post (finalize_on_ledger i s1) in
      let d := settlementRecordOf i m (hash tx) rc (fst (Date_now (chain s0))) in
      (exists g,
         fst (contract_estimateGas i (chain s1)) = Returned g /\
         settle_calls i (chain s1)
         = [CEstimateGas i; CReleaseRewards i (Z.quot (g * 120) 100);
            CWait (hash tx); CSave i]) /\
      (result (save d (post (now_ms s0))) = Returned tt ->
       In d (docs (post (checkAndSettleMarkets s)))).
Proof.
  intros Hn.
  destruct (checkAndSettleMarkets_trace s n Hn) as (pre & suf & Hpre & Hsuf & Ht).
  split.
  - rewrite Ht, !fetches_app, scan_loop_fetches.
    rewrite (fetches_none pre), (fetches_none suf).
    + rewrite app_nil_r. reflexivity.
    + eapply Forall_impl; [|exact Hsuf]. apply quiet_no_fetch.
    + eapply Forall_impl; [|exact Hpre]. apply quiet_no_fetch.
  - intros k m Hk Hm Hon Hdue.
    destruct (scan_loop_iteration k (Z.to_nat n) 0 0 (scan_start s) Hk)
      as (c' & c'' & s'' & Hloop).
    fold (before_iteration s k) in Hloop.
    rewrite processMarket_trace in Hloop.
    change (0 + Z.of_nat k) with (Z.of_nat k) in Hloop.
    rewrite Hm, Hon in Hloop. cbn [negb] in Hloop. cbv zeta in Hloop.
    rewrite Hdue in Hloop.
    assert (Hseg : exists pre' suf',
               trace (checkAndSettleMarkets s)
               = pre' ++ trace (settleMarket (Z.of_nat k) m
                                  (after_reads (Z.of_nat k) (before_iteration s k)))
                      ++ suf').
    { rewrite Ht, Hloop.
      eexists (pre ++ trace (scan_loop k 0 0 (scan_start s)) ++ [_; _]), _.
      repeat rewrite <- app_assoc. cbn [app]. reflexivity. }
    assert (Hwithin : forall ev,
               In ev (trace (settleMarket (Z.of_nat k) m
                               (after_reads (Z.of_nat k) (before_iteration s k)))) ->
               In ev (trace (checkAndSettleMarkets s))).
    { intros ev Hev. destruct Hseg as (pre' & suf' & ->).
      apply in_or_app. right. apply in_or_app. left. exact Hev. }
    split; [exact Hseg|].
    split; [apply Hwithin, settleMarket_estimates|].
    cbv zeta.
    split; [apply settleMarket_calls|].
    split.
    + intros c Hc. apply Hwithin, In_calls.
      rewrite settleMarket_calls. exact Hc.
    + intros tx rc Hok.
      split; [exact (settle_calls_confirmed _ _ tx rc Hok)|].
      intros Hsave.
      apply (scan_keeps_iteration s n k _ Hn Hk). intros c.
      rewrite (processMarket_docs_due _ c _ m Hm Hon Hdue).
      destruct (settleMarket_ledger_success _ m _ tx rc Hok) as [_ ->].
      match goal with
      | |- context [save ?d ?s1] => pose proof (save_docs d s1) as Hs
      end.
      rewrite Hsave in Hs. rewrite Hs.
      apply in_or_app. right. left. reflexivity.
Qed.

End ScanSettles.

Section SettleTheorems.
Context {L : Type} `{Collaborators L}.

(** C3, as the code has it. [settleMarket] never throws.  When cost
    estimation, submission or confirmation fails it returns [false] and
    the store is as it was.  When the three succeed it returns [true]
    whether or not the record could be saved: a failed [save] is caught
    and logged inside [storeSettlementRecord], and then the store is as
    it was; a successful one adds the one complete record.  So the store
    afterwards is the store before, with the complete record or with
    nothing. *)
Theorem settleMarket_all_or_nothing (id : Z) (m : Market) (s : State L) :
  let r := settleMarket id m s in
  let s0 := post (finalize_on_ledger id s) in
  (exists b, result r = Returned b) /\
  (forall e, result (finalize_on_ledger id s) = Thrown e ->
     result r = Returned false /\ docs (post r) = docs s) /\
  (forall tx rc, result (finalize_on_ledger id s) = Returned (tx, rc) ->
     let d := settlementRecordOf id m (hash tx) rc (fst (Date_now (chain s0))) in
     result r = Returned true /\
     match result (save d (post (now_ms s0))) with
     | Returned _ => docs (post r) = docs s ++ [d]
     | Thrown _ => docs (post r) = docs s
     end) /\
  (docs (post r) = docs s \/
   exists tx rc t, docs (post r) = docs s ++ [settlementRecordOf id m tx rc t]).
Proof.
  cbv zeta. split; [apply total_settleMarket|].
  split; [|split].
  - intros e He. split; apply (settleMarket_ledger_failure id m s e He).
  - intros tx rc Hok.
    destruct (settleMarket_ledger_success id m s tx rc Hok) as [Hres Hdocs].
    split; [exact Hres|]. rewrite Hdocs.
    match goal with
    | |- context [save ?d ?s1] => pose proof (save_docs d s1) as Hs
    end.
    destruct (result (save _ _)); rewrite Hs; unfold now_ms; run;
      rewrite finalize_on_ledger_docs; reflexivity.
  - apply settleMarket_docs.
Qed.

(** C2, as the code has it. The engine does not look into the store
    before it finalizes: what [settleMarket] asks of the ledger is read
    off the ledger alone, and starts with the finalize action whatever
    the store holds.  At most one record per market id is kept by the
    unique index alone: a store with distinct ids has distinct ids after
    any [save], and so after [settleMarket], [manualSettle] and a scan. *)
Theorem unique_index_is_the_only_guard (id : Z) (m : Market) (s : State L) :
  calls (trace (settleMarket id m s)) = settle_calls id (chain s) /\
  In (Called (CEstimateGas id)) (trace (settleMarket id m s)) /\
  (unique_ids (docs s) ->
     (forall d, unique_ids (docs (post (save d s)))) /\
     unique_ids (docs (post (settleMarket id m s))) /\
     unique_ids (docs (post (manualSettle id s))) /\
     unique_ids (docs (post (checkAndSettleMarkets s)))).
Proof.
  split; [apply settleMarket_calls|].
  split; [apply settleMarket_estimates|].
  intros Hu. repeat split.
  - intros d. apply save_unique, Hu.
  - exact (grows_unique _ _ (keeps_settleMarket id m s) Hu).
  - exact (grows_unique _ _ (keeps_manualSettle id s) Hu).
  - exact (grows_unique _ _ (keeps_checkAndSettleMarkets s) Hu).
Qed.

(** What a computation that keeps the store adds has no participants,
    and no query by participant address finds it. *)
Lemma keeps_no_participants {A} (op : M L A) (s : State L) (addr : string) :
  keeps op ->
  exists added,
    docs (post (op s)) = docs s ++ added /\
    Forall (fun d => participants d = []) added /\
    user_settlements addr added = [] /\
    find_by_participant addr (docs (post (op s)))
    = find_by_participant addr (docs s).
Proof.
  intros Hk. destruct (grows_added _ _ (Hk s)) as (added & Hd & Hall).
  exists added. repeat split; try assumption.
  - unfold user_settlements.
    rewrite (find_by_participant_none addr added Hall). reflexivity.
  - rewrite Hd, find_by_participant_app,
      (find_by_participant_none addr added Hall), app_nil_r.
    reflexivity.
Qed.

(** C9. Every record the engine persists, through [settleMarket],
    [manualSettle] or a scan, has an empty [participants] list; the
    query of [/api/user-settlements/:address] finds none of them, and
    returns from the store after the engine wrote what it returned
    before. *)
Theorem engine_records_have_no_participants (s : State L) (addr : string) :
  (forall id m, exists added,
      docs (post (settleMarket id m s)) = docs s ++ added /\
      Forall (fun d => participants d = []) added /\
      user_settlements addr added = [] /\
      find_by_participant addr (docs (post (settleMarket id m s)))
      = find_by_participant addr (docs s)) /\
  (forall id, exists added,
      docs (post (manualSettle id s)) = docs s ++ added /\
      Forall (fun d => participants d = []) added /\
      user_settlements addr added = [] /\
      find_by_participant addr (docs (post (manualSettle id s)))
      = find_by_participant addr (docs s)) /\
  (exists added,
      docs (post (checkAndSettleMarkets s)) = docs s ++ added /\
      Forall (fun d => participants d = []) added /\
      user_settlements addr added = [] /\
      find_by_participant addr (docs (post (checkAndSettleMarkets s)))
      = find_by_participant addr (docs s)).
Proof.
  split; [|split].
  - intros id m. apply keeps_no_participants, keeps_settleMarket.
  - intros id. apply keeps_no_participants, keeps_manualSettle.
  - apply keeps_no_participants, keeps_checkAndSettleMarkets.
Qed.

End SettleTheorems.

(** * The control surface *)

Section ControlTheorems.
Context {L : Type} `{Collaborators L}.

Lemma manualSettle_result id (s : State L) :
  result (manualSettle id s) =
  match snapshot_read id s with
  | Thrown e => Thrown e
  | Returned m =>
      result (settleMarket id m
                (post (call (CGetMarket id) (contract_getMarket id) s)))
  end.
Proof.
  unfold manualSettle, snapshot_read, try_catch, bind, call, console, throw.
  run.
  destruct (fst (contract_getMarket id (chain s))) as [m|e]; run;
    [|reflexivity].
  match goal with
  | |- context [settleMarket id m ?s1] =>
      destruct (total_settleMarket id m s1) as [b Hb]; rewrite Hb
  end.
  run. reflexivity.
Qed.

(** C10, as the code has it. [manualSettle] throws exactly when the
    snapshot fetch fails, and then throws the error of the fetch.  After
    a successful fetch a failure of cost estimation, submission or
    confirmation is caught inside [settleMarket] and comes back as
    [false]; when those three succeed the result is [true], whether or
    not the record could be saved. *)
Theorem manualSettle_throws_iff_fetch_fails (id : Z) (s : State L) :
  let s1 := post (call (CGetMarket id) (contract_getMarket id) s) in
  (forall e, result (manualSettle id s) = Thrown e <->
             snapshot_read id s = Thrown e) /\
  (forall m, snapshot_read id s = Returned m ->
     (forall e, result (finalize_on_ledger id s1) = Thrown e ->
                result (manualSettle id s) = Returned false) /\
     (forall tx rc, result (finalize_on_ledger id s1) = Returned (tx, rc) ->
                    result (manualSettle id s) = Returned true)).
Proof.
  cbv zeta. split.
  - intros e. rewrite manualSettle_result.
    destruct (snapshot_read id s) as [m|e'].
    + match goal with
      | |- context [settleMarket id m ?s1] =>
          destruct (total_settleMarket id m s1) as [b Hb]; rewrite Hb
      end.
      split; discriminate.
    + split; intros [= ->]; reflexivity.
  - intros m Hm. rewrite manualSettle_result, Hm. split.
    + intros e He. apply (settleMarket_ledger_failure id m _ e He).
    + intros tx rc Hok. apply (settleMarket_ledger_success id m _ tx rc Hok).
Qed.

(** C7. The record [settleMarket] persists for a snapshot has
    [winnerSide] 'funny' exactly when its [yesVotes] is strictly greater
    than its [noVotes], the two tallies being the snapshot's as
    [Number]s, and 'lame' otherwise; equal tallies always give 'lame';
    and for tallies below [2^53] the comparison is that of the
    snapshot's integers. *)
Theorem winner_is_strict_majority (id : Z) (m : Market) (s : State L)
    (d : SettlementRecord) :
  In d (docs (post (settleMarket id m s))) ->
  ~ In d (docs s) ->
  rec_yesVotes d = JS.Number (yesVotes m) /\
  rec_noVotes d = JS.Number (noVotes m) /\
  (winnerSide d = funny <-> JS.gt (rec_yesVotes d) (rec_noVotes d) = true) /\
  (winnerSide d = lame <-> JS.gt (rec_yesVotes d) (rec_noVotes d) = false) /\
  (yesVotes m = noVotes m -> winnerSide d = lame) /\
  (0 <= yesVotes m < JS.two53 -> 0 <= noVotes m < JS.two53 ->
   (winnerSide d = funny <-> noVotes m < yesVotes m) /\
   (winnerSide d = lame <-> yesVotes m <= noVotes m)).
Proof.
  intros Hin Hnew.
  assert (Hd : exists tx rc t, d = settlementRecordOf id m tx rc t).
  { destruct (settleMarket_docs id m s) as [E|(tx & rc & t & E)];
      rewrite E in Hin; [contradiction|].
    apply in_app_or in Hin. destruct Hin as [Hin|[<-|[]]]; [contradiction|].
    eexists _, _, _. reflexivity. }
  destruct Hd as (tx & rc & t & ->).
  cbn [rec_yesVotes rec_noVotes winnerSide settlementRecordOf].
  split; [reflexivity|]. split; [reflexivity|].
  split; [|split; [|split]].
  - destruct (JS.gt _ _); split; congruence.
  - destruct (JS.gt _ _); split; congruence.
  - intros ->. rewrite JSFacts.gt_irrefl. reflexivity.
  - intros Hy Hn. rewrite (JSFacts.gt_Number _ _ Hy Hn).
    destruct (noVotes m <? yesVotes m) eqn:E.
    + apply Z.ltb_lt in E. split; split; intros; (reflexivity || lia || discriminate).
    + apply Z.ltb_ge in E. split; split; intros; (reflexivity || lia || discriminate).
Qed.

(** C8. [getSettlementStatus], when the fetch succeeds, returns the
    projection of the snapshot: the active flag, [timeLeft] as
    [Number(endTime) - now], and [readyForSettlement] as
    [timeLeft <= 0 && isActive]; it emits the fetch and nothing else,
    and leaves the store as it was.  So an active market with no time
    left is ready, and an inactive one is reported inactive and not
    ready.  For a deadline and a clock below [2^53], [timeLeft] is the
    integer [endTime - now], [now] being the clock in whole seconds, and
    the market is ready exactly when it is active and the deadline is not
    after [now]. *)
Theorem getSettlementStatus_projection (id : Z) (s : State L) (m : Market) :
  snapshot_read id s = Returned m ->
  exists st,
    result (getSettlementStatus id s) = Returned st /\
    st_marketId st = id /\
    st_isActive st = isActive m /\
    timeLeft st = JS.sub (JS.Number (endTime m)) (clock_read id s) /\
    readyForSettlement st = (JS.le (timeLeft st) JS.zero && st_isActive st) /\
    (isActive m = true -> JS.le (timeLeft st) JS.zero = true ->
     readyForSettlement st = true) /\
    (isActive m = false ->
     st_isActive st = false /\ readyForSettlement st = false) /\
    (0 <= endTime m < JS.two53 -> 0 <= clock_ms_read id s < JS.two53 ->
     let now := clock_ms_read id s / 1000 in
     JS.toInteger (timeLeft st) = Some (endTime m - now) /\
     readyForSettlement st = ((endTime m <=? now) && isActive m)) /\
    trace (getSettlementStatus id s) = [Called (CGetMarket id)] /\
    docs (post (getSettlementStatus id s)) = docs s.
Proof.
  intros Hm. unfold snapshot_read in Hm.
  unfold getSettlementStatus, clock_read, clock_ms_read, now_seconds,
    try_catch, bind, call, now_ms, ret.
  run. rewrite Hm. run.
  eexists. split; [reflexivity|].
  cbn [st_marketId st_isActive timeLeft readyForSettlement].
  split; [reflexivity|]. split; [reflexivity|]. split; [reflexivity|].
  split; [reflexivity|].
  split; [intros -> ->; reflexivity|].
  split; [|split; [|split; reflexivity]].
  - intros Hoff. split; [exact Hoff|]. rewrite Hoff. apply andb_false_r.
  - intros He Ht. cbv zeta.
    destruct (time_left_exact m _ He Ht) as (_ & Hint & Hle & _).
    split; [exact Hint|]. rewrite Hle. reflexivity.
Qed.

End ControlTheorems.

(** * The cron callback *)

Section SchedulerTheorems.
Context {L : Type}.
Variable scan : M L unit.

Lemma cron_step_invariant (sv : Service L) (i : Input) :
  lock_tracks_scan sv -> lock_tracks_scan (cron_step scan sv i).
Proof.
  unfold lock_tracks_scan. intros [Hle Hiff].
  destruct i; cbn [cron_step].
  - unfold on_tick. destruct (isRunning sv) eqn:E;
      cbn [isRunning inFlight].
    + split; [exact Hle|exact Hiff].
    + assert (inFlight sv <> 1%nat)
        by (intros H1; apply Hiff in H1; discriminate).
      split; [lia|]. split; intros; [lia|reflexivity].
  - unfold on_scan_exit. destruct (inFlight sv) as [|n] eqn:E.
    + rewrite E. split; [exact Hle|exact Hiff].
    + cbn [isRunning inFlight]. split; [lia|].
      split; intros; [discriminate|lia].
Qed.

Lemma cron_run_invariant (inputs : list Input) : forall (sv : Service L),
  lock_tracks_scan sv -> lock_tracks_scan (cron_run scan inputs sv).
Proof.
  induction inputs as [|i inputs IH]; intros sv Hsv; cbn [cron_run fold_left].
  - exact Hsv.
  - apply IH, cron_step_invariant, Hsv.
Qed.

(** C4. A tick that finds the flag set starts no scan and changes
    nothing but the console, where it logs the skip.  From a started
    service, after any sequence of ticks and scan exits, at most one scan
    is in flight, and the flag is set exactly when one is.  When a scan exits
    the flag is cleared, also when the scan throws, in which case the
    error is logged. *)
Theorem scans_never_overlap :
  (forall sv : Service L, isRunning sv = true ->
     cron_step scan sv Tick =
     {| isRunning := true; inFlight := inFlight sv; world := world sv;
        emitted := emitted sv ++ [Console LSkipping] |}) /\
  (forall inputs (w : State L),
     let sv := cron_run scan inputs (start (new_service w)) in
     (inFlight sv <= 1)%nat /\ (isRunning sv = true <-> inFlight sv = 1%nat)) /\
  (forall sv : Service L, inFlight sv <> 0%nat ->
     isRunning (cron_step scan sv ScanExit) = false /\
     inFlight (cron_step scan sv ScanExit) = pred (inFlight sv)) /\
  (forall (sv : Service L) e, inFlight sv <> 0%nat ->
     result (scan (world sv)) = Thrown e ->
     isRunning (cron_step scan sv ScanExit) = false /\
     emitted (cron_step scan sv ScanExit)
     = emitted sv ++ trace (scan (world sv)) ++ [Console (EAutoSettlement e)]).
Proof.
  split; [|split; [|split]].
  - intros sv Hrun. cbn [cron_step]. unfold on_tick. rewrite Hrun.
    reflexivity.
  - intros inputs w. cbv zeta.
    apply (cron_run_invariant inputs (start (new_service w))).
    unfold lock_tracks_scan, start, new_service. cbn [isRunning inFlight].
    split; [lia|]. split; intros; [discriminate|lia].
  - intros sv Hfl. cbn [cron_step]. unfold on_scan_exit.
    destruct (inFlight sv) as [|n]; [contradiction|].
    split; reflexivity.
  - intros sv e Hfl He. cbn [cron_step]. unfold on_scan_exit.
    destruct (inFlight sv) as [|n]; [contradiction|].
    cbn [isRunning emitted]. rewrite He. split; reflexivity.
Qed.

End SchedulerTheorems.

(** * On the reference ledger *)

(** C1 at 101 wei: 5 for the creator, 96 for the voters. *)
Example reward_split_of_101 :
  let d := settlementRecordOf 0 (Ref.market 1000 3 2 101 true) "0x5e771e"
             Ref.receipt42 2000000 in
  JS.toInteger (creatorReward d) = Some 5 /\
  JS.toInteger (voterRewards d) = Some 96.
Proof. vm_compute. split; reflexivity. Qed.

(** C1 at [2^53 + 1] wei. The record [settleMarket] persists keeps the
    stake exactly, and a reward split computed on [Number(totalStaked)]:
    the two rewards add up to [2^53], one wei short of the stake. *)
Theorem reward_split_loses_precision :
  let d := settlementRecordOf 0 Ref.large_stake "0x5e771e" Ref.receipt42 2000000 in
  docs (post (settleMarket 0 Ref.large_stake (Ref.fresh Ref.one_large))) = [d] /\
  rec_totalStaked d = 9007199254740993 /\
  JS.toInteger (creatorReward d) = Some 450359962737049 /\
  JS.toInteger (voterRewards d) = Some 8556839292003943 /\
  450359962737049 + 8556839292003943 = 9007199254740993 - 1.
Proof. vm_compute. repeat split; reflexivity. Qed.

(** C1 at 9007199254740979 wei, below [2^53]: [Number(totalStaked)] is
    exact and the two rewards add up to the stake, but the product with
    [0.05] rounds up to an integer, and the creator's reward is 1 wei
    above [floor(totalStaked * 5 / 100)]. *)
Example creator_reward_rounds_up :
  let stake := 9007199254740979 in
  let d := settlementRecordOf 0 (Ref.market 1000 3 2 stake true) "0x5e771e"
             Ref.receipt42 2000000 in
  stake < JS.two53 /\
  JS.toInteger (creatorReward d) = Some (stake * 5 / 100 + 1) /\
  JS.toInteger (voterRewards d) = Some (stake - (stake * 5 / 100 + 1)).
Proof. vm_compute. repeat split; reflexivity. Qed.

(** C1 at [2^57 + 304] wei: the creator's reward itself is off, 2 wei
    above [floor(totalStaked * 5 / 100)]. *)
Example creator_reward_above_the_floor :
  let stake := 2 ^ 57 + 304 in
  let d := settlementRecordOf 0 (Ref.market 1000 3 2 stake true) "0x5e771e"
             Ref.receipt42 2000000 in
  JS.toInteger (creatorReward d) = Some (stake * 5 / 100 + 2).
Proof. vm_compute. reflexivity. Qed.

(** C4 on the reference ledger: the second tick finds the scan of the
    first in flight and only logs the skip; one scan ran, it settled
    markets 0 and 3, and the flag is cleared. *)
Example second_tick_is_skipped :
  let sv := cron_run checkAndSettleMarkets [Tick; Tick; ScanExit]
              (start (new_service (Ref.fresh Ref.four_markets))) in
  isRunning sv = false /\ inFlight sv = 0%nat /\
  In (Console LSkipping) (emitted sv) /\
  List.length (filter (fun ev => match ev with
                                 | Console LChecking => true
                                 | _ => false
                                 end) (emitted sv)) = 1%nat /\
  map marketId (docs (world sv)) = [0; 3].
Proof.
  vm_compute. repeat split; try reflexivity.
  right. right. left. reflexivity.
Qed.

(** C2 as stated fails: a record for market 0 is in the store, and the
    scan estimates and submits the finalize action for market 0 again.
    The second [save] is refused by the unique index. *)
Lemma scan_finalizes_a_recorded_market :
  has_record 0 (docs Ref.already_recorded) = true /\
  calls (trace (checkAndSettleMarkets Ref.already_recorded))
  = [CMarketCount;
     CGetMarket 0; CEstimateGas 0; CReleaseRewards 0 120000;
     CWait "0x5e771e"; CSave 0;
     CGetMarket 1; CGetMarket 2;
     CGetMarket 3; CEstimateGas 3; CReleaseRewards 3 120000;
     CWait "0x5e771e"; CSave 3] /\
  map marketId (docs (post (checkAndSettleMarkets Ref.already_recorded)))
  = [0; 3].
Proof. vm_compute. repeat split; reflexivity. Qed.

(** C3 as stated fails: with the database down the record cannot be
    saved, and [settleMarket] returns [true]. *)
Lemma settleMarket_true_when_save_fails :
  let s := Ref.fresh Ref.db_down in
  let m := Ref.market 1000 3 2 101 true in
  let d := settlementRecordOf 0 m "0x5e771e" Ref.receipt42 2000000 in
  result (finalize_on_ledger 0 s) = Returned ({| hash := "0x5e771e" |}, Ref.receipt42) /\
  result (save d (post (now_ms (post (finalize_on_ledger 0 s)))))
  = Thrown {| message := "connection lost" |} /\
  result (settleMarket 0 m s) = Returned true /\
  docs (post (settleMarket 0 m s)) = [].
Proof. vm_compute. repeat split; reflexivity. Qed.

(** C10 as stated fails: the fetch succeeds, the record cannot be saved,
    and [manualSettle] returns [true], not [false]. *)
Lemma manualSettle_true_when_save_fails :
  let s := Ref.fresh Ref.db_down in
  snapshot_read 0 s = Returned (Ref.market 1000 3 2 101 true) /\
  result (manualSettle 0 s) = Returned true /\
  trace (manualSettle 0 s)
  = [Console (LManual 0); Called (CGetMarket 0);
     Console (LStats 0 (JS.Number 3) (JS.Number 2) 101 "0x123456...");
     Called (CEstimateGas 0); Console (LEstimatedGas 100000);
     Called (CReleaseRewards 0 120000); Console (LTxSent "0x5e771e");
     Called (CWait "0x5e771e"); Console (LSettled 0 42);
     Called (CSave 0);
     Console (EFailedStore 0 {| message := "connection lost" |})] /\
  docs (post (manualSettle 0 s)) = [].
Proof. vm_compute. repeat split; reflexivity. Qed.

(** C5: market 1 still runs, and the scan leaves it alone. *)
Lemma scan_skips_ineligible_witness :
  Forall (fun ev => finalizes 1 ev = false)
         (trace (checkAndSettleMarkets (Ref.fresh Ref.four_markets))).
Proof.
  apply (scan_skips_ineligible (Ref.fresh Ref.four_markets) 4 1
           (Ref.market 5000 1 1 500 true)).
  - reflexivity.
  - vm_compute. lia.
  - vm_compute. reflexivity.
  - right. split; [reflexivity|].
    apply future_deadline_has_time_left; vm_compute;
      [split; congruence|split; congruence|reflexivity].
Defined.

(** C6: the payout of market 0 reverts; markets 1, 2 and 3 are fetched
    all the same, and market 3, overdue and active, is settled: the scan
    estimates, submits [releaseRewards] with the limit 120000, waits for
    the receipt and saves the record, which the store then holds. *)
Lemma scan_visits_every_market_witness :
  let scan := checkAndSettleMarkets (Ref.fresh Ref.first_reverts) in
  fetches (trace scan) = [0; 1; 2; 3] /\
  In (Called (CEstimateGas 3)) (trace scan) /\
  In (Called (CReleaseRewards 3 120000)) (trace scan) /\
  In (Called (CWait "0x5e771e")) (trace scan) /\
  In (Called (CSave 3)) (trace scan) /\
  In (settlementRecordOf 3 (Ref.market 1500 2 2 700 true) "0x5e771e"
        Ref.receipt42 2000000)
     (docs (post scan)).
Proof.
  cbv zeta.
  assert (Hcount : fst (contract_marketCount (chain (Ref.fresh Ref.first_reverts)))
                   = Returned 4) by reflexivity.
  destruct (scan_visits_every_market (Ref.fresh Ref.first_reverts) 4 Hcount)
    as [Hfetch Hsettle].
  split; [exact Hfetch|].
  destruct (Hsettle 3%nat (Ref.market 1500 2 2 700 true))
    as (_ & Hest & _ & Hcalls & Hledger).
  - vm_compute. lia.
  - vm_compute. reflexivity.
  - reflexivity.
  - apply past_deadline_has_no_time_left; vm_compute;
      [split; congruence|split; congruence|congruence].
  - split; [exact Hest|].
    split; [apply Hcalls; vm_compute; right; left; reflexivity|].
    split; [apply Hcalls; vm_compute; right; right; left; reflexivity|].
    split; [apply Hcalls; vm_compute; right; right; right; left; reflexivity|].
    destruct (Hledger {| hash := "0x5e771e" |} Ref.receipt42) as [_ Hrecord].
    + vm_compute. reflexivity.
    + assert (Hnow : fst (Date_now (chain (post (finalize_on_ledger (Z.of_nat 3)
                       (after_reads (Z.of_nat 3)
                          (before_iteration (Ref.fresh Ref.first_reverts) 3))))))
                     = 2000000) by (vm_compute; reflexivity).
      rewrite Hnow in Hrecord. apply Hrecord. vm_compute. reflexivity.
Defined.

(** C7: three votes to two, 'funny'. *)
Lemma winner_is_strict_majority_witness :
  let d := settlementRecordOf 0 (Ref.market 1000 3 2 101 true) "0x5e771e"
             Ref.receipt42 2000000 in
  winnerSide d = funny <-> 2 < 3.
Proof.
  cbv zeta.
  refine (proj1 (proj2 (proj2 (proj2 (proj2 (proj2
    (winner_is_strict_majority 0 (Ref.market 1000 3 2 101 true)
       (Ref.fresh Ref.four_markets) _ _ _)))))
    _ _)).
  - vm_compute. left. reflexivity.
  - intros [].
  - vm_compute. split; [discriminate|reflexivity].
  - vm_compute. split; [discriminate|reflexivity].
Defined.

(** C8: market 0 is active and overdue: ready for settlement. *)
Lemma getSettlementStatus_projection_witness :
  exists st,
    result (getSettlementStatus 0 (Ref.fresh Ref.four_markets)) = Returned st /\
    st_isActive st = true /\ readyForSettlement st = true.
Proof.
  assert (Hsnap : snapshot_read 0 (Ref.fresh Ref.four_markets)
                  = Returned (Ref.market 1000 3 2 101 true)) by reflexivity.
  destruct (getSettlementStatus_projection 0 (Ref.fresh Ref.four_markets)
              (Ref.market 1000 3 2 101 true) Hsnap)
    as (st & Hres & _ & Hact & Hleft & _ & Hready & _).
  exists st. split; [exact Hres|]. split; [exact Hact|].
  apply Hready; [reflexivity|]. rewrite Hleft. vm_compute. reflexivity.
Defined.

(** * More on the scan and on settling by hand *)

Section ScanExtras.
Context {L : Type} `{Collaborators L}.

Lemma settleMarket_no_scan_error id m : emits no_scan_error (settleMarket id m).
Proof.
  unfold settleMarket, storeSettlementRecord, settle_failure_lines.
  step_emits; (unfold no_scan_error; intros; discriminate).
Qed.

Lemma processMarket_no_scan_error i c : emits no_scan_error (processMarket i c).
Proof.
  unfold processMarket, now_seconds.
  apply emits_try; [|intros e; step_emits; (unfold no_scan_error; intros; discriminate)].
  apply emits_bind; [apply emits_call; (unfold no_scan_error; intros; discriminate)|].
  intros m. destruct (negb (isActive m)); [apply emits_ret|].
  apply emits_bind; [step_emits|]. intros now.
  cbv zeta. destruct (JS.le _ JS.zero).
  - apply emits_bind; [apply emits_console; (unfold no_scan_error; intros; discriminate)|].
    intros _. apply emits_bind; [apply settleMarket_no_scan_error|].
    intros b. apply emits_ret.
  - step_emits. (unfold no_scan_error; intros; discriminate).
Qed.

Lemma scan_loop_no_scan_error n : forall i c, emits no_scan_error (scan_loop n i c).
Proof.
  induction n as [|n IH]; intros i c; cbn [scan_loop].
  - apply emits_ret.
  - apply emits_bind; [apply processMarket_no_scan_error|intros c'; apply IH].
Qed.

Lemma checkAndSettleMarkets_no_scan_error : emits no_scan_error checkAndSettleMarkets.
Proof.
  unfold checkAndSettleMarkets.
  apply emits_bind; [apply emits_console; (unfold no_scan_error; intros; discriminate)|]. intros _.
  apply emits_try; [|intros e; apply emits_console; (unfold no_scan_error; intros; discriminate)].
  apply emits_bind; [apply emits_call; (unfold no_scan_error; intros; discriminate)|]. intros n.
  apply emits_bind; [apply emits_console; (unfold no_scan_error; intros; discriminate)|]. intros _.
  destruct (n =? 0); [apply emits_console; (unfold no_scan_error; intros; discriminate)|].
  apply emits_bind; [apply scan_loop_no_scan_error|]. intros c.
  destruct (0 <? c); apply emits_console; (unfold no_scan_error; intros; discriminate).
Qed.

Lemma cron_step_no_scan_error (sv : Service L) (i : Input) :
  Forall no_scan_error (emitted sv) ->
  Forall no_scan_error (emitted (cron_step checkAndSettleMarkets sv i)).
Proof.
  intros Hsv. destruct i; cbn [cron_step].
  - unfold on_tick. destruct (isRunning sv); cbn [emitted]; [|exact Hsv].
    apply Forall_app. split; [exact Hsv|].
    constructor; [(unfold no_scan_error; intros; discriminate)|constructor].
  - unfold on_scan_exit. destruct (inFlight sv); [exact Hsv|].
    cbn [emitted].
    destruct (total_checkAndSettleMarkets (world sv)) as [u ->].
    rewrite app_nil_r. apply Forall_app. split; [exact Hsv|].
    apply checkAndSettleMarkets_no_scan_error.
Qed.

(** X1. A scan never rejects: [checkAndSettleMarkets] resolves whatever
    the contract, the clock and the database do, every failure being
    caught and logged inside it.  So the [catch] of the cron callback is
    never entered: after any sequence of ticks and scan exits of a
    started service the 'Auto-settlement error' line is not on the
    console. *)
Theorem scan_never_rejects :
  (forall s : State L, result (checkAndSettleMarkets s) = Returned tt) /\
  (forall (inputs : list Input) (w : State L) (e : Error),
     ~ In (Console (EAutoSettlement e))
          (emitted (cron_run checkAndSettleMarkets inputs (start (new_service w))))).
Proof.
  split.
  - intros s. destruct (total_checkAndSettleMarkets s) as [[] Hu]. exact Hu.
  - intros inputs w e.
    assert (Hall : forall sv : Service L,
               Forall no_scan_error (emitted sv) ->
               Forall no_scan_error
                 (emitted (cron_run checkAndSettleMarkets inputs sv))).
    { induction inputs as [|i inputs IH]; intros sv Hsv;
        cbn [cron_run fold_left]; [exact Hsv|].
      apply IH, cron_step_no_scan_error, Hsv. }
    assert (Hstart : Forall no_scan_error (emitted (start (new_service w)))).
    { cbn. repeat constructor; unfold no_scan_error; intros; discriminate. }
    pose proof (Hall _ Hstart) as Hrun.
    rewrite Forall_forall in Hrun.
    intros Hin. exact (Hrun _ Hin e eq_refl).
Qed.

End ScanExtras.

Lemma confirmed_app (t u : list Event) :
  confirmed (t ++ u) = confirmed t + confirmed u.
Proof.
  unfold confirmed. rewrite filter_app, length_app. lia.
Qed.

Lemma confirmed_cons (ev : Event) (t : list Event) :
  confirmed (ev :: t) = (if confirmation ev then 1 else 0) + confirmed t.
Proof.
  unfold confirmed. cbn [filter]. destruct (confirmation ev); cbn [List.length]; lia.
Qed.

Lemma confirmed_none (t : list Event) :
  Forall (fun ev => confirmation ev = false) t -> confirmed t = 0.
Proof.
  unfold confirmed. induction 1 as [|ev t Hev _ IH]; cbn [filter]; [reflexivity|].
  rewrite Hev. exact IH.
Qed.

Section SummaryFacts.
Context {L : Type} `{Collaborators L}.

Lemma settle_failure_unconfirmed id e (s : State L)
    (Q : outcome bool -> State L -> list Event -> Prop) :
  (forall t, Forall (fun ev => confirmation ev = false) t ->
             Q (Returned false) s t) ->
  runs (settle_failure_lines id e ;; ret false) s Q.
Proof.
  intros HQ. unfold settle_failure_lines. exec.
  repeat case_if; exec; apply HQ; repeat constructor.
Qed.

Lemma storeSettlementRecord_unconfirmed id m h rc :
  emits (fun ev => confirmation ev = false) (storeSettlementRecord id m h rc).
Proof. unfold storeSettlementRecord. step_emits; reflexivity. Qed.

(** [settleMarket] logs the confirmation exactly when it returns [true]. *)
Lemma settleMarket_confirmed id m (s : State L) :
  exists b, result (settleMarket id m s) = Returned b /\
            confirmed (trace (settleMarket id m s)) = if b then 1 else 0.
Proof.
  change (runs (settleMarket id m) s
            (fun o _ t => exists b, o = Returned b /\
                                    confirmed t = if b then 1 else 0)).
  unfold settleMarket.
  exec. cbn [chain docs].
  destruct (fst (contract_estimateGas id (chain s))) as [g|e1].
  2:{ apply settle_failure_unconfirmed. intros t Ht. exists false.
      split; [reflexivity|].
      rewrite confirmed_app, (confirmed_none t Ht). reflexivity. }
  exec. cbn [chain docs].
  destruct (fst (contract_releaseRewards id _ _)) as [tx|e2].
  2:{ apply settle_failure_unconfirmed. intros t Ht. exists false.
      split; [reflexivity|].
      rewrite confirmed_app, (confirmed_none t Ht). reflexivity. }
  exec. cbn [chain docs].
  destruct (fst (tx_wait tx _)) as [rc|e3].
  2:{ apply settle_failure_unconfirmed. intros t Ht. exists false.
      split; [reflexivity|].
      rewrite confirmed_app, (confirmed_none t Ht). reflexivity. }
  exec.
  match goal with
  | |- runs (storeSettlementRecord ?i ?mm ?h ?r) ?s1 _ =>
      unfold runs;
      destruct (total_storeSettlementRecord i mm h r s1) as [[] ->];
      pose proof (storeSettlementRecord_unconfirmed i mm h r s1) as Hst
  end.
  exec. exists true. split; [reflexivity|].
  rewrite !confirmed_app, (confirmed_none _ Hst). reflexivity.
Qed.

Lemma processMarket_counts i c (s : State L) :
  result (processMarket i c s)
  = Returned (c + confirmed (trace (processMarket i c s))).
Proof.
  rewrite processMarket_trace.
  unfold processMarket, snapshot_read, clock_read, clock_ms_read, after_reads,
    now_seconds, try_catch, bind, call, now_ms, console, ret.
  run.
  destruct (fst (contract_getMarket i (chain s))) as [m|e]; run;
    [|f_equal; cbn; lia].
  destruct (isActive m); run; [|f_equal; cbn; lia].
  cbv zeta.
  destruct (JS.le _ JS.zero); run; [|f_equal; cbn; lia].
  match goal with
  | |- context [settleMarket i m ?s2] =>
      destruct (settleMarket_confirmed i m s2) as (b & Hb & Hc); rewrite Hb
  end.
  run. f_equal.
  rewrite !confirmed_cons, Hc. cbn [confirmation]. destruct b; lia.
Qed.

Lemma scan_loop_counts n : forall i c (s : State L),
  result (scan_loop n i c s)
  = Returned (c + confirmed (trace (scan_loop n i c s))).
Proof.
  induction n as [|n IH]; intros i c s; cbn [scan_loop].
  - cbn. f_equal. lia.
  - pose proof (processMarket_counts i c s) as Hc1.
    rewrite (bind_returned _ _ _ _ Hc1). cbn [result trace].
    rewrite IH, confirmed_app. f_equal. lia.
Qed.

(** What a scan does, by what [marketCount] resolves to. *)
Lemma checkAndSettleMarkets_run (s : State L) :
  match fst (contract_marketCount (chain s)) with
  | Thrown e =>
      post (checkAndSettleMarkets s) = scan_start s /\
      trace (checkAndSettleMarkets s)
      = [Console LChecking; Called CMarketCount; Console (EFailedCheck e)]
  | Returned n =>
      if n =? 0
      then post (checkAndSettleMarkets s) = scan_start s /\
           trace (checkAndSettleMarkets s)
           = [Console LChecking; Called CMarketCount;
              Console (LTotalMarkets n); Console LNoMarkets]
      else
        let loop := scan_loop (Z.to_nat n) 0 0 (scan_start s) in
        post (checkAndSettleMarkets s) = post loop /\
        trace (checkAndSettleMarkets s)
        = [Console LChecking; Called CMarketCount; Console (LTotalMarkets n)]
          ++ trace loop
          ++ [Console (if 0 <? confirmed (trace loop)
                       then LSettledCount (confirmed (trace loop))
                       else LNoneReady)]
  end.
Proof.
  unfold checkAndSettleMarkets, scan_start, try_catch, bind, call, console.
  run.
  destruct (fst (contract_marketCount (chain s))) as [n|e]; run;
    [|split; reflexivity].
  destruct (n =? 0) eqn:E0; run; [split; reflexivity|].
  cbv zeta.
  match goal with
  | |- context [scan_loop ?N 0 0 ?s1] =>
      rewrite (scan_loop_counts N 0 0 s1)
  end.
  run. rewrite Z.add_0_l.
  destruct (0 <? _); run; split; reflexivity.
Qed.

End SummaryFacts.



Section ScanExtras2.
Context {L : Type} `{Collaborators L}.

(** X2. When [marketCount] rejects, or resolves to zero, the scan
    fetches no snapshot and finalizes nothing: it logs the failure, or
    that there is no market, leaves the collaborators as [marketCount]
    left them and the store as it was. *)
Theorem scan_without_markets (s : State L) :
  (forall n, fst (contract_marketCount (chain s)) = Returned n -> n = 0) ->
  trace (checkAndSettleMarkets s)
  = [Console LChecking; Called CMarketCount] ++
    match fst (contract_marketCount (chain s)) with
    | Returned _ => [Console (LTotalMarkets 0); Console LNoMarkets]
    | Thrown e => [Console (EFailedCheck e)]
    end /\
  chain (post (checkAndSettleMarkets s)) = snd (contract_marketCount (chain s)) /\
  docs (post (checkAndSettleMarkets s)) = docs s.
Proof.
  intros Hzero. pose proof (checkAndSettleMarkets_run s) as Hrun.
  destruct (fst (contract_marketCount (chain s))) as [n|e].
  - rewrite (Hzero n eq_refl) in Hrun. cbn [Z.eqb] in Hrun.
    destruct Hrun as [-> ->]. repeat split.
  - destruct Hrun as [-> ->]. repeat split.
Qed.

(** X3. The last line of a scan over at least one market reports the
    confirmations logged in that scan (the 'settled successfully' lines,
    one for each market whose transaction was confirmed): their number
    when there is one, 'No markets ready' when there is none. *)
Theorem scan_summary_counts_confirmations (s : State L) (n : Z) :
  fst (contract_marketCount (chain s)) = Returned n -> n <> 0 ->
  let k := confirmed (trace (checkAndSettleMarkets s)) in
  exists body,
    trace (checkAndSettleMarkets s)
    = body ++ [Console (if 0 <? k then LSettledCount k else LNoneReady)].
Proof.
  intros Hn Hpos. cbv zeta.
  pose proof (checkAndSettleMarkets_run s) as Hrun. rewrite Hn in Hrun.
  apply Z.eqb_neq in Hpos. rewrite Hpos in Hrun. cbv zeta in Hrun.
  destruct Hrun as [_ Ht].
  set (loop := trace (scan_loop (Z.to_nat n) 0 0 (scan_start s))) in *.
  assert (Hk : confirmed (trace (checkAndSettleMarkets s)) = confirmed loop).
  { rewrite Ht, !confirmed_app. cbn [app]. rewrite !confirmed_cons.
    destruct (0 <? confirmed loop); cbn; lia. }
  rewrite Hk. eexists. rewrite Ht, app_assoc. reflexivity.
Qed.

Lemma manualSettle_trace id (s : State L) m :
  snapshot_read id s = Returned m ->
  trace (manualSettle id s)
  = Console (LManual id) :: Called (CGetMarket id) ::
    trace (settleMarket id m
             (post (call (CGetMarket id) (contract_getMarket id) s))).
Proof.
  unfold snapshot_read. intros Hm.
  unfold manualSettle, try_catch, bind, call, console, throw.
  run. rewrite Hm. run.
  match goal with
  | |- context [settleMarket id m ?s1] =>
      destruct (total_settleMarket id m s1) as [b Hb]; rewrite Hb
  end.
  run. reflexivity.
Qed.

(** X5. [manualSettle] has no eligibility gate: once the snapshot is
    fetched it hands the market to [settleMarket] whatever the snapshot
    says, active or not, due or not.  The cost estimate is always asked
    for, and the calls after the fetch are those the ledger decides. *)
Theorem manualSettle_is_not_gated (id : Z) (s : State L) (m : Market) :
  snapshot_read id s = Returned m ->
  calls (trace (manualSettle id s))
  = CGetMarket id :: settle_calls id (snd (contract_getMarket id (chain s))) /\
  In (Called (CEstimateGas id)) (trace (manualSettle id s)).
Proof.
  intros Hm. rewrite (manualSettle_trace id s m Hm). split.
  - cbn [calls flat_map app]. fold (calls (trace (settleMarket id m
      (post (call (CGetMarket id) (contract_getMarket id) s))))).
    rewrite settleMarket_calls. reflexivity.
  - right. right. apply settleMarket_estimates.
Qed.

(** X4. A [releaseRewards] that [settleMarket] submits is for its own
    market, follows a cost estimate that succeeded, and carries as gas
    limit that estimate times 120 over 100 in BigInt division: for an
    estimate that is not negative, the estimate plus a fifth of it
    rounded down, never less than the estimate. *)
Theorem gas_limit_covers_estimate (id : Z) (m : Market) (s : State L)
    (i limit : Z) :
  In (Called (CReleaseRewards i limit)) (trace (settleMarket id m s)) ->
  i = id /\
  exists g, fst (contract_estimateGas id (chain s)) = Returned g /\
            limit = Z.quot (g * 120) 100 /\
            (0 <= g -> limit = g + g / 5 /\ g <= limit).
Proof.
  intros Hin. apply In_calls in Hin. rewrite settleMarket_calls in Hin.
  unfold settle_calls in Hin.
  destruct Hin as [Hin|Hin]; [discriminate|].
  destruct (fst (contract_estimateGas id (chain s))) as [g|e]; [|destruct Hin].
  cbv zeta in Hin.
  assert (Hsub : CReleaseRewards id (Z.quot (g * 120) 100)
                 = CReleaseRewards i limit).
  { destruct Hin as [Heq|Hin]; [exact Heq|].
    destruct (fst (contract_releaseRewards id _ _)); [|destruct Hin].
    destruct Hin as [Hin|Hin]; [discriminate|].
    destruct (fst (tx_wait _ _)); [|destruct Hin].
    destruct Hin as [Hin|[]]. discriminate. }
  injection Hsub as <- <-. split; [reflexivity|].
  exists g. split; [reflexivity|]. split; [reflexivity|].
  intros Hg. rewrite Z.quot_div_nonneg by lia.
  assert (g * 120 / 100 = g + g / 5).
  { pose proof (Z.div_mod g 5 ltac:(lia)) as Hdm.
    pose proof (Z.mod_pos_bound g 5 ltac:(lia)) as Hb.
    symmetry. apply Z.div_unique with (r := 20 * (g mod 5)); lia. }
  pose proof (Z.div_pos g 5 Hg ltac:(lia)). lia.
Qed.

End ScanExtras2.


Section RecordsOfAScan.
Context {L : Type} `{Collaborators L}.


(** An iteration adds no record, or the one record of its market. *)
Lemma processMarket_docs i c (s : State L) :
  docs (post (processMarket i c s)) = docs s \/
  exists m tx rc t,
    docs (post (processMarket i c s)) = docs s ++ [settlementRecordOf i m tx rc t].
Proof.
  unfold processMarket, now_seconds, try_catch, bind, call, now_ms, console, ret.
  run.
  destruct (fst (contract_getMarket i (chain s))) as [m|e]; run;
    [|left; reflexivity].
  destruct (isActive m); run; [|left; reflexivity].
  cbv zeta. destruct (JS.le _ JS.zero); run; [|left; reflexivity].
  match goal with
  | |- context [settleMarket i m ?s2] =>
      destruct (total_settleMarket i m s2) as [b Hb]; rewrite Hb;
      pose proof (settleMarket_docs i m s2) as Hd
  end.
  run. cbn [docs] in Hd.
  destruct Hd as [Hd|(tx & rc & t & Hd)]; [left; exact Hd|].
  right. exists m, tx, rc, t. exact Hd.
Qed.

Lemma scan_loop_docs n : forall i c (s : State L),
  exists added,
    docs (post (scan_loop n i c s)) = docs s ++ added /\
    StronglySorted Z.lt (map marketId added) /\
    Forall (fun d => i <= marketId d < i + Z.of_nat n) added.
Proof.
  induction n as [|n IH]; intros i c s; cbn [scan_loop].
  - exists []. cbn. rewrite app_nil_r.
    split; [reflexivity|]. split; constructor.
  - destruct (total_processMarket i c s) as [c1 Hc1].
    rewrite (bind_returned _ _ _ _ Hc1). cbn [post].
    destruct (IH (i + 1) c1 (post (processMarket i c s)))
      as (rest & -> & Hsorted & Hrange).
    assert (Hrange' : Forall (fun d => i <= marketId d < i + Z.of_nat (S n)) rest).
    { eapply Forall_impl; [|exact Hrange]. cbn beta. intros d Hd. lia. }
    destruct (processMarket_docs i c s) as [->|(m & tx & rc & t & ->)].
    + exists rest. repeat split; assumption.
    + exists (settlementRecordOf i m tx rc t :: rest).
      rewrite <- app_assoc. split; [reflexivity|]. split.
      * cbn [map]. constructor; [exact Hsorted|].
        rewrite Forall_map. eapply Forall_impl; [|exact Hrange].
        cbn beta. intros d Hd. cbn [marketId settlementRecordOf]. lia.
      * constructor; [|exact Hrange'].
        cbn [marketId settlementRecordOf]. lia.
Qed.

(** X6. What a scan adds to the store is in index order, at most one
    record for a market, each for an index below the [marketCount] the
    scan read. *)
Theorem scan_records_in_index_order (s : State L) :
  exists added,
    docs (post (checkAndSettleMarkets s)) = docs s ++ added /\
    StronglySorted Z.lt (map marketId added) /\
    forall d, In d added ->
      exists n, fst (contract_marketCount (chain s)) = Returned n /\
                0 <= marketId d < n.
Proof.
  pose proof (checkAndSettleMarkets_run s) as Hrun.
  destruct (fst (contract_marketCount (chain s))) as [n|e].
  - destruct (n =? 0) eqn:E0.
    + destruct Hrun as [-> _]. exists []. cbn. rewrite app_nil_r.
      split; [reflexivity|]. split; [constructor|intros d []].
    + cbv zeta in Hrun. destruct Hrun as [-> _].
      destruct (scan_loop_docs (Z.to_nat n) 0 0 (scan_start s))
        as (added & Hd & Hsorted & Hrange).
      exists added. split; [exact Hd|]. split; [exact Hsorted|].
      intros d Hin. exists n. split; [reflexivity|].
      rewrite Forall_forall in Hrange. specialize (Hrange d Hin).
      apply Z.eqb_neq in E0. lia.
  - destruct Hrun as [-> _]. exists []. cbn. rewrite app_nil_r.
    split; [reflexivity|]. split; [constructor|intros d []].
Qed.



End RecordsOfAScan.

(** * The HTTP routes *)

Ltac hrun :=
  cbn [answer after said service userVotes result post trace chain docs
       fst snd app negb andb orb map].

Lemma find_app_none {A} (f : A -> bool) (l l' : list A) :
  existsb f l = false -> find f (l ++ l') = find f l'.
Proof.
  induction l as [|a l IH]; cbn [existsb find app]; [reflexivity|].
  destruct (f a); cbn [orb]; [discriminate|exact IH].
Qed.

Lemma find_none_existsb {A} (f : A -> bool) (l : list A) :
  find f l = None <-> existsb f l = false.
Proof.
  induction l as [|a l IH]; cbn [existsb find]; [tauto|].
  destruct (f a); cbn [orb]; [split; discriminate|exact IH].
Qed.

Lemma In_insert_by_settledAt x d ds :
  In x (insert_by_settledAt d ds) <-> x = d \/ In x ds.
Proof.
  induction ds as [|d' ds IH]; cbn [insert_by_settledAt In].
  - intuition congruence.
  - destruct (JS.le (settledAt d') (settledAt d)); cbn [In].
    + intuition congruence.
    + rewrite IH. intuition congruence.
Qed.

Lemma In_sort_settledAt_desc x ds : In x (sort_settledAt_desc ds) <-> In x ds.
Proof.
  unfold sort_settledAt_desc.
  induction ds as [|d ds IH]; cbn [fold_right In]; [tauto|].
  rewrite In_insert_by_settledAt, IH. intuition congruence.
Qed.

Lemma In_user_settlements addr d ds :
  In d (user_settlements addr ds) <->
  In d ds /\
  existsb (fun p => String.eqb (address p) addr) (participants d) = true.
Proof.
  unfold user_settlements, find_by_participant.
  rewrite In_sort_settledAt_desc, filter_In. tauto.
Qed.

Section ReplyRules.
Context {L : Type}.

Lemma replies_and_then {A B} (m : Handler L A) (k : A -> Handler L B) b Q :
  replies m b (fun o b' t =>
    match o with
    | Returned a => replies (k a) b' (fun o' b'' t' => Q o' b'' (t ++ t'))
    | Thrown e => Q (Thrown e) b' t
    end) ->
  replies (and_then m k) b Q.
Proof.
  unfold replies, and_then. destruct (answer (m b)); cbn [answer after said]; auto.
Qed.

Lemma replies_attempt {A} (m : Handler L A) (h : Error -> Handler L A) b Q :
  replies m b (fun o b' t =>
    match o with
    | Returned a => Q (Returned a) b' t
    | Thrown e => replies (h e) b' (fun o' b'' t' => Q o' b'' (t ++ t'))
    end) ->
  replies (attempt m h) b Q.
Proof.
  unfold replies, attempt.
  destruct (answer (m b)) eqn:E; cbn [answer after said]; auto.
  rewrite E. auto.
Qed.

Lemma replies_print (n : Notice) b
    (Q : outcome unit -> Backend L -> list Entry -> Prop) :
  Q (Returned tt) b [Printed n] -> replies (print n) b Q.
Proof. auto. Qed.

Lemma replies_pure {A} (a : A) b
    (Q : outcome A -> Backend L -> list Entry -> Prop) :
  Q (Returned a) b [] -> replies (pure a) b Q.
Proof. auto. Qed.

Lemma replies_ask {A} (q : Query) (f : L -> outcome A * L) b Q :
  Q (fst (f (chain (service b))))
    {| service := {| chain := snd (f (chain (service b)));
                     docs := docs (service b) |};
       userVotes := userVotes b |}
    [Asked q] ->
  replies (ask q f) b Q.
Proof. auto. Qed.

End ReplyRules.

(** One step of a reply. *)
Ltac reply1 :=
  lazymatch goal with
  | |- replies (and_then _ _) _ _ => apply replies_and_then
  | |- replies (attempt _ _) _ _ => apply replies_attempt
  | |- replies (print _) _ _ => apply replies_print
  | |- replies (pure _) _ _ => apply replies_pure
  | |- replies (respond _ _) _ _ => apply replies_pure
  | |- replies (ask _ _) _ _ => apply replies_ask
  end;
  cbv beta iota.

Ltac reply := repeat reply1.

Section RouteTheorems.
Context {L : Type} `{Collaborators L} `{Relayer L}.
Local Open Scope http_scope.

Lemma getSettlementStatus_result id (s : State L) :
  result (getSettlementStatus id s) =
  match snapshot_read id s with
  | Thrown e => Thrown e
  | Returned m =>
      let timeLeft := time_left m (clock_read id s) in
      Returned {| st_marketId := id;
                  st_isActive := isActive m;
                  timeLeft := timeLeft;
                  readyForSettlement := JS.le timeLeft JS.zero && isActive m;
                  st_yesVotes := JS.Number (yesVotes m);
                  st_noVotes := JS.Number (noVotes m);
                  st_totalStaked := totalStaked m |}
  end.
Proof.
  unfold getSettlementStatus, snapshot_read, clock_read, clock_ms_read,
    now_seconds, try_catch, bind, call, now_ms, console, throw, ret.
  run. destruct (fst (contract_getMarket id (chain s))); reflexivity.
Qed.

Lemma getSettlementStatus_trace id (s : State L) :
  trace (getSettlementStatus id s) =
  Called (CGetMarket id) ::
  match snapshot_read id s with
  | Thrown e => [Console (EStatusFailed id e)]
  | Returned _ => []
  end.
Proof.
  unfold getSettlementStatus, snapshot_read, now_seconds, try_catch, bind,
    call, now_ms, console, throw, ret.
  run. destruct (fst (contract_getMarket id (chain s))); reflexivity.
Qed.

Lemma getSettlementStatus_docs id (s : State L) :
  docs (post (getSettlementStatus id s)) = docs s.
Proof.
  unfold getSettlementStatus, snapshot_read, now_seconds, try_catch, bind,
    call, now_ms, console, throw, ret.
  run. destruct (fst (contract_getMarket id (chain s))); reflexivity.
Qed.

Lemma manualSettle_post id (s : State L) m :
  snapshot_read id s = Returned m ->
  post (manualSettle id s)
  = post (settleMarket id m
            (post (call (CGetMarket id) (contract_getMarket id) s))).
Proof.
  unfold snapshot_read. intros Hm.
  unfold manualSettle, try_catch, bind, call, console, throw.
  run. rewrite Hm. run.
  match goal with
  | |- context [settleMarket id m ?s1] =>
      destruct (total_settleMarket id m s1) as [b Hb]; rewrite Hb
  end.
  run. reflexivity.
Qed.

Lemma manual_settle_after (marketId : string) (id : Z) (b : Backend L) :
  after (post_manual_settle marketId id b)
  = {| service := post (manualSettle id (service b)); userVotes := userVotes b |} /\
  exists t, said (post_manual_settle marketId id b)
            = Printed (NManualRequested marketId)
              :: map Engine (trace (manualSettle id (service b))) ++ t.
Proof.
  unfold post_manual_settle, attempt, and_then, await, print, respond, pure.
  hrun.
  destruct (result (manualSettle id (service b))) as [[|]|e]; hrun;
    (split; [reflexivity|eexists; reflexivity]).
Qed.

(** X7. [POST /api/manual-settle/:marketId] always answers: 500 with
    the error's message when the snapshot fetch fails; 400 when the fetch
    succeeds and cost estimation, submission or confirmation fails; 200
    when the three succeed, also when the record could not be saved.
    The process afterwards is the one [manualSettle] leaves. *)
Theorem manual_settle_answers (marketId : string) (id : Z) (b : Backend L) :
  let s := service b in
  let r := post_manual_settle marketId id b in
  after r = {| service := post (manualSettle id s); userVotes := userVotes b |} /\
  match snapshot_read id s with
  | Thrown e =>
      answer r = Returned {| code := 500;
                             json := JFailure "Settlement failed" (message e) |}
  | Returned _ =>
      match result (finalize_on_ledger id
                      (post (call (CGetMarket id) (contract_getMarket id) s)))
      with
      | Returned _ =>
          answer r = Returned
            {| code := 200;
               json := JMessage ("Market " ++ marketId ++ " settled successfully") |}
      | Thrown _ =>
          answer r = Returned
            {| code := 400;
               json := JMessage ("Failed to settle market " ++ marketId) |}
      end
  end.
Proof.
  cbv zeta. pose proof (manualSettle_result id (service b)) as Hres.
  unfold post_manual_settle, attempt, and_then, await, print, respond, pure.
  hrun.
  destruct (snapshot_read id (service b)) as [m|e].
  - set (s1 := post (call (CGetMarket id) (contract_getMarket id) (service b))) in *.
    destruct (result (finalize_on_ledger id s1)) as [[tx rc]|e] eqn:Efin.
    + destruct (settleMarket_ledger_success id m s1 tx rc Efin) as [Hok _].
      rewrite Hok in Hres. rewrite Hres. hrun. split; reflexivity.
    + destruct (settleMarket_ledger_failure id m s1 e Efin) as [Hno _].
      rewrite Hno in Hres. rewrite Hres. hrun. split; reflexivity.
  - rewrite Hres. hrun. split; reflexivity.
Qed.

(** X8. [GET /api/settlement-status/:marketId] answers 500 with the
    error's message when the snapshot fetch fails, and otherwise 200 with
    the projection of the snapshot; it leaves the store and the votes as
    they were, and the service emits the fetch and, when it fails, the
    error line, nothing else. *)
Theorem settlement_status_answers (id : Z) (b : Backend L) :
  let s := service b in
  let r := get_settlement_status id b in
  match snapshot_read id s with
  | Thrown e =>
      answer r = Returned {| code := 500; json := JMessage (message e) |}
  | Returned m =>
      answer r = Returned
        {| code := 200;
           json := JStatus
             {| st_marketId := id;
                st_isActive := isActive m;
                timeLeft := time_left m (clock_read id s);
                readyForSettlement :=
                  JS.le (time_left m (clock_read id s)) JS.zero && isActive m;
                st_yesVotes := JS.Number (yesVotes m);
                st_noVotes := JS.Number (noVotes m);
                st_totalStaked := totalStaked m |} |}
  end /\
  docs (service (after r)) = docs s /\
  userVotes (after r) = userVotes b /\
  forall ev, In (Engine ev) (said r) ->
    ev = Called (CGetMarket id) \/ exists e, ev = Console (EStatusFailed id e).
Proof.
  cbv zeta. pose proof (getSettlementStatus_result id (service b)) as Hres.
  pose proof (getSettlementStatus_trace id (service b)) as Htr.
  pose proof (getSettlementStatus_docs id (service b)) as Hdocs.
  unfold get_settlement_status, attempt, and_then, await, print, respond, pure.
  hrun. rewrite Hres, Htr.
  destruct (snapshot_read id (service b)) as [m|e]; hrun.
  - repeat split; try assumption.
    intros ev [[= <-]|[]]. left. reflexivity.
  - repeat split; try assumption.
    intros ev [[= <-]|[[= <-]|[Hin|[]]]]; [left; reflexivity| |discriminate].
    right. exists e. reflexivity.
Qed.

Lemma save_returned d (s : State L) :
  result (save d s) = Returned tt ->
  has_record (marketId d) (docs s) = false /\
  docs (post (save d s)) = docs s ++ [d].
Proof.
  unfold save. destruct (fst (db_fault d (chain s))); run; [discriminate|].
  destruct (has_record (marketId d) (docs s)); run; [discriminate|].
  intros _. split; reflexivity.
Qed.

Lemma get_settlement_reply (id : Z) (b : Backend L) :
  store_up (chain (service b)) ->
  answer (get_settlement id b) =
  Returned match find (fun d => marketId d =? id) (docs (service b)) with
           | None => {| code := 404; json := JMessage "Settlement not found" |}
           | Some d => {| code := 200; json := JRecord d |}
           end /\
  docs (service (after (get_settlement id b))) = docs (service b) /\
  userVotes (after (get_settlement id b)) = userVotes b.
Proof.
  unfold store_up. intros Hup.
  unfold get_settlement, SettlementRecord_findOne, attempt, and_then, reach,
    print, respond, pure.
  hrun. rewrite Hup. hrun.
  destruct (find _ (docs (service b))); hrun; repeat split.
Qed.

(** X10. With the database reachable, [GET /api/settlement/:marketId]
    answers 404 when no record has the id, and otherwise 200 with a
    record of that id from the store, the only one when the ids of the
    store are distinct; it changes neither the store nor the votes. *)
Theorem get_settlement_answers (id : Z) (b : Backend L) :
  store_up (chain (service b)) ->
  let r := get_settlement id b in
  (has_record id (docs (service b)) = false ->
   answer r = Returned {| code := 404; json := JMessage "Settlement not found" |}) /\
  (has_record id (docs (service b)) = true ->
   exists d, answer r = Returned {| code := 200; json := JRecord d |} /\
             In d (docs (service b)) /\ marketId d = id /\
             (unique_ids (docs (service b)) ->
              forall d', In d' (docs (service b)) -> marketId d' = id -> d' = d)) /\
  docs (service (after r)) = docs (service b) /\
  userVotes (after r) = userVotes b.
Proof.
  intros Hup. cbv zeta.
  destruct (get_settlement_reply id b Hup) as (Hans & Hdocs & Hvotes).
  split; [|split; [|split; assumption]].
  - intros Hnone. rewrite Hans.
    apply find_none_existsb in Hnone. rewrite Hnone. reflexivity.
  - intros Hsome. rewrite Hans.
    destruct (find _ (docs (service b))) as [d|] eqn:Ef.
    2:{ apply find_none_existsb in Ef. unfold has_record in Hsome. congruence. }
    exists d. split; [reflexivity|].
    apply find_some in Ef. destruct Ef as [Hin Hid]. apply Z.eqb_eq in Hid.
    split; [exact Hin|]. split; [exact Hid|].
    intros Hu d' Hin' Hid'. unfold unique_ids in Hu.
    revert Hu Hin Hin' Hid Hid'. generalize (docs (service b)).
    induction l as [|a l IH]; intros Hu Hin Hin' Hid Hid'; [destruct Hin|].
    cbn [map] in Hu. inversion Hu as [|? ? Hnot Hrest]; subst.
    destruct Hin as [->|Hin], Hin' as [->|Hin'].
    + reflexivity.
    + exfalso. apply Hnot. rewrite <- Hid'. apply in_map, Hin'.
    + exfalso. apply Hnot. rewrite Hid'. apply in_map, Hin.
    + apply IH; (assumption || reflexivity).
Qed.

(** X9. A market settled through [POST /api/manual-settle/:marketId]
    is served by [GET /api/settlement/:marketId]: when the fetch, the
    three ledger steps and the [save] succeed, the store gains the record
    built from the snapshot, the transaction and its receipt, and the
    lookup that follows answers 200 with that record. *)
Theorem settled_market_is_served (param : string) (id : Z) (b : Backend L)
    (m : Market) (tx : Tx) (rc : Receipt) :
  let s := service b in
  let s1 := post (call (CGetMarket id) (contract_getMarket id) s) in
  let s0 := post (finalize_on_ledger id s1) in
  let d := settlementRecordOf id m (hash tx) rc (fst (Date_now (chain s0))) in
  let b' := after (post_manual_settle param id b) in
  snapshot_read id s = Returned m ->
  result (finalize_on_ledger id s1) = Returned (tx, rc) ->
  result (save d (post (now_ms s0))) = Returned tt ->
  store_up (chain (service b')) ->
  docs (service b') = docs s ++ [d] /\
  answer (get_settlement id b') = Returned {| code := 200; json := JRecord d |}.
Proof.
  cbv zeta. intros Hm Hok Hsave Hup.
  assert (Hdocs : docs (service (after (post_manual_settle param id b)))
                  = docs (service b) ++
                    [settlementRecordOf id m (hash tx) rc
                       (fst (Date_now (chain (post (finalize_on_ledger id
                          (post (call (CGetMarket id) (contract_getMarket id)
                                   (service b))))))))]).
  { destruct (manual_settle_after param id b) as [-> _]. hrun.
    rewrite (manualSettle_post id (service b) m Hm).
    destruct (settleMarket_ledger_success id m _ tx rc Hok) as [_ ->].
    destruct (save_returned _ _ Hsave) as [_ ->].
    unfold now_ms. run. rewrite finalize_on_ledger_docs. reflexivity. }
  split; [exact Hdocs|].
  destruct (get_settlement_reply id _ Hup) as (-> & _).
  rewrite Hdocs. f_equal.
  destruct (save_returned _ _ Hsave) as [Hfree _].
  unfold now_ms in Hfree. cbn [post docs marketId settlementRecordOf] in Hfree.
  rewrite finalize_on_ledger_docs in Hfree. cbn [call post docs] in Hfree.
  rewrite (find_app_none _ _ _ Hfree). cbn [find marketId settlementRecordOf].
  rewrite Z.eqb_refl. reflexivity.
Qed.

Lemma said_and_then {A B} (m : Handler L A) (k : A -> Handler L B) (b : Backend L) :
  exists rest, said (and_then m k b) = said (m b) ++ rest.
Proof.
  unfold and_then. destruct (answer (m b)); hrun.
  - eexists. reflexivity.
  - exists []. rewrite app_nil_r. reflexivity.
Qed.

Lemma said_attempt {A} (m : Handler L A) (h : Error -> Handler L A) (b : Backend L) :
  exists rest, said (attempt m h b) = said (m b) ++ rest.
Proof.
  unfold attempt. destruct (answer (m b)); hrun.
  - exists []. rewrite app_nil_r. reflexivity.
  - eexists. reflexivity.
Qed.

(** [UserVote.findOne] and [save()] with the database reachable. *)
Lemma UserVote_findOne_up u i (b : Backend L) :
  store_up (chain (service b)) ->
  UserVote_findOne u i b
  = {| answer := Returned (find (voted u i) (userVotes b));
       after := {| service := {| chain := snd (store_fault (chain (service b)));
                                 docs := docs (service b) |};
                   userVotes := userVotes b |};
       said := [Asked (QFindVote u i)] |}.
Proof.
  unfold store_up. intros Hup.
  unfold UserVote_findOne, reach, and_then, pure. hrun. rewrite Hup. reflexivity.
Qed.

Lemma UserVote_save_up u i v sd h (b : Backend L) :
  Side_of v = Some sd ->
  let c1 := snd (Date_now (chain (service b))) in
  let b' := {| chain := snd (store_fault c1); docs := docs (service b) |} in
  store_up c1 ->
  UserVote_save u i v h b
  = if existsb (voted u i) (userVotes b)
    then {| answer := Thrown E11000_vote;
            after := {| service := b'; userVotes := userVotes b |};
            said := [Asked (QSaveVote u i)] |}
    else {| answer := Returned tt;
            after := {| service := b';
                        userVotes := userVotes b ++
                          [{| userAddress := u; uv_marketId := i; uv_vote := sd;
                              stakeAmount := default_stakeAmount;
                              transactionHash := h;
                              votedAt := fst (Date_now (chain (service b))) |}] |};
            said := [Asked (QSaveVote u i)] |}.
Proof.
  cbv zeta. unfold store_up. intros Hsd Hup.
  unfold UserVote_save. rewrite Hsd.
  unfold reach, and_then, await, now_ms, pure, raise. hrun. rewrite Hup. hrun.
  destruct (existsb (voted u i) (userVotes b)); reflexivity.
Qed.

(** X11. [POST /api/user-vote] and [POST /api/relay] refuse a body with
    a missing field with 400 before they do anything: no collaborator is
    called and the process is as it was.  An empty [userAddress] or
    [vote] counts as missing; a [marketId] of 0 and a [voteYes] of
    [false] do not: the relay goes on to the cost estimate. *)
Theorem incomplete_bodies_are_refused (b : Backend L) :
  let refused := {| answer := Returned {| code := 400;
                                           json := JMessage "Missing required parameters" |};
                    after := b; said := [] |} in
  (forall body,
     absent_or_empty (vb_userAddress body) \/ vb_marketId body = None \/
     absent_or_empty (vb_vote body) ->
     post_user_vote body b = refused) /\
  (forall body,
     absent_or_empty (rb_userAddress body) \/ rb_marketId body = None \/
     rb_voteYes body = None ->
     post_relay body b = refused) /\
  (forall u, u <> ""%string ->
     exists rest,
       said (post_relay {| rb_userAddress := Some u; rb_marketId := Some 0;
                           rb_voteYes := Some false |} b)
       = Asked (QEstimateVote u 0 false voteCost) :: rest).
Proof.
  cbv zeta. split; [|split].
  - intros [[u|] [i|] [v|] h]; unfold absent_or_empty, post_user_vote;
      cbn [vb_userAddress vb_marketId vb_vote];
      intros [[Hu|Hu]|[Hi|[Hv|Hv]]]; try discriminate; try reflexivity.
    + injection Hu as ->. reflexivity.
    + injection Hv as ->. rewrite orb_true_r. reflexivity.
  - intros [[u|] [i|] [y|]]; unfold absent_or_empty, post_relay;
      cbn [rb_userAddress rb_marketId rb_voteYes];
      intros [[Hu|Hu]|[Hi|Hy]]; try discriminate; try reflexivity.
    all: injection Hu as ->; reflexivity.
  - intros u Hu. unfold post_relay. cbn [rb_userAddress rb_marketId rb_voteYes].
    apply String.eqb_neq in Hu. rewrite Hu.
    match goal with
    | |- context [attempt ?m ?h b] =>
        destruct (said_attempt m h b) as (rest & ->)
    end.
    match goal with
    | |- context [and_then ?m ?k b] =>
        destruct (said_and_then m k b) as (rest' & ->)
    end.
    exists (rest' ++ rest). reflexivity.
Qed.

Lemma voted_refl u i sd st h t :
  voted u i {| userAddress := u; uv_marketId := i; uv_vote := sd;
               stakeAmount := st; transactionHash := h; votedAt := t |} = true.
Proof.
  unfold voted. cbn [userAddress uv_marketId].
  rewrite String.eqb_refl, Z.eqb_refl. reflexivity.
Qed.

(** A vote on a pair already taken is answered 400, and nothing is
    written. *)
Lemma second_vote_is_refused (b : Backend L) u i v h :
  u <> ""%string -> v <> ""%string ->
  existsb (voted u i) (userVotes b) = true ->
  store_up (chain (service b)) ->
  let r := post_user_vote {| vb_userAddress := Some u; vb_marketId := Some i;
                             vb_vote := Some v; vb_transactionHash := h |} b in
  answer r = Returned {| code := 400;
                         json := JMessage "User already voted on this market" |} /\
  userVotes (after r) = userVotes b /\
  docs (service (after r)) = docs (service b).
Proof.
  intros Hu Hv Hex Hup. cbv zeta. unfold store_up in Hup.
  unfold post_user_vote. cbn [vb_userAddress vb_marketId vb_vote].
  apply String.eqb_neq in Hu, Hv. rewrite Hu, Hv. cbn [orb].
  unfold attempt, and_then. rewrite (UserVote_findOne_up u i b Hup). hrun.
  destruct (find (voted u i) (userVotes b)) eqn:Ef.
  - unfold respond, pure. hrun. repeat split.
  - apply find_none_existsb in Ef. congruence.
Qed.

Lemma Side_of_nonempty v sd : Side_of v = Some sd -> v <> ""%string.
Proof. intros Hs ->. discriminate. Qed.

(** X12. [POST /api/user-vote] records a vote once.  A vote on a pair
    (user, market) not yet in the store, with a [vote] of the enum and
    the database reachable, is answered 200 and appended to the store
    with the schema's defaults; the same request again is answered 400
    and leaves the store as it is. *)
Theorem vote_is_recorded_once (b : Backend L) (u : string) (i : Z)
    (v : string) (sd : Side) (h : option string) :
  let body := {| vb_userAddress := Some u; vb_marketId := Some i;
                 vb_vote := Some v; vb_transactionHash := h |} in
  let c1 := snd (store_fault (chain (service b))) in
  let cast := {| userAddress := u; uv_marketId := i; uv_vote := sd;
                 stakeAmount := default_stakeAmount; transactionHash := h;
                 votedAt := fst (Date_now c1) |} in
  let r := post_user_vote body b in
  u <> ""%string -> Side_of v = Some sd ->
  existsb (voted u i) (userVotes b) = false ->
  store_up (chain (service b)) -> store_up (snd (Date_now c1)) ->
  answer r = Returned {| code := 200;
                         json := JMessage "Vote recorded successfully" |} /\
  userVotes (after r) = userVotes b ++ [cast] /\
  docs (service (after r)) = docs (service b) /\
  (store_up (chain (service (after r))) ->
   answer (post_user_vote body (after r))
   = Returned {| code := 400;
                 json := JMessage "User already voted on this market" |} /\
   userVotes (after (post_user_vote body (after r))) = userVotes (after r)).
Proof.
  cbv zeta. intros Hu Hsd Hfree Hup1 Hup2.
  pose proof (Side_of_nonempty v sd Hsd) as Hv.
  assert (Hfirst :
    answer (post_user_vote {| vb_userAddress := Some u; vb_marketId := Some i;
                              vb_vote := Some v; vb_transactionHash := h |} b)
    = Returned {| code := 200; json := JMessage "Vote recorded successfully" |} /\
    userVotes (after (post_user_vote
                        {| vb_userAddress := Some u; vb_marketId := Some i;
                           vb_vote := Some v; vb_transactionHash := h |} b))
    = userVotes b ++
      [{| userAddress := u; uv_marketId := i; uv_vote := sd;
          stakeAmount := default_stakeAmount; transactionHash := h;
          votedAt := fst (Date_now (snd (store_fault (chain (service b))))) |}] /\
    docs (service (after (post_user_vote
                        {| vb_userAddress := Some u; vb_marketId := Some i;
                           vb_vote := Some v; vb_transactionHash := h |} b)))
    = docs (service b)).
  { unfold post_user_vote.
    cbn [vb_userAddress vb_marketId vb_vote vb_transactionHash].
    apply String.eqb_neq in Hu, Hv. rewrite Hu, Hv. cbn [orb].
    unfold attempt, and_then. rewrite (UserVote_findOne_up u i b Hup1). hrun.
    pose proof Hfree as Hnone. apply find_none_existsb in Hnone.
    rewrite Hnone.
    rewrite (UserVote_save_up u i v sd h
               {| service := {| chain := snd (store_fault (chain (service b)));
                                docs := docs (service b) |};
                  userVotes := userVotes b |} Hsd Hup2). hrun.
    rewrite Hfree. unfold respond, pure. hrun. repeat split. }
  destruct Hfirst as (Hans & Hvotes & Hdocs).
  split; [exact Hans|]. split; [exact Hvotes|]. split; [exact Hdocs|].
  intros Hup3.
  destruct (second_vote_is_refused
              (after (post_user_vote
                        {| vb_userAddress := Some u; vb_marketId := Some i;
                           vb_vote := Some v; vb_transactionHash := h |} b))
              u i v h Hu Hv) as (Hsecond & Hsame & _);
    [|exact Hup3|split; assumption].
  rewrite Hvotes, existsb_app. cbn [existsb].
  rewrite voted_refl. rewrite orb_true_r. reflexivity.
Qed.

(** What [POST /api/relay] does when the ledger accepts the vote and the
    database is reachable. *)
Lemma relay_run (b : Backend L) (u : string) (i : Z) (yes : bool) (g : Z)
    (tx : Tx) :
  let c0 := chain (service b) in
  let c1 := snd (vote_estimateGas u i yes voteCost c0) in
  let c2 := snd (contract_vote u i yes voteCost g c1) in
  let s3 := {| chain := snd (store_fault (snd (Date_now c2)));
               docs := docs (service b) |} in
  let sent := [Asked (QEstimateVote u i yes voteCost);
               Asked (QVote u i yes voteCost g);
               Printed (NVoteSent (hash tx));
               Asked (QSaveVote u i)] in
  u <> ""%string ->
  fst (vote_estimateGas u i yes voteCost c0) = Returned g ->
  fst (contract_vote u i yes voteCost g c1) = Returned tx ->
  store_up (snd (Date_now c2)) ->
  post_relay {| rb_userAddress := Some u; rb_marketId := Some i;
                rb_voteYes := Some yes |} b
  = if existsb (voted u i) (userVotes b)
    then {| answer := Returned
              {| code := 500;
                 json := JFailure "Failed to relay vote" (message E11000_vote) |};
            after := {| service := s3; userVotes := userVotes b |};
            said := sent ++ [Printed (NRelayFailed E11000_vote)] |}
    else {| answer := Returned
              {| code := 200;
                 json := JRelayed "Vote relayed successfully" (hash tx) |};
            after := {| service := s3;
                        userVotes := userVotes b ++
                          [{| userAddress := u; uv_marketId := i;
                              uv_vote := side_of_voteYes yes;
                              stakeAmount := default_stakeAmount;
                              transactionHash := Some (hash tx);
                              votedAt := fst (Date_now c2) |}] |};
            said := sent |}.
Proof.
  cbv zeta. intros Hu Hest Hvote Hup.
  unfold post_relay. cbn [rb_userAddress rb_marketId rb_voteYes].
  apply String.eqb_neq in Hu. rewrite Hu.
  unfold attempt, and_then, ask. hrun. rewrite Hest. hrun. rewrite Hvote.
  unfold print. hrun.
  assert (Hside : Side_of (if yes then "funny" else "lame")
                  = Some (side_of_voteYes yes)) by (destruct yes; reflexivity).
  rewrite (UserVote_save_up u i _ _ (Some (hash tx))
             {| service := {| chain := snd (contract_vote u i yes voteCost g
                                  (snd (vote_estimateGas u i yes voteCost
                                          (chain (service b)))));
                              docs := docs (service b) |};
                userVotes := userVotes b |} Hside Hup).
  hrun. unfold respond, pure.
  destruct (existsb (voted u i) (userVotes b)); reflexivity.
Qed.

(** X13. [POST /api/relay] records the vote it sent: when the contract
    accepts the vote, the database is reachable and the pair (user,
    market) is not yet in the store, the answer is 200 with the hash of
    the transaction, which was submitted with the value of 0.0001 ether
    and the estimate as gas limit, and the store gains the vote with that
    hash, 'funny' for [voteYes] and 'lame' otherwise. *)
Theorem relay_records_the_vote_it_sent (b : Backend L) (u : string) (i : Z)
    (yes : bool) (g : Z) (tx : Tx) :
  let body := {| rb_userAddress := Some u; rb_marketId := Some i;
                 rb_voteYes := Some yes |} in
  let c0 := chain (service b) in
  let c1 := snd (vote_estimateGas u i yes voteCost c0) in
  let c2 := snd (contract_vote u i yes voteCost g c1) in
  let r := post_relay body b in
  u <> ""%string ->
  fst (vote_estimateGas u i yes voteCost c0) = Returned g ->
  fst (contract_vote u i yes voteCost g c1) = Returned tx ->
  store_up (snd (Date_now c2)) ->
  existsb (voted u i) (userVotes b) = false ->
  answer r = Returned {| code := 200;
                         json := JRelayed "Vote relayed successfully" (hash tx) |} /\
  userVotes (after r)
  = userVotes b ++ [{| userAddress := u; uv_marketId := i;
                       uv_vote := if yes then funny else lame;
                       stakeAmount := default_stakeAmount;
                       transactionHash := Some (hash tx);
                       votedAt := fst (Date_now c2) |}] /\
  said r = [Asked (QEstimateVote u i yes voteCost);
            Asked (QVote u i yes voteCost g);
            Printed (NVoteSent (hash tx));
            Asked (QSaveVote u i)].
Proof.
  cbv zeta. intros Hu Hest Hvote Hup Hfree.
  rewrite (relay_run b u i yes g tx Hu Hest Hvote Hup), Hfree.
  repeat split.
Qed.

(** X14. [POST /api/relay] does not look into the store before it
    sends: for a pair (user, market) already recorded the vote is
    estimated and submitted to the contract all the same, the [save] is
    then refused by the unique index, the answer is 500 and the store is
    as it was. *)
Theorem relay_sends_before_it_looks (b : Backend L) (u : string) (i : Z)
    (yes : bool) (g : Z) (tx : Tx) :
  let body := {| rb_userAddress := Some u; rb_marketId := Some i;
                 rb_voteYes := Some yes |} in
  let c0 := chain (service b) in
  let c1 := snd (vote_estimateGas u i yes voteCost c0) in
  let c2 := snd (contract_vote u i yes voteCost g c1) in
  let r := post_relay body b in
  u <> ""%string ->
  fst (vote_estimateGas u i yes voteCost c0) = Returned g ->
  fst (contract_vote u i yes voteCost g c1) = Returned tx ->
  store_up (snd (Date_now c2)) ->
  existsb (voted u i) (userVotes b) = true ->
  answer r = Returned {| code := 500;
                         json := JFailure "Failed to relay vote"
                                   (message E11000_vote) |} /\
  userVotes (after r) = userVotes b /\
  said r = [Asked (QEstimateVote u i yes voteCost);
            Asked (QVote u i yes voteCost g);
            Printed (NVoteSent (hash tx));
            Asked (QSaveVote u i);
            Printed (NRelayFailed E11000_vote)].
Proof.
  cbv zeta. intros Hu Hest Hvote Hup Htaken.
  rewrite (relay_run b u i yes g tx Hu Hest Hvote Hup), Htaken.
  repeat split.
Qed.

(** X15. [GET /api/faucet/:address] transfers only to the address asked
    for, 0.1 ether, and only when [GasModel.findOne] found no document
    for it; when it found one the answer is 200 'Already given' after
    that one query.  'Sent tokens' is answered only after the transfer
    was sent, confirmed and the document saved, in that order.  The
    [SettlementRecord] and [UserVote] collections are not touched. *)
Theorem faucet_pays_an_unrecorded_address_once (addr : string) (b : Backend L) :
  let c0 := chain (service b) in
  let r := get_faucet addr b in
  (fst (GasModel_findOne addr c0) = Returned true ->
   answer r = Returned {| code := 200;
                          json := JMessage "Already given some testnet tokens" |} /\
   chain (service (after r)) = snd (GasModel_findOne addr c0) /\
   said r = [Asked (QFindGas addr)]) /\
  (answer r = Returned {| code := 200; json := JMessage "Sent tokens" |} ->
   exists tx,
     fst (GasModel_findOne addr c0) = Returned false /\
     fst (wallet_sendTransaction addr faucetAmount
            (snd (GasModel_findOne addr c0))) = Returned tx /\
     said r = [Asked (QFindGas addr); Asked (QSend addr faucetAmount);
               Asked (QWait (hash tx)); Asked (QSaveGas addr)]) /\
  (forall dest value, In (Asked (QSend dest value)) (said r) ->
     dest = addr /\ value = faucetAmount /\
     fst (GasModel_findOne addr c0) = Returned false) /\
  docs (service (after r)) = docs (service b) /\
  userVotes (after r) = userVotes b.
Proof.
  cbv zeta.
  change (replies (get_faucet addr) b (fun o b' t =>
    (fst (GasModel_findOne addr (chain (service b))) = Returned true ->
     o = Returned {| code := 200;
                     json := JMessage "Already given some testnet tokens" |} /\
     chain (service b') = snd (GasModel_findOne addr (chain (service b))) /\
     t = [Asked (QFindGas addr)]) /\
    (o = Returned {| code := 200; json := JMessage "Sent tokens" |} ->
     exists tx,
       fst (GasModel_findOne addr (chain (service b))) = Returned false /\
       fst (wallet_sendTransaction addr faucetAmount
              (snd (GasModel_findOne addr (chain (service b))))) = Returned tx /\
       t = [Asked (QFindGas addr); Asked (QSend addr faucetAmount);
            Asked (QWait (hash tx)); Asked (QSaveGas addr)]) /\
    (forall dest value, In (Asked (QSend dest value)) t ->
       dest = addr /\ value = faucetAmount /\
       fst (GasModel_findOne addr (chain (service b))) = Returned false) /\
    docs (service b') = docs (service b) /\
    userVotes b' = userVotes b)).
  unfold get_faucet. reply. hrun.
  destruct (fst (GasModel_findOne addr (chain (service b)))) as [[|]|e];
    cbn [negb]; reply; hrun;
    [|destruct (fst (wallet_sendTransaction addr faucetAmount _)) as [tx|e];
      reply; hrun;
      [destruct (fst (tx_wait tx _)) as [rc|e]; reply; hrun;
       [destruct (fst (GasModel_save addr _)) as [[]|e]; reply; hrun|]|]|].
  all: split; [try discriminate; intros _; repeat split|].
  all: split; [try discriminate|].
  all: try (intros _; exists tx; repeat split).
  all: split; [|split; reflexivity].
  all: intros dest value Hin;
    repeat (destruct Hin as [Hq|Hin]; [try discriminate|]);
    try (destruct Hin);
    try (injection Hq as <- <-; repeat split).
Qed.

Lemma SettlementRecord_find_up addr (b : Backend L) :
  store_up (chain (service b)) ->
  SettlementRecord_find addr b
  = {| answer := Returned (user_settlements addr (docs (service b)));
       after := {| service := {| chain := snd (store_fault (chain (service b)));
                                 docs := docs (service b) |};
                   userVotes := userVotes b |};
       said := [Asked (QFindSettlements addr)] |}.
Proof.
  unfold store_up. intros Hup.
  unfold SettlementRecord_find, reach, and_then, pure. hrun. rewrite Hup.
  reflexivity.
Qed.

Section UserSettlements.
Variable BigInt : string -> outcome Z.

(** The callback of [settlements.map] on a settlement with a participant
    of the address: it takes the first such participant, and throws only
    what [BigInt] throws. *)
Lemma userSettlementOf_spec addr d :
  existsb (fun p => String.eqb (address p) addr) (participants d) = true ->
  exists p,
    find (fun p => String.eqb (address p) addr) (participants d) = Some p /\
    In p (participants d) /\ address p = addr /\
    match userSettlementOf BigInt addr d with
    | Returned e => describes BigInt d p e
    | Thrown err =>
        BigInt (payout p) = Thrown err \/ BigInt (staked p) = Thrown err
    end.
Proof.
  intros Hex.
  destruct (find (fun p => String.eqb (address p) addr) (participants d))
    as [p|] eqn:Ef.
  2:{ apply find_none_existsb in Ef. congruence. }
  exists p. split; [reflexivity|].
  pose proof (find_some _ _ Ef) as [Hin Haddr]. apply String.eqb_eq in Haddr.
  split; [exact Hin|]. split; [exact Haddr|].
  unfold userSettlementOf, describes. rewrite Ef.
  destruct (won p) eqn:Ew.
  - destruct (BigInt (payout p)) as [q|e1]; [|left; reflexivity].
    destruct (BigInt (staked p)) as [st|e2]; [|right; reflexivity].
    cbn. repeat split. exists st. split; [reflexivity|].
    exists q. split; reflexivity.
  - destruct (BigInt (staked p)) as [st|e2]; [|right; reflexivity].
    cbn. repeat split. exists st. split; reflexivity.
Qed.

Lemma map_each_spec {A B} (f : A -> outcome B) (l : list A) :
  match map_each f l with
  | Returned bs => Forall2 (fun a b => f a = Returned b) l bs
  | Thrown e => exists a, In a l /\ f a = Thrown e
  end.
Proof.
  induction l as [|a l IH]; cbn [map_each]; [constructor|].
  destruct (f a) as [b0|e] eqn:Ea.
  - destruct (map_each f l) as [bs|e].
    + constructor; assumption.
    + destruct IH as (a' & Hin & Ha'). exists a'. split; [right; exact Hin|exact Ha'].
  - exists a. split; [left; reflexivity|exact Ea].
Qed.

(** X16. In [GET /api/user-settlements/:address] the lookup of the
    caller's participation never misses: every settlement the query
    returns has a participant with the address, so reading
    [userParticipation.vote] does not throw.  With the database
    reachable the answer is 200 with one entry for each settlement found,
    in the order of the query, each describing the first participant
    with the address; or it is 500 with the message of a [BigInt]
    conversion that failed on that participant's [payout] or [staked]. *)
Theorem user_settlements_lookup_never_misses (addr : string) (b : Backend L) :
  let found := user_settlements addr (docs (service b)) in
  let r := get_user_settlements BigInt addr b in
  store_up (chain (service b)) ->
  (forall d, In d found ->
     exists p, find (fun p => String.eqb (address p) addr) (participants d)
               = Some p /\ address p = addr) /\
  ((exists entries,
      answer r = Returned {| code := 200; json := JUserSettlements entries |} /\
      Forall2 (fun d e => exists p, In p (participants d) /\ address p = addr /\
                                    describes BigInt d p e)
              found entries) \/
   (exists d p err,
      In d found /\ In p (participants d) /\ address p = addr /\
      (BigInt (payout p) = Thrown err \/ BigInt (staked p) = Thrown err) /\
      answer r = Returned {| code := 500; json := JMessage (message err) |})).
Proof.
  cbv zeta. intros Hup.
  assert (Hfound : forall d, In d (user_settlements addr (docs (service b))) ->
             existsb (fun p => String.eqb (address p) addr) (participants d) = true).
  { intros d Hin. apply In_user_settlements in Hin. apply Hin. }
  split.
  - intros d Hin.
    destruct (userSettlementOf_spec addr d (Hfound d Hin)) as (p & Hf & _ & Ha & _).
    exists p. split; assumption.
  - unfold get_user_settlements, attempt, and_then.
    rewrite (SettlementRecord_find_up addr b Hup). hrun.
    pose proof (map_each_spec (userSettlementOf BigInt addr)
                  (user_settlements addr (docs (service b)))) as Hmap.
    destruct (map_each _ _) as [entries|err].
    + left. exists entries. split; [reflexivity|].
      revert Hmap Hfound. generalize (user_settlements addr (docs (service b))).
      intros l Hmap. induction Hmap as [|d e l es Hde _ IH]; intros Hfound;
        constructor.
      * destruct (userSettlementOf_spec addr d (Hfound d (or_introl eq_refl)))
          as (p & _ & Hin & Ha & Hspec).
        rewrite Hde in Hspec. exists p.
        split; [exact Hin|split; [exact Ha|exact Hspec]].
      * apply IH. intros d' Hin'. apply Hfound. right. exact Hin'.
    + right. destruct Hmap as (d & Hin & Hd).
      destruct (userSettlementOf_spec addr d (Hfound d Hin))
        as (p & _ & Hinp & Ha & Hspec).
      rewrite Hd in Hspec. exists d, p, err.
      split; [exact Hin|]. split; [exact Hinp|]. split; [exact Ha|].
      split; [exact Hspec|]. reflexivity.
Qed.

End UserSettlements.

End RouteTheorems.

(** * The routes and the scan on the reference ledger *)

(** X2: on a ledger without markets the scan logs that and stops. *)
Lemma scan_without_markets_witness :
  trace (checkAndSettleMarkets (Ref.fresh Sample.no_markets))
  = [Console LChecking; Called CMarketCount;
     Console (LTotalMarkets 0); Console LNoMarkets].
Proof.
  destruct (scan_without_markets (Ref.fresh Sample.no_markets)) as (Ht & _).
  - intros n Hn. vm_compute in Hn. congruence.
  - exact Ht.
Defined.

(** X3: over the four markets two are confirmed, and the scan says so. *)
Lemma scan_summary_counts_confirmations_witness :
  exists body,
    trace (checkAndSettleMarkets (Ref.fresh Ref.four_markets))
    = body ++ [Console (LSettledCount 2)].
Proof.
  assert (Hcount : fst (contract_marketCount (chain (Ref.fresh Ref.four_markets)))
                   = Returned 4) by reflexivity.
  destruct (scan_summary_counts_confirmations (Ref.fresh Ref.four_markets) 4
              Hcount ltac:(discriminate)) as (body & Hbody).
  exists body. rewrite Hbody. vm_compute. reflexivity.
Defined.

(** X4: an estimate of 100000 gives the limit 120000. *)
Lemma gas_limit_covers_estimate_witness :
  exists g,
    fst (contract_estimateGas 0 Ref.four_markets) = Returned g /\
    120000 = Z.quot (g * 120) 100 /\
    (0 <= g -> 120000 = g + g / 5 /\ g <= 120000).
Proof.
  apply (gas_limit_covers_estimate 0 (Ref.market 1000 3 2 101 true)
           (Ref.fresh Ref.four_markets) 0 120000).
  vm_compute. right. right. right. left. reflexivity.
Defined.

(** X5: market 1 still runs; [manualSettle] asks for the estimate all
    the same, and the ledger refuses. *)
Lemma manualSettle_is_not_gated_witness :
  calls (trace (manualSettle 1 (Ref.fresh Ref.four_markets)))
  = [CGetMarket 1; CEstimateGas 1] /\
  In (Called (CEstimateGas 1)) (trace (manualSettle 1 (Ref.fresh Ref.four_markets))).
Proof.
  assert (Hsnap : snapshot_read 1 (Ref.fresh Ref.four_markets)
                  = Returned (Ref.market 5000 1 1 500 true)) by reflexivity.
  exact (manualSettle_is_not_gated 1 (Ref.fresh Ref.four_markets) _ Hsnap).
Defined.

(** X9: market 0, settled by hand, is served. *)
Lemma settled_market_is_served_witness :
  answer (get_settlement 0 (after (post_manual_settle "0" 0 Sample.backend)))
  = Returned {| code := 200;
                json := JRecord (settlementRecordOf 0 (Ref.market 1000 3 2 101 true)
                                   "0x5e771e" Ref.receipt42 2000000) |}.
Proof.
  destruct (settled_market_is_served "0" 0 Sample.backend
              (Ref.market 1000 3 2 101 true) {| hash := "0x5e771e" |}
              Ref.receipt42) as [_ Hserved].
  - reflexivity.
  - vm_compute. reflexivity.
  - vm_compute. reflexivity.
  - vm_compute. reflexivity.
  - exact Hserved.
Defined.

(** X10: nothing is stored yet: 404. *)
Lemma get_settlement_answers_witness :
  answer (get_settlement 0 Sample.backend)
  = Returned {| code := 404; json := JMessage "Settlement not found" |}.
Proof.
  destruct (get_settlement_answers 0 Sample.backend) as [Hnone _].
  - reflexivity.
  - apply Hnone. reflexivity.
Defined.

(** X12: Alice votes 'funny' on market 1, twice. *)
Lemma vote_is_recorded_once_witness :
  let body := {| vb_userAddress := Some Sample.alice; vb_marketId := Some 1;
                 vb_vote := Some "funny"%string;
                 vb_transactionHash := Some "0xb0a7ed"%string |} in
  let r := post_user_vote body Sample.backend in
  answer r = Returned {| code := 200;
                         json := JMessage "Vote recorded successfully" |} /\
  userVotes (after r) = [Sample.alices_vote] /\
  answer (post_user_vote body (after r))
  = Returned {| code := 400;
                json := JMessage "User already voted on this market" |}.
Proof.
  cbv zeta.
  destruct (vote_is_recorded_once Sample.backend Sample.alice 1 "funny" funny
              (Some "0xb0a7ed"%string))
    as (Hans & Hvotes & _ & Hagain).
  - discriminate.
  - reflexivity.
  - reflexivity.
  - reflexivity.
  - reflexivity.
  - split; [exact Hans|]. split; [exact Hvotes|].
    apply Hagain. reflexivity.
Defined.

(** X13: Alice's vote, relayed. *)
Lemma relay_records_the_vote_it_sent_witness :
  let r := post_relay {| rb_userAddress := Some Sample.alice;
                         rb_marketId := Some 1; rb_voteYes := Some true |}
             Sample.backend in
  answer r = Returned {| code := 200;
                         json := JRelayed "Vote relayed successfully" "0xb0a7ed" |} /\
  userVotes (after r) = [Sample.alices_vote].
Proof.
  cbv zeta.
  destruct (relay_records_the_vote_it_sent Sample.backend Sample.alice 1 true
              90000 {| hash := "0xb0a7ed" |}) as (Hans & Hvotes & _).
  - discriminate.
  - reflexivity.
  - reflexivity.
  - reflexivity.
  - reflexivity.
  - split; [exact Hans|exact Hvotes].
Defined.

(** X14: Alice's vote is on record; a second one is sent to the
    contract and then refused by the store. *)
Lemma relay_sends_before_it_looks_witness :
  let r := post_relay {| rb_userAddress := Some Sample.alice;
                         rb_marketId := Some 1; rb_voteYes := Some false |}
             Sample.backend_voted in
  answer r = Returned {| code := 500;
                         json := JFailure "Failed to relay vote"
                                   (message E11000_vote) |} /\
  In (Asked (QVote Sample.alice 1 false voteCost 90000)) (said r) /\
  userVotes (after r) = [Sample.alices_vote].
Proof.
  cbv zeta.
  destruct (relay_sends_before_it_looks Sample.backend_voted Sample.alice 1
              false 90000 {| hash := "0xb0a7ed" |}) as (Hans & Hvotes & Hsaid).
  - discriminate.
  - reflexivity.
  - reflexivity.
  - reflexivity.
  - reflexivity.
  - split; [exact Hans|]. split; [|exact Hvotes].
    rewrite Hsaid. right. left. reflexivity.
Defined.

(** X16: the settlement that lists Alice is found with her in it. *)
Lemma user_settlements_lookup_never_misses_witness :
  exists p,
    find (fun p => String.eqb (address p) Sample.alice)
         (participants Sample.with_alice) = Some p /\
    address p = Sample.alice.
Proof.
  destruct (user_settlements_lookup_never_misses Sample.decimal Sample.alice
              Sample.backend_settled) as [Hfound _].
  - reflexivity.
  - apply Hfound. vm_compute. left. reflexivity.
Defined.

(** * What a settlement record holds *)

Import JSFacts.

Lemma shr_1_m (mrs : shr_record) :
  0 <= shr_m mrs -> shr_m (shr_1 mrs) = shr_m mrs / 2.
Proof.
  destruct mrs as [m r s]. cbn [shr_m]. intros Hm.
  destruct m as [|[p|p|]|p]; cbn [shr_1 shr_m]; try lia.
  - reflexivity.
  - rewrite Pos2Z.inj_xI, Z.add_comm, Z.mul_comm, Z.div_add by lia. reflexivity.
  - rewrite Pos2Z.inj_xO, Z.mul_comm, Z.div_mul by lia. reflexivity.
  - reflexivity.
Qed.

Lemma iter_shr_1_m (k : nat) (mrs : shr_record) :
  0 <= shr_m mrs ->
  shr_m (Nat.iter k shr_1 mrs) = shr_m mrs / 2 ^ Z.of_nat k.
Proof.
  intros Hm. induction k as [|k IH].
  - cbn. rewrite Z.div_1_r. reflexivity.
  - rewrite Nat.iter_succ, shr_1_m.
    + rewrite IH, Z.div_div by (try apply Z.pow_pos_nonneg; lia).
      rewrite Nat2Z.inj_succ, Z.pow_succ_r by lia.
      f_equal. lia.
    + rewrite IH. apply Z.div_pos; [exact Hm|apply Z.pow_pos_nonneg; lia].
Qed.

(** Rounding a product of more than 53 digits, then [Math.floor]. *)
Lemma floor_round_wide (P : positive) (e : Z) (n : positive) :
  Zpos (Pos.size P) = 53 + Zpos n -> -1074 <= e + Zpos n <= -2 ->
  exists Q : Z,
    JS.floor (binary_round_aux JS.prec JS.emax false (Zpos P) e loc_Exact)
    = JS.Number (Q / 2 ^ (- (e + Zpos n))) /\
    Zpos P / 2 ^ Zpos n <= Q <= Zpos P / 2 ^ Zpos n + 1.
Proof.
  intros Hd He.
  pose proof (size_bounds P) as [Hlo Hhi]. rewrite Hd in Hlo, Hhi.
  assert (H2n : 0 < 2 ^ Zpos n) by (apply Z.pow_pos_nonneg; lia).
  assert (Hq : 2 ^ 52 <= Zpos P / 2 ^ Zpos n < 2 ^ 53).
  { replace (53 + Zpos n - 1) with (52 + Zpos n) in Hlo by lia.
    rewrite Z.pow_add_r in Hlo, Hhi by lia. split.
    - apply Z.div_le_lower_bound; lia.
    - apply Z.div_lt_upper_bound; lia. }
  unfold binary_round_aux. unfold shr_fexp at 1.
  assert (Hs : fexp JS.prec JS.emax (Zdigits2 (Zpos P) + e) - e = Zpos n).
  { unfold Zdigits2. rewrite digits2_pos_size, Hd.
    unfold fexp, emin, JS.prec, JS.emax. lia. }
  rewrite Hs. unfold shr at 1.
  set (mrs := iter_pos shr_1 n (shr_record_of_loc (Zpos P) loc_Exact)).
  assert (Hm : shr_m mrs = Zpos P / 2 ^ Zpos n).
  { unfold mrs. rewrite iter_pos_nat, iter_shr_1_m by (cbn; lia).
    rewrite positive_nat_Z. reflexivity. }
  pose proof (rne_bounds (shr_m mrs) (loc_of_shr_record mrs)) as Hr.
  destruct (round_nearest_even (shr_m mrs) (loc_of_shr_record mrs))
    as [|Q|Q] eqn:EQ; rewrite Hm in Hr; try lia.
  exists (Zpos Q). split; [|lia].
  apply floor_last_stage; lia.
Qed.

Lemma size_between (P : positive) (a b : Z) :
  0 <= a -> 2 ^ a <= Zpos P < 2 ^ b -> a < Zpos (Pos.size P) <= b.
Proof.
  intros Ha [Hlo Hhi]. pose proof (size_bounds P) as [Hl Hh].
  pose proof (Pos2Z.is_pos (Pos.size P)) as Hpos.
  split.
  - destruct (Z.lt_ge_cases a (Zpos (Pos.size P))) as [H|H]; [exact H|].
    assert (2 ^ Zpos (Pos.size P) <= 2 ^ a) by (apply Z.pow_le_mono_r; lia).
    lia.
  - destruct (Z.le_gt_cases (Zpos (Pos.size P)) b) as [H|H]; [exact H|].
    assert (2 ^ b <= 2 ^ (Zpos (Pos.size P) - 1)) by (apply Z.pow_le_mono_r; lia).
    lia.
Qed.

(** The arithmetic of the 5% cut: [M / 2^57] is the double [0.05], [U]
    the stake shifted to 53 digits, [Q] the rounded product. *)
Lemma cut_bounds (T A U P N J Q : Z) :
  0 <= T -> 1 <= A -> U = T * A -> U < 2 ^ 53 ->
  P = U * 7205759403792794 ->
  0 < N <= 2 ^ 53 -> 0 < J -> J * N = A * 2 ^ 57 ->
  P / N <= Q <= P / N + 1 ->
  T / 20 <= Q / J <= T / 20 + 1.
Proof.
  intros HT HA HU HU53 HP HN HJ HJN HQ.
  pose proof (Z.mul_div_le T 20 ltac:(lia)) as Hd1.
  pose proof (Z.mul_succ_div_gt T 20 ltac:(lia)) as Hd2.
  set (t0 := T / 20) in *.
  assert (Ht0 : 0 <= t0) by (apply Z.div_pos; lia).
  set (V := t0 * A).
  assert (HV1 : 20 * V <= U) by (unfold V; nia).
  assert (HV2 : U <= 20 * V + 19 * A) by (unfold V; nia).
  assert (HVJN : t0 * J * N = V * 2 ^ 57) by (unfold V; nia).
  change (2 ^ 57) with 144115188075855872 in *.
  change (2 ^ 53) with 9007199254740992 in *.
  assert (Hlow : t0 * J <= P / N).
  { apply Z.div_le_lower_bound; [lia|]. nia. }
  assert (Hup : P / N < J * (t0 + 2) - 1).
  { apply Z.div_lt_upper_bound; [lia|]. nia. }
  split.
  - apply Z.div_le_lower_bound; [lia|]. nia.
  - assert (Q / J < t0 + 2); [|lia].
    apply Z.div_lt_upper_bound; [lia|]. nia.
Qed.

(** [Math.floor(totalPool * 0.05)] for a stake below [2^53] is the double
    of an integer: the twentieth of the stake rounded down, or that plus
    one. *)
Lemma creator_cut (T : Z) :
  0 <= T < JS.two53 ->
  exists c, JS.floor (JS.mul (JS.Number T) JS.lit_0_05) = JS.Number c /\
            T / 20 <= c <= T / 20 + 1 /\ c <= T.
Proof.
  intros HT. destruct T as [|p|p]; [| |lia].
  { exists 0. split; [reflexivity|]. cbn. lia. }
  pose proof (Z.mul_div_le (Zpos p) 20 ltac:(lia)) as Hdiv.
  assert (Hp : Zpos p < JS.two53) by lia.
  pose proof (size_bound p Hp) as Hd.
  pose proof (Pos2Z.is_pos (Pos.size p)) as Hd0.
  rewrite Number_pos by exact Hp.
  unfold JS.mul, JS.canon, JS.lit_0_05. cbv zeta. cbn [SFmul xorb].
  set (k := 53 - Zpos (Pos.size p)).
  assert (Hk : 0 <= k <= 52) by (unfold k; lia).
  assert (HA : 1 <= 2 ^ k) by (pose proof (Z.pow_pos_nonneg 2 k); lia).
  assert (HX : 2 ^ 52 <= Zpos (JS.scale p k) < 2 ^ 53).
  { pose proof (size_bounds (JS.scale p k)) as HsX.
    rewrite size_scale in HsX by lia.
    replace (Zpos (Pos.size p) + k) with 53 in HsX by (unfold k; lia).
    exact HsX. }
  set (P := (JS.scale p k * 7205759403792794)%positive).
  assert (HP : Zpos P = Zpos (JS.scale p k) * 7205759403792794)
    by (unfold P; apply Pos2Z.inj_mul).
  assert (HPb : 2 ^ 104 <= Zpos P < 2 ^ 106).
  { rewrite HP. change (2 ^ 52) with 4503599627370496 in HX.
    change (2 ^ 53) with 9007199254740992 in HX.
    change (2 ^ 104) with 20282409603651670423947251286016.
    change (2 ^ 106) with 81129638414606681695789005144064. lia. }
  pose proof (size_between P 104 106 ltac:(lia) HPb) as HsP.
  assert (HU : Zpos (JS.scale p k) = Zpos p * 2 ^ k) by (apply scale_Z; lia).
  assert (Hcases : Zpos (Pos.size P) = 53 + 52 \/ Zpos (Pos.size P) = 53 + 53)
    by lia.
  destruct Hcases as [Hs|Hs].
  - destruct (floor_round_wide P (- k + -57) 52 Hs ltac:(lia)) as (Q & -> & HQ).
    exists (Q / 2 ^ (- (- k + -57 + 52))). split; [reflexivity|].
    enough (Zpos p / 20 <= Q / 2 ^ (- (- k + -57 + 52)) <= Zpos p / 20 + 1) by lia.
    apply (cut_bounds (Zpos p) (2 ^ k) (Zpos (JS.scale p k)) (Zpos P) (2 ^ 52)
             (2 ^ (- (- k + -57 + 52))) Q); try lia.
    all: first [ apply Z.pow_pos_nonneg; lia
               | rewrite <- !Z.pow_add_r by lia; f_equal; lia ].
  - destruct (floor_round_wide P (- k + -57) 53 Hs ltac:(lia)) as (Q & -> & HQ).
    exists (Q / 2 ^ (- (- k + -57 + 53))). split; [reflexivity|].
    enough (Zpos p / 20 <= Q / 2 ^ (- (- k + -57 + 53)) <= Zpos p / 20 + 1) by lia.
    apply (cut_bounds (Zpos p) (2 ^ k) (Zpos (JS.scale p k)) (Zpos P) (2 ^ 53)
             (2 ^ (- (- k + -57 + 53))) Q); try lia.
    all: first [ apply Z.pow_pos_nonneg; lia
               | rewrite <- !Z.pow_add_r by lia; f_equal; lia ].
Qed.

(** The sum of two doubles of safe integers whose sum is safe is the
    double of the sum. *)
Lemma add_Number (a b : Z) :
  0 <= a -> 0 <= b -> a + b < JS.two53 ->
  JS.add (JS.Number a) (JS.Number b) = JS.Number (a + b).
Proof.
  intros Ha Hb Hab.
  destruct a as [|p|p]; destruct b as [|q|q]; try lia.
  - reflexivity.
  - cbn [Z.add]. rewrite Number_zero, (Number_pos q) by lia. reflexivity.
  - rewrite Z.add_0_r, Number_zero, (Number_pos p) by lia. reflexivity.
  - rewrite (Number_pos p), (Number_pos q) by lia.
    pose proof (size_bound p ltac:(lia)) as Hdp.
    pose proof (size_bound q ltac:(lia)) as Hdq.
    pose proof (Pos2Z.is_pos (Pos.size p)) as Hpp.
    pose proof (Pos2Z.is_pos (Pos.size q)) as Hpq.
    unfold JS.add, JS.canon. cbv zeta. cbn [SFadd cond_Zopp].
    set (kp := 53 - Zpos (Pos.size p)).
    set (kq := 53 - Zpos (Pos.size q)).
    set (K := Z.max kp kq).
    assert (HK : 0 <= K <= 52) by (unfold K, kp, kq; lia).
    replace (Z.min (- kp) (- kq)) with (- K) by (unfold K; lia).
    rewrite !shl_align_scale by (unfold K; lia).
    rewrite !scale_scale by (unfold K, kp, kq; lia).
    replace (kp + (- kp - - K)) with K by lia.
    replace (kq + (- kq - - K)) with K by lia.
    rewrite !scale_Z by lia.
    rewrite <- Z.mul_add_distr_r.
    change (Zpos p + Zpos q) with (Zpos (p + q)).
    rewrite <- scale_Z by lia. cbn [binary_normalize].
    rewrite Number_pos by (rewrite Pos2Z.inj_add; lia).
    apply round_scaled; [lia|].
    apply size_bound. rewrite Pos2Z.inj_add. lia.
Qed.

(** Rounding [c * 2^K * 2^-K] when no digit has to be shifted in. *)
Lemma round_aux_scaled (s : bool) (c : positive) (K : Z) :
  0 <= K <= 1000 -> Zpos (Pos.size c) <= 53 -> 53 <= Zpos (Pos.size c) + K ->
  binary_round_aux JS.prec JS.emax s (Zpos (JS.scale c K)) (- K) loc_Exact
  = JS.canon s c.
Proof.
  intros HK Hc Hwide. rewrite <- (round_scaled s c K HK Hc).
  unfold binary_round, shl_align.
  rewrite digits2_pos_size, size_scale by lia.
  assert (Hf : fexp JS.prec JS.emax (Zpos (Pos.size c) + K + - K)
               = Zpos (Pos.size c) - 53).
  { unfold fexp, emin, JS.prec, JS.emax. lia. }
  rewrite Hf.
  destruct (Zpos (Pos.size c) - 53 - - K) eqn:E; try lia; reflexivity.
Qed.

(** The product of two doubles of safe integers whose product is safe is
    the double of the product. *)
Lemma mul_Number (a b : Z) :
  0 <= a < JS.two53 -> 0 <= b < JS.two53 -> a * b < JS.two53 ->
  JS.mul (JS.Number a) (JS.Number b) = JS.Number (a * b).
Proof.
  intros Ha Hb Hab.
  destruct a as [|p|p]; destruct b as [|q|q]; try lia.
  - reflexivity.
  - cbn [Z.mul]. rewrite Number_zero, (Number_pos q) by lia. reflexivity.
  - rewrite Z.mul_0_r, Number_zero, (Number_pos p) by lia. reflexivity.
  - assert (Hp : Zpos p < JS.two53) by lia.
    assert (Hq : Zpos q < JS.two53) by lia.
    rewrite (Number_pos p), (Number_pos q) by assumption.
    pose proof (size_bound p Hp) as Hdp. pose proof (size_bound q Hq) as Hdq.
    pose proof (Pos2Z.is_pos (Pos.size p)) as Hpp.
    pose proof (Pos2Z.is_pos (Pos.size q)) as Hpq.
    change (Zpos p * Zpos q) with (Zpos (p * q)) in *.
    pose proof (size_bound (p * q) Hab) as Hdpq.
    rewrite (Number_pos (p * q)) by exact Hab.
    unfold JS.mul. unfold JS.canon at 1 2. cbv zeta. cbn [SFmul xorb].
    set (kp := 53 - Zpos (Pos.size p)).
    set (kq := 53 - Zpos (Pos.size q)).
    assert (Hk : 0 <= kp /\ 0 <= kq) by (unfold kp, kq; lia).
    assert (Hprod : (JS.scale p kp * JS.scale q kq)%positive
                    = JS.scale (p * q) (kp + kq)).
    { apply Pos2Z.inj. rewrite Pos2Z.inj_mul, !scale_Z by lia.
      rewrite Pos2Z.inj_mul, Z.pow_add_r by lia. ring. }
    rewrite Hprod.
    replace (- kp + - kq) with (- (kp + kq)) by lia.
    apply round_aux_scaled; [unfold kp, kq; lia|exact Hdpq|].
    (* the product has at least as many digits as the longer factor *)
    pose proof (size_bounds p) as [Hlp _]. pose proof (size_bounds q) as [Hlq _].
    pose proof (size_bounds (p * q)) as [_ Hhpq].
    rewrite Pos2Z.inj_mul in Hhpq.
    assert (Hlow : 2 ^ (Zpos (Pos.size p) - 1 + (Zpos (Pos.size q) - 1))
                   < 2 ^ Zpos (Pos.size (p * q))).
    { rewrite Z.pow_add_r by lia.
      eapply Z.le_lt_trans; [|exact Hhpq].
      apply Z.mul_le_mono_nonneg; try lia; apply Z.pow_nonneg; lia. }
    apply Z.pow_lt_mono_r_iff in Hlow; [|lia|lia].
    unfold kp, kq. lia.
Qed.

(** [Math.floor] of the double of a safe integer is that double. *)
Lemma floor_Number (z : Z) :
  0 <= z < JS.two53 -> JS.floor (JS.Number z) = JS.Number z.
Proof.
  intros Hz. destruct z as [|p|p]; [reflexivity| |lia].
  assert (Hp : Zpos p < JS.two53) by lia.
  pose proof (size_bound p Hp) as Hd.
  rewrite Number_pos by exact Hp.
  unfold JS.canon, JS.floor. cbv zeta.
  set (k := 53 - Zpos (Pos.size p)).
  assert (Hk : 0 <= k) by (unfold k; lia).
  destruct (0 <=? - k) eqn:E; [reflexivity|].
  cbn [cond_Zopp]. rewrite Z.opp_involutive.
  rewrite scale_Z, Z.shiftr_div_pow2, Z.div_mul by
    (try apply Z.pow_nonzero; lia).
  fold (JS.Number (Zpos p)). rewrite Number_pos by exact Hp. reflexivity.
Qed.

(** The largest time value of a [Date], in milliseconds. *)
Lemma Date_of_Number (v : Z) :
  0 <= v <= 8640000000000000 -> Date_of (JS.Number v) = JS.Number v.
Proof.
  intros Hv. destruct v as [|p|p]; [reflexivity| |lia].
  assert (Hp : Zpos p < JS.two53) by (unfold JS.two53; lia).
  pose proof (floor_Number (Zpos p) ltac:(lia)) as Hfl.
  rewrite Number_pos in * by exact Hp.
  unfold Date_of. unfold JS.canon at 1.
  change (SFabs (JS.canon false p)) with (JS.canon false p).
  assert (Hle : JS.le (JS.canon false p) (JS.Number 8640000000000000) = true).
  { rewrite (Number_pos 8640000000000000) by reflexivity.
    unfold JS.le, SFleb. rewrite compare_canon by (unfold JS.two53; lia).
    destruct (Pos.compare_spec p 8640000000000000) as [H|H|H];
      try reflexivity. lia. }
  rewrite Hle. exact Hfl.
Qed.

Section RecordTheorems.
Context {L : Type} `{Collaborators L}.

(** A record that [settleMarket] added is the one built from its
    snapshot. *)
Lemma settleMarket_added id m (s : State L) d :
  In d (docs (post (settleMarket id m s))) -> ~ In d (docs s) ->
  exists tx rc t, d = settlementRecordOf id m tx rc t.
Proof.
  intros Hin Hnew.
  destruct (settleMarket_docs id m s) as [E|(tx & rc & t & E)];
    rewrite E in Hin; [contradiction|].
  apply in_app_or in Hin. destruct Hin as [Hin|[<-|[]]]; [contradiction|].
  eexists _, _, _. reflexivity.
Qed.

(** X17: a record that [settleMarket] added for a market whose stake
    is below [2^53] wei splits that stake exactly: [creatorReward] is an
    integer [c], [voterRewards] is the stake minus [c], so the two add
    up to [totalStaked]; [c] is [floor(totalStaked * 5 / 100)] or one
    wei more, and never more than the stake. *)
Theorem reward_split_adds_up_below_2p53 (id : Z) (m : Market) (s : State L)
    (d : SettlementRecord) :
  In d (docs (post (settleMarket id m s))) ->
  ~ In d (docs s) ->
  0 <= totalStaked m < JS.two53 ->
  exists c,
    JS.toInteger (creatorReward d) = Some c /\
    JS.toInteger (voterRewards d) = Some (totalStaked m - c) /\
    totalStaked m * 5 / 100 <= c <= totalStaked m * 5 / 100 + 1 /\
    0 <= c <= totalStaked m /\
    rec_totalStaked d = totalStaked m.
Proof.
  intros Hin Hnew HT.
  destruct (settleMarket_added id m s d Hin Hnew) as (tx & rc & t & ->).
  cbn [creatorReward voterRewards rec_totalStaked settlementRecordOf].
  destruct (creator_cut (totalStaked m) HT) as (c & -> & Hc & Hle).
  assert (H20 : totalStaked m * 5 / 100 = totalStaked m / 20).
  { change 100 with (20 * 5). apply Z.div_mul_cancel_r; lia. }
  pose proof (Z.div_pos (totalStaked m) 20 ltac:(lia) ltac:(lia)) as Hd0.
  exists c. unfold JS.two53 in *.
  rewrite sub_Number by (unfold JS.two53; lia).
  rewrite !toInteger_Number by (unfold JS.two53; lia).
  rewrite H20. repeat split; lia.
Qed.

(** X18: a record that [settleMarket] added carries the snapshot it
    was given: the market id, the creator and the stake as they are;
    the two tallies below [2^53] as their integers, and [totalVotes] as
    their sum when that is below [2^53] too; [endTime] as the snapshot's
    second in milliseconds, for a deadline within the range of a
    [Date]. *)
Theorem record_keeps_the_snapshot (id : Z) (m : Market) (s : State L)
    (d : SettlementRecord) :
  In d (docs (post (settleMarket id m s))) ->
  ~ In d (docs s) ->
  marketId d = id /\ templateCreator d = creator m /\
  rec_totalStaked d = totalStaked m /\
  (0 <= yesVotes m < JS.two53 -> 0 <= noVotes m < JS.two53 ->
   JS.toInteger (rec_yesVotes d) = Some (yesVotes m) /\
   JS.toInteger (rec_noVotes d) = Some (noVotes m) /\
   (yesVotes m + noVotes m < JS.two53 ->
    JS.toInteger (totalVotes d) = Some (yesVotes m + noVotes m))) /\
  (0 <= endTime m <= 8640000000000 ->
   JS.toInteger (rec_endTime d) = Some (endTime m * 1000)).
Proof.
  intros Hin Hnew.
  destruct (settleMarket_added id m s d Hin Hnew) as (tx & rc & t & ->).
  cbn [marketId templateCreator rec_totalStaked rec_yesVotes rec_noVotes
       totalVotes rec_endTime settlementRecordOf].
  split; [reflexivity|]. split; [reflexivity|]. split; [reflexivity|].
  split.
  - intros Hy Hn. unfold JS.two53 in *.
    rewrite !toInteger_Number by (unfold JS.two53; lia).
    split; [reflexivity|]. split; [reflexivity|].
    intros Hsum. rewrite add_Number by (unfold JS.two53; lia).
    apply toInteger_Number. unfold JS.two53. lia.
  - intros He. unfold JS.lit_1000.
    rewrite mul_Number by (unfold JS.two53; lia).
    rewrite Date_of_Number by lia.
    apply toInteger_Number. unfold JS.two53. lia.
Qed.

End RecordTheorems.

(** X17 at 101 wei. *)
Lemma reward_split_adds_up_below_2p53_witness :
  exists c,
    JS.toInteger (creatorReward
      (settlementRecordOf 0 (Ref.market 1000 3 2 101 true) "0x5e771e"
         Ref.receipt42 2000000)) = Some c /\
    JS.toInteger (voterRewards
      (settlementRecordOf 0 (Ref.market 1000 3 2 101 true) "0x5e771e"
         Ref.receipt42 2000000)) = Some (101 - c) /\
    5 <= c <= 6.
Proof.
  destruct (reward_split_adds_up_below_2p53 0 (Ref.market 1000 3 2 101 true)
              (Ref.fresh Ref.four_markets)
              (settlementRecordOf 0 (Ref.market 1000 3 2 101 true) "0x5e771e"
                 Ref.receipt42 2000000))
    as (c & Hc & Hv & Hb & _).
  - vm_compute. left. reflexivity.
  - intros [].
  - vm_compute. split; [discriminate|reflexivity].
  - exists c. split; [exact Hc|]. split; [exact Hv|]. exact Hb.
Defined.

(** X18 on the same record: 3 + 2 votes, deadline at second 1000. *)
Lemma record_keeps_the_snapshot_witness :
  JS.toInteger (totalVotes
    (settlementRecordOf 0 (Ref.market 1000 3 2 101 true) "0x5e771e"
       Ref.receipt42 2000000)) = Some (3 + 2) /\
  JS.toInteger (rec_endTime
    (settlementRecordOf 0 (Ref.market 1000 3 2 101 true) "0x5e771e"
       Ref.receipt42 2000000)) = Some (1000 * 1000).
Proof.
  destruct (record_keeps_the_snapshot 0 (Ref.market 1000 3 2 101 true)
              (Ref.fresh Ref.four_markets)
              (settlementRecordOf 0 (Ref.market 1000 3 2 101 true) "0x5e771e"
                 Ref.receipt42 2000000))
    as (_ & _ & _ & Hvotes & Hend).
  - vm_compute. left. reflexivity.
  - intros [].
  - split.
    + apply Hvotes; vm_compute;
        first [split; [discriminate|reflexivity]|reflexivity].
    + apply Hend. vm_compute. split; discriminate.
Defined.

(** * The collections over a run of requests *)


Lemma unique_votes_insert (vs : list UserVote) (v : UserVote) :
  existsb (voted (userAddress v) (uv_marketId v)) vs = false ->
  unique_votes vs -> unique_votes (vs ++ [v]).
Proof.
  unfold unique_votes. intros Hfree Hu.
  rewrite map_app. apply NoDup_app.
  - exact Hu.
  - cbn [map]. constructor; [intros []|constructor].
  - cbn [map]. intros a Ha [<-|[]].
    apply in_map_iff in Ha. destruct Ha as (w & Hw & Hin).
    injection Hw as Hu1 Hu2.
    assert (Hex : existsb (voted (userAddress v) (uv_marketId v)) vs = true).
    { apply existsb_exists. exists w. split; [exact Hin|].
      unfold voted. rewrite Hu1, Hu2, String.eqb_refl, Z.eqb_refl. reflexivity. }
    congruence.
Qed.

Section AppendingFacts.
Context {L : Type} `{Collaborators L} `{Relayer L}.

Lemma appends_refl (b : Backend L) : appends b b.
Proof.
  split; [apply grows_same|]. exists []. rewrite app_nil_r. split; auto.
Qed.

Lemma appends_trans (a b c : Backend L) :
  appends a b -> appends b c -> appends a c.
Proof.
  intros [Hd1 (v1 & Hv1 & Hu1)] [Hd2 (v2 & Hv2 & Hu2)]. split.
  - eapply grows_trans; eassumption.
  - exists (v1 ++ v2). split.
    + rewrite Hv2, Hv1, app_assoc. reflexivity.
    + intros Hu. apply Hu2, Hu1, Hu.
Qed.

Lemma stores_of_keeps {A} (m : Handler L A) :
  keeps_records m -> keeps_votes m -> stores m.
Proof.
  intros Hr Hv b. split.
  - rewrite Hr. apply grows_same.
  - exists []. rewrite Hv, app_nil_r. split; auto.
Qed.

Lemma stores_and_then {A B} (m : Handler L A) (k : A -> Handler L B) :
  stores m -> (forall a, stores (k a)) -> stores (and_then m k).
Proof.
  intros Hm Hk b. unfold and_then.
  destruct (answer (m b)); cbn [after].
  - eapply appends_trans; [apply Hm|apply Hk].
  - apply Hm.
Qed.

Lemma stores_attempt {A} (m : Handler L A) (h : Error -> Handler L A) :
  stores m -> (forall e, stores (h e)) -> stores (attempt m h).
Proof.
  intros Hm Hh b. unfold attempt.
  destruct (answer (m b)); cbn [after].
  - apply Hm.
  - eapply appends_trans; [apply Hm|apply Hh].
Qed.

Lemma keeps_records_and_then {A B} (m : Handler L A) (k : A -> Handler L B) :
  keeps_records m -> (forall a, keeps_records (k a)) ->
  keeps_records (and_then m k).
Proof.
  intros Hm Hk b. unfold and_then.
  destruct (answer (m b)); cbn [after]; [rewrite Hk|]; apply Hm.
Qed.

Lemma keeps_records_attempt {A} (m : Handler L A) (h : Error -> Handler L A) :
  keeps_records m -> (forall e, keeps_records (h e)) ->
  keeps_records (attempt m h).
Proof.
  intros Hm Hh b. unfold attempt.
  destruct (answer (m b)); cbn [after]; [|rewrite Hh]; apply Hm.
Qed.

Lemma keeps_votes_and_then {A B} (m : Handler L A) (k : A -> Handler L B) :
  keeps_votes m -> (forall a, keeps_votes (k a)) -> keeps_votes (and_then m k).
Proof.
  intros Hm Hk b. unfold and_then.
  destruct (answer (m b)); cbn [after]; [rewrite Hk|]; apply Hm.
Qed.

Lemma keeps_votes_attempt {A} (m : Handler L A) (h : Error -> Handler L A) :
  keeps_votes m -> (forall e, keeps_votes (h e)) -> keeps_votes (attempt m h).
Proof.
  intros Hm Hh b. unfold attempt.
  destruct (answer (m b)); cbn [after]; [|rewrite Hh]; apply Hm.
Qed.

Lemma keeps_records_pure {A} (a : A) : keeps_records (pure (L:=L) a).
Proof. intros b. reflexivity. Qed.
Lemma keeps_votes_pure {A} (a : A) : keeps_votes (pure (L:=L) a).
Proof. intros b. reflexivity. Qed.
Lemma keeps_records_raise {A} (e : Error) : keeps_records (raise (L:=L) (A:=A) e).
Proof. intros b. reflexivity. Qed.
Lemma keeps_votes_raise {A} (e : Error) : keeps_votes (raise (L:=L) (A:=A) e).
Proof. intros b. reflexivity. Qed.
Lemma keeps_records_print (n : Notice) : keeps_records (print (L:=L) n).
Proof. intros b. reflexivity. Qed.
Lemma keeps_votes_print (n : Notice) : keeps_votes (print (L:=L) n).
Proof. intros b. reflexivity. Qed.
Lemma keeps_records_respond c j : keeps_records (respond (L:=L) c j).
Proof. intros b. reflexivity. Qed.
Lemma keeps_votes_respond c j : keeps_votes (respond (L:=L) c j).
Proof. intros b. reflexivity. Qed.
Lemma keeps_records_ask {A} q (f : L -> outcome A * L) : keeps_records (ask q f).
Proof. intros b. reflexivity. Qed.
Lemma keeps_votes_ask {A} q (f : L -> outcome A * L) : keeps_votes (ask q f).
Proof. intros b. reflexivity. Qed.
Lemma keeps_records_reach q : keeps_records (reach q).
Proof. intros b. reflexivity. Qed.
Lemma keeps_votes_reach q : keeps_votes (reach q).
Proof. intros b. reflexivity. Qed.
Lemma keeps_votes_await {A} (m : M L A) : keeps_votes (await m).
Proof. intros b. reflexivity. Qed.

Lemma keeps_records_await {A} (m : M L A) :
  (forall s, docs (post (m s)) = docs s) -> keeps_records (await m).
Proof. intros Hm b. apply Hm. Qed.

Lemma stores_await {A} (m : M L A) : keeps m -> stores (await m).
Proof.
  intros Hm b. split.
  - apply Hm.
  - exists []. rewrite app_nil_r. split; auto.
Qed.

End AppendingFacts.

Ltac step_records :=
  repeat first
    [ apply keeps_records_and_then; [|intros ?]
    | apply keeps_records_attempt; [|intros ?]
    | match goal with
      | |- keeps_records (if ?c then _ else _) => destruct c
      | |- keeps_records (match ?x with _ => _ end) => destruct x
      end
    | apply keeps_records_pure | apply keeps_records_raise
    | apply keeps_records_print | apply keeps_records_respond
    | apply keeps_records_ask | apply keeps_records_reach ].

Ltac step_votes :=
  repeat first
    [ apply keeps_votes_and_then; [|intros ?]
    | apply keeps_votes_attempt; [|intros ?]
    | match goal with
      | |- keeps_votes (if ?c then _ else _) => destruct c
      | |- keeps_votes (match ?x with _ => _ end) => destruct x
      end
    | apply keeps_votes_pure | apply keeps_votes_raise
    | apply keeps_votes_print | apply keeps_votes_respond
    | apply keeps_votes_ask | apply keeps_votes_reach
    | apply keeps_votes_await ].

Section RoutesAppend.
Context {L : Type} `{Collaborators L} `{Relayer L}.

Lemma keeps_records_UserVote_findOne u i : keeps_records (UserVote_findOne (L:=L) u i).
Proof. unfold UserVote_findOne. step_records. intros b. reflexivity. Qed.

Lemma keeps_votes_UserVote_findOne u i : keeps_votes (UserVote_findOne (L:=L) u i).
Proof. unfold UserVote_findOne. step_votes. intros b. reflexivity. Qed.

Lemma keeps_records_UserVote_save u i v h : keeps_records (UserVote_save (L:=L) u i v h).
Proof.
  unfold UserVote_save.
  apply keeps_records_and_then; [apply keeps_records_await; reflexivity|].
  intros t. destruct (Side_of v); [|intros b; reflexivity].
  apply keeps_records_and_then; [apply keeps_records_reach|].
  intros _ b. destruct (existsb (voted u i) (userVotes b)); reflexivity.
Qed.

Lemma stores_UserVote_save u i v h : stores (UserVote_save (L:=L) u i v h).
Proof.
  unfold UserVote_save.
  apply stores_and_then.
  { apply stores_of_keeps; [apply keeps_records_await; reflexivity|apply keeps_votes_await]. }
  intros t. destruct (Side_of v); [|intros b; apply appends_refl].
  apply stores_and_then.
  { apply stores_of_keeps; [apply keeps_records_reach|apply keeps_votes_reach]. }
  intros _ b. destruct (existsb (voted u i) (userVotes b)) eqn:E; cbn.
  - apply appends_refl.
  - split; [apply grows_same|]. eexists. split; [reflexivity|].
    cbn [userVotes]. apply unique_votes_insert. exact E.
Qed.

Lemma keeps_records_post_user_vote body : keeps_records (post_user_vote (L:=L) body).
Proof.
  unfold post_user_vote.
  destruct (vb_userAddress body), (vb_marketId body), (vb_vote body);
    try apply keeps_records_respond.
  destruct (_ || _); [apply keeps_records_respond|].
  apply keeps_records_attempt; [|intros e; step_records].
  apply keeps_records_and_then; [apply keeps_records_UserVote_findOne|].
  intros [w|]; [apply keeps_records_respond|].
  apply keeps_records_and_then; [apply keeps_records_UserVote_save|].
  intros _. apply keeps_records_respond.
Qed.

Lemma stores_post_user_vote body : stores (post_user_vote (L:=L) body).
Proof.
  assert (Hresp : forall c j, stores (respond (L:=L) c j)).
  { intros c j. apply stores_of_keeps;
      [apply keeps_records_respond|apply keeps_votes_respond]. }
  unfold post_user_vote.
  destruct (vb_userAddress body), (vb_marketId body), (vb_vote body);
    try apply Hresp.
  destruct (_ || _); [apply Hresp|].
  apply stores_attempt.
  - apply stores_and_then.
    + apply stores_of_keeps;
        [apply keeps_records_UserVote_findOne|apply keeps_votes_UserVote_findOne].
    + intros [w|]; [apply Hresp|].
      apply stores_and_then; [apply stores_UserVote_save|intros _; apply Hresp].
  - intros e. apply stores_of_keeps; [step_records|step_votes].
Qed.

Lemma keeps_records_post_relay body : keeps_records (post_relay (L:=L) body).
Proof.
  unfold post_relay.
  destruct (rb_userAddress body), (rb_marketId body), (rb_voteYes body);
    try apply keeps_records_respond.
  destruct (String.eqb _ _); [apply keeps_records_respond|].
  apply keeps_records_attempt; [|intros e; step_records].
  apply keeps_records_and_then; [apply keeps_records_ask|]. intros g.
  apply keeps_records_and_then; [apply keeps_records_ask|]. intros tx.
  apply keeps_records_and_then; [apply keeps_records_print|]. intros _.
  apply keeps_records_and_then; [apply keeps_records_UserVote_save|].
  intros _. apply keeps_records_respond.
Qed.

Lemma stores_post_relay body : stores (post_relay (L:=L) body).
Proof.
  assert (Hresp : forall c j, stores (respond (L:=L) c j)).
  { intros c j. apply stores_of_keeps;
      [apply keeps_records_respond|apply keeps_votes_respond]. }
  unfold post_relay.
  destruct (rb_userAddress body), (rb_marketId body), (rb_voteYes body);
    try apply Hresp.
  destruct (String.eqb _ _); [apply Hresp|].
  apply stores_attempt.
  - apply stores_and_then.
    { apply stores_of_keeps; [apply keeps_records_ask|apply keeps_votes_ask]. }
    intros g. apply stores_and_then.
    { apply stores_of_keeps; [apply keeps_records_ask|apply keeps_votes_ask]. }
    intros tx. apply stores_and_then.
    { apply stores_of_keeps; [apply keeps_records_print|apply keeps_votes_print]. }
    intros _. apply stores_and_then; [apply stores_UserVote_save|].
    intros _. apply Hresp.
  - intros e. apply stores_of_keeps; [step_records|step_votes].
Qed.

Lemma keeps_votes_post_manual_settle p id : keeps_votes (post_manual_settle (L:=L) p id).
Proof. unfold post_manual_settle. step_votes. Qed.

Lemma stores_post_manual_settle p id : stores (post_manual_settle (L:=L) p id).
Proof.
  unfold post_manual_settle.
  apply stores_attempt.
  - apply stores_and_then.
    { apply stores_of_keeps; [apply keeps_records_print|apply keeps_votes_print]. }
    intros _. apply stores_and_then; [apply stores_await, keeps_manualSettle|].
    intros [|]; apply stores_of_keeps;
      first [apply keeps_records_respond|apply keeps_votes_respond].
  - intros e. apply stores_of_keeps; [step_records|step_votes].
Qed.

Lemma keeps_records_get_settlement_status id :
  keeps_records (get_settlement_status (L:=L) id).
Proof.
  unfold get_settlement_status.
  apply keeps_records_attempt; [|intros e; step_records].
  apply keeps_records_and_then; [|intros st; apply keeps_records_respond].
  apply keeps_records_await. intros s.
  pose proof (keeps_getSettlementStatus id s) as Hk.
  unfold getSettlementStatus, now_seconds, try_catch, bind, call, now_ms,
    console, throw, ret.
  run. destruct (fst (contract_getMarket id (chain s))); reflexivity.
Qed.

Lemma keeps_votes_get_settlement_status id :
  keeps_votes (get_settlement_status (L:=L) id).
Proof. unfold get_settlement_status. step_votes. Qed.

Lemma keeps_records_get_settlement id : keeps_records (get_settlement (L:=L) id).
Proof.
  unfold get_settlement, SettlementRecord_findOne.
  apply keeps_records_attempt; [|intros e; step_records].
  apply keeps_records_and_then; [|intros [d|]; apply keeps_records_respond].
  apply keeps_records_and_then; [apply keeps_records_reach|].
  intros _ b. reflexivity.
Qed.

Lemma keeps_votes_get_settlement id : keeps_votes (get_settlement (L:=L) id).
Proof.
  unfold get_settlement, SettlementRecord_findOne.
  apply keeps_votes_attempt; [|intros e; step_votes].
  apply keeps_votes_and_then; [|intros [d|]; apply keeps_votes_respond].
  apply keeps_votes_and_then; [apply keeps_votes_reach|].
  intros _ b. reflexivity.
Qed.

Lemma keeps_records_get_user_settlements BigInt addr :
  keeps_records (get_user_settlements (L:=L) BigInt addr).
Proof.
  unfold get_user_settlements, SettlementRecord_find.
  apply keeps_records_attempt; [|intros e; step_records].
  apply keeps_records_and_then.
  - apply keeps_records_and_then; [apply keeps_records_reach|].
    intros _ b. reflexivity.
  - intros l. destruct (map_each _ l);
      [apply keeps_records_respond|apply keeps_records_raise].
Qed.

Lemma keeps_votes_get_user_settlements BigInt addr :
  keeps_votes (get_user_settlements (L:=L) BigInt addr).
Proof.
  unfold get_user_settlements, SettlementRecord_find.
  apply keeps_votes_attempt; [|intros e; step_votes].
  apply keeps_votes_and_then.
  - apply keeps_votes_and_then; [apply keeps_votes_reach|].
    intros _ b. reflexivity.
  - intros l. destruct (map_each _ l);
      [apply keeps_votes_respond|apply keeps_votes_raise].
Qed.

Lemma keeps_records_get_faucet addr : keeps_records (get_faucet (L:=L) addr).
Proof. unfold get_faucet. step_records. Qed.

Lemma keeps_votes_get_faucet addr : keeps_votes (get_faucet (L:=L) addr).
Proof. unfold get_faucet. step_votes. Qed.

Variable BigInt : string -> outcome Z.

Lemma served_appends (b : Backend L) (r : Request) :
  appends b (served BigInt b r).
Proof.
  destruct r; cbn [served].
  - apply stores_post_manual_settle.
  - apply stores_of_keeps;
      [apply keeps_records_get_settlement_status|apply keeps_votes_get_settlement_status].
  - apply stores_of_keeps;
      [apply keeps_records_get_settlement|apply keeps_votes_get_settlement].
  - apply stores_of_keeps;
      [apply keeps_records_get_user_settlements|apply keeps_votes_get_user_settlements].
  - apply stores_post_user_vote.
  - apply stores_post_relay.
  - apply stores_of_keeps; [apply keeps_records_get_faucet|apply keeps_votes_get_faucet].
  - apply stores_await, keeps_checkAndSettleMarkets.
Qed.

Lemma served_keeps_records (b : Backend L) (r : Request) :
  settles r = false ->
  docs (service (served BigInt b r)) = docs (service b).
Proof.
  destruct r; cbn [served settles]; intros Hr; try discriminate.
  - apply keeps_records_get_settlement_status.
  - apply keeps_records_get_settlement.
  - apply keeps_records_get_user_settlements.
  - apply keeps_records_post_user_vote.
  - apply keeps_records_post_relay.
  - apply keeps_records_get_faucet.
Qed.

Lemma served_keeps_votes (b : Backend L) (r : Request) :
  votes r = false ->
  userVotes (served BigInt b r) = userVotes b.
Proof.
  destruct r; cbn [served votes]; intros Hr; try discriminate.
  - apply keeps_votes_post_manual_settle.
  - apply keeps_votes_get_settlement_status.
  - apply keeps_votes_get_settlement.
  - apply keeps_votes_get_user_settlements.
  - apply keeps_votes_get_faucet.
  - reflexivity.
Qed.

Lemma serve_appends (rs : list Request) (b : Backend L) :
  appends b (serve BigInt rs b).
Proof.
  revert b. induction rs as [|r rs IH]; intros b; cbn [serve fold_left].
  - apply appends_refl.
  - eapply appends_trans; [apply served_appends|apply IH].
Qed.

Lemma serve_keeps_records (rs : list Request) (b : Backend L) :
  forallb (fun r => negb (settles r)) rs = true ->
  docs (service (serve BigInt rs b)) = docs (service b).
Proof.
  revert b. induction rs as [|r rs IH]; intros b Hall;
    cbn [serve fold_left]; [reflexivity|].
  cbn [forallb] in Hall. apply andb_true_iff in Hall as [Hr Hrs].
  apply negb_true_iff in Hr.
  fold (serve BigInt rs (served BigInt b r)).
  rewrite (IH _ Hrs). apply served_keeps_records, Hr.
Qed.

Lemma serve_keeps_votes (rs : list Request) (b : Backend L) :
  forallb (fun r => negb (votes r)) rs = true ->
  userVotes (serve BigInt rs b) = userVotes b.
Proof.
  revert b. induction rs as [|r rs IH]; intros b Hall;
    cbn [serve fold_left]; [reflexivity|].
  cbn [forallb] in Hall. apply andb_true_iff in Hall as [Hr Hrs].
  apply negb_true_iff in Hr.
  fold (serve BigInt rs (served BigInt b r)).
  rewrite (IH _ Hrs). apply served_keeps_votes, Hr.
Qed.

(** X19: over any run of requests and scheduled scans, served one
    after the other, the two collections only grow at their end: the
    records added have no participants, both unique indexes are kept,
    a run without manual settlements and scans leaves the records as
    they were, and a run without [/api/user-vote] and [/api/relay]
    leaves the votes as they were. *)
Theorem collections_only_grow (rs : list Request) (b : Backend L) :
  let b' := serve BigInt rs b in
  (exists records,
     docs (service b') = docs (service b) ++ records /\
     Forall (fun d => participants d = []) records) /\
  (exists cast, userVotes b' = userVotes b ++ cast) /\
  (unique_ids (docs (service b)) -> unique_ids (docs (service b'))) /\
  (unique_votes (userVotes b) -> unique_votes (userVotes b')) /\
  (forallb (fun r => negb (settles r)) rs = true ->
   docs (service b') = docs (service b)) /\
  (forallb (fun r => negb (votes r)) rs = true ->
   userVotes b' = userVotes b).
Proof.
  cbv zeta.
  destruct (serve_appends rs b) as [Hgrows (cast & Hcast & Huv)].
  split; [apply grows_added, Hgrows|].
  split; [exists cast; exact Hcast|].
  split; [apply grows_unique, Hgrows|].
  split; [exact Huv|].
  split; [apply serve_keeps_records|apply serve_keeps_votes].
Qed.

End RoutesAppend.

(** A run on the reference ledger. Alice's relayed vote on market 1
    comes after the one she posted and is not stored; market 3, which
    the scan settled, is settled again by hand and not recorded again. *)
Example a_run_on_the_reference_ledger :
  let b' :=
    serve Sample.decimal
      [ PostUserVote {| vb_userAddress := Some Sample.alice; vb_marketId := Some 1;
                        vb_vote := Some "funny"%string;
                        vb_transactionHash := None |};
        PostRelay {| rb_userAddress := Some Sample.alice; rb_marketId := Some 1;
                     rb_voteYes := Some true |};
        PostRelay {| rb_userAddress := Some Sample.alice; rb_marketId := Some 2;
                     rb_voteYes := Some false |};
        ScheduledScan; ManualSettle "3" 3; Faucet Sample.alice; GetSettlement 3 ]
      Sample.backend in
  map (fun v => (uv_marketId v, uv_vote v)) (userVotes b') = [(1, funny); (2, lame)] /\
  map marketId (docs (service b')) = [0; 3].
Proof. vm_compute. split; reflexivity. Qed.
